(** * tree-sitter-java: the grammar of [grammar.js] and its properties

    The repository is one grammar written in the tree-sitter grammar DSL.
    This development embeds the DSL as a datatype of rules, transcribes the
    grammar rule by rule, gives the rules their meaning as productions and
    derivation trees, and states the properties of the grammar against that
    meaning. *)

From Stdlib Require Import String Ascii Bool ZArith NArith Arith Lia List.
Import ListNotations.
Open Scope string_scope.

Set Implicit Arguments.

(** ** Characters and lexemes *)

(** Source text is Unicode; a character is its code point. *)
Definition codepoint := N.
Definition lexeme := list codepoint.

Definition c (a : ascii) : codepoint := N_of_ascii a.
Arguments c a%_char.

Fixpoint cps (s : string) : lexeme :=
  match s with
  | EmptyString => []
  | String a s' => c a :: cps s'
  end.

(** The double quote and the backslash, by code. *)
Definition DQUOTE : codepoint := 34%N.
Definition BSLASH : codepoint := 92%N.
Definition NEWLINE : codepoint := 10%N.
Definition dq : string := String (ascii_of_N 34) EmptyString.
Definition dq3 : string := (dq ++ dq ++ dq)%string.
Definition bs : string := String (ascii_of_N 92) EmptyString.

(** ** Regular expressions of the lexical layer *)

(** Unicode properties a character class may name. *)
Inductive uprop := XID_Start | XID_Continue.

(** One item of a bracketed character class. *)
Inductive citem :=
| CChar (x : codepoint)
| CRange (lo hi : codepoint)
| CProp (p : uprop)
| CSpace.

Inductive regex :=
| REps
| RChr (x : codepoint)
| RAny
| RSet (items : list citem)
| RNSet (items : list citem)
| RCat (r1 r2 : regex)
| RAlt (r1 r2 : regex)
| RStar (r : regex)
| RPlus (r : regex)
| RRep (r : regex) (lo hi : nat).

Declare Scope regex_scope.
Delimit Scope regex_scope with re.
Bind Scope regex_scope with regex.
Infix "@@" := RCat (at level 40, left associativity) : regex_scope.

Section RegexMatching.

(** The Unicode tables are the engine's; matching is defined for any. *)
Variable uni : uprop -> codepoint -> bool.

(** [\s] as JavaScript defines it. *)
Definition is_space (x : codepoint) : bool :=
  ((9 <=? x) && (x <=? 13) || (x =? 32) || (x =? 160) || (x =? 5760)
   || (8192 <=? x) && (x <=? 8202) || (x =? 8232) || (x =? 8233)
   || (x =? 8239) || (x =? 8287) || (x =? 12288) || (x =? 65279))%N.

Definition citem_has (i : citem) (x : codepoint) : bool :=
  match i with
  | CChar y => (x =? y)%N
  | CRange lo hi => ((lo <=? x) && (x <=? hi))%N
  | CProp p => uni p x
  | CSpace => is_space x
  end.

Definition class_has (items : list citem) (x : codepoint) : bool :=
  existsb (fun i => citem_has i x) items.

Fixpoint nullable (r : regex) : bool :=
  match r with
  | REps => true
  | RChr _ | RAny | RSet _ | RNSet _ => false
  | RCat r1 r2 => nullable r1 && nullable r2
  | RAlt r1 r2 => nullable r1 || nullable r2
  | RStar _ => true
  | RPlus r1 => nullable r1
  | RRep r1 lo _ => match lo with O => true | S _ => nullable r1 end
  end.

(** The empty language, as a class with no member. *)
Definition RVoid : regex := RSet [].

Definition of_bool (b : bool) : regex := if b then REps else RVoid.

(** Brzozowski derivative of [r] by the character [x]. *)
Fixpoint deriv (x : codepoint) (r : regex) : regex :=
  match r with
  | REps => RVoid
  | RChr y => of_bool (x =? y)%N
  | RAny => of_bool (negb (x =? NEWLINE)%N)
  | RSet items => of_bool (class_has items x)
  | RNSet items => of_bool (negb (class_has items x))
  | RCat r1 r2 =>
      if nullable r1
      then RAlt (RCat (deriv x r1) r2) (deriv x r2)
      else RCat (deriv x r1) r2
  | RAlt r1 r2 => RAlt (deriv x r1) (deriv x r2)
  | RStar r1 => RCat (deriv x r1) (RStar r1)
  | RPlus r1 => RCat (deriv x r1) (RStar r1)
  | RRep r1 lo hi =>
      match hi with
      | O => RVoid
      | S hi' => RCat (deriv x r1) (RRep r1 (pred lo) hi')
      end
  end.

Fixpoint re_match (r : regex) (w : lexeme) : bool :=
  match w with
  | [] => nullable r
  | x :: w' => re_match (deriv x r) w'
  end.

End RegexMatching.

(** ** The Unicode tables *)

(** Modelled from the spec: the pattern of [identifier] names the Unicode
    properties XID_Start and XID_Continue ("Unicode XID-start followed by
    XID-continue characters"); their tables are the Unicode standard's and
    are not in the repository. Here the code points with the property
    XID_Start (Unicode 14.0, DerivedCoreProperties), as inclusive ranges. *)
Definition xid_start_ranges : list (N * N) :=
  [ (65, 90); (97, 122); (170, 170); (181, 181); (186, 186); (192, 214); (216, 246);
    (248, 705); (710, 721); (736, 740); (748, 748); (750, 750); (880, 884); (886, 887);
    (891, 893); (895, 895); (902, 902); (904, 906); (908, 908); (910, 929); (931, 1013);
    (1015, 1153); (1162, 1327); (1329, 1366); (1369, 1369); (1376, 1416); (1488, 1514);
    (1519, 1522); (1568, 1610); (1646, 1647); (1649, 1747); (1749, 1749); (1765, 1766);
    (1774, 1775); (1786, 1788); (1791, 1791); (1808, 1808); (1810, 1839); (1869, 1957);
    (1969, 1969); (1994, 2026); (2036, 2037); (2042, 2042); (2048, 2069); (2074, 2074);
    (2084, 2084); (2088, 2088); (2112, 2136); (2144, 2154); (2160, 2183); (2185, 2190);
    (2208, 2249); (2308, 2361); (2365, 2365); (2384, 2384); (2392, 2401); (2417, 2432);
    (2437, 2444); (2447, 2448); (2451, 2472); (2474, 2480); (2482, 2482); (2486, 2489);
    (2493, 2493); (2510, 2510); (2524, 2525); (2527, 2529); (2544, 2545); (2556, 2556);
    (2565, 2570); (2575, 2576); (2579, 2600); (2602, 2608); (2610, 2611); (2613, 2614);
    (2616, 2617); (2649, 2652); (2654, 2654); (2674, 2676); (2693, 2701); (2703, 2705);
    (2707, 2728); (2730, 2736); (2738, 2739); (2741, 2745); (2749, 2749); (2768, 2768);
    (2784, 2785); (2809, 2809); (2821, 2828); (2831, 2832); (2835, 2856); (2858, 2864);
    (2866, 2867); (2869, 2873); (2877, 2877); (2908, 2909); (2911, 2913); (2929, 2929);
    (2947, 2947); (2949, 2954); (2958, 2960); (2962, 2965); (2969, 2970); (2972, 2972);
    (2974, 2975); (2979, 2980); (2984, 2986); (2990, 3001); (3024, 3024); (3077, 3084);
    (3086, 3088); (3090, 3112); (3114, 3129); (3133, 3133); (3160, 3162); (3165, 3165);
    (3168, 3169); (3200, 3200); (3205, 3212); (3214, 3216); (3218, 3240); (3242, 3251);
    (3253, 3257); (3261, 3261); (3293, 3294); (3296, 3297); (3313, 3314); (3332, 3340);
    (3342, 3344); (3346, 3386); (3389, 3389); (3406, 3406); (3412, 3414); (3423, 3425);
    (3450, 3455); (3461, 3478); (3482, 3505); (3507, 3515); (3517, 3517); (3520, 3526);
    (3585, 3632); (3634, 3634); (3648, 3654); (3713, 3714); (3716, 3716); (3718, 3722);
    (3724, 3747); (3749, 3749); (3751, 3760); (3762, 3762); (3773, 3773); (3776, 3780);
    (3782, 3782); (3804, 3807); (3840, 3840); (3904, 3911); (3913, 3948); (3976, 3980);
    (4096, 4138); (4159, 4159); (4176, 4181); (4186, 4189); (4193, 4193); (4197, 4198);
    (4206, 4208); (4213, 4225); (4238, 4238); (4256, 4293); (4295, 4295); (4301, 4301);
    (4304, 4346); (4348, 4680); (4682, 4685); (4688, 4694); (4696, 4696); (4698, 4701);
    (4704, 4744); (4746, 4749); (4752, 4784); (4786, 4789); (4792, 4798); (4800, 4800);
    (4802, 4805); (4808, 4822); (4824, 4880); (4882, 4885); (4888, 4954); (4992, 5007);
    (5024, 5109); (5112, 5117); (5121, 5740); (5743, 5759); (5761, 5786); (5792, 5866);
    (5870, 5880); (5888, 5905); (5919, 5937); (5952, 5969); (5984, 5996); (5998, 6000);
    (6016, 6067); (6103, 6103); (6108, 6108); (6176, 6264); (6272, 6312); (6314, 6314);
    (6320, 6389); (6400, 6430); (6480, 6509); (6512, 6516); (6528, 6571); (6576, 6601);
    (6656, 6678); (6688, 6740); (6823, 6823); (6917, 6963); (6981, 6988); (7043, 7072);
    (7086, 7087); (7098, 7141); (7168, 7203); (7245, 7247); (7258, 7293); (7296, 7304);
    (7312, 7354); (7357, 7359); (7401, 7404); (7406, 7411); (7413, 7414); (7418, 7418);
    (7424, 7615); (7680, 7957); (7960, 7965); (7968, 8005); (8008, 8013); (8016, 8023);
    (8025, 8025); (8027, 8027); (8029, 8029); (8031, 8061); (8064, 8116); (8118, 8124);
    (8126, 8126); (8130, 8132); (8134, 8140); (8144, 8147); (8150, 8155); (8160, 8172);
    (8178, 8180); (8182, 8188); (8305, 8305); (8319, 8319); (8336, 8348); (8450, 8450);
    (8455, 8455); (8458, 8467); (8469, 8469); (8472, 8477); (8484, 8484); (8486, 8486);
    (8488, 8488); (8490, 8505); (8508, 8511); (8517, 8521); (8526, 8526); (8544, 8584);
    (11264, 11492); (11499, 11502); (11506, 11507); (11520, 11557); (11559, 11559);
    (11565, 11565); (11568, 11623); (11631, 11631); (11648, 11670); (11680, 11686);
    (11688, 11694); (11696, 11702); (11704, 11710); (11712, 11718); (11720, 11726);
    (11728, 11734); (11736, 11742); (12293, 12295); (12321, 12329); (12337, 12341);
    (12344, 12348); (12353, 12438); (12445, 12447); (12449, 12538); (12540, 12543);
    (12549, 12591); (12593, 12686); (12704, 12735); (12784, 12799); (13312, 19903);
    (19968, 42124); (42192, 42237); (42240, 42508); (42512, 42527); (42538, 42539);
    (42560, 42606); (42623, 42653); (42656, 42735); (42775, 42783); (42786, 42888);
    (42891, 42954); (42960, 42961); (42963, 42963); (42965, 42969); (42994, 43009);
    (43011, 43013); (43015, 43018); (43020, 43042); (43072, 43123); (43138, 43187);
    (43250, 43255); (43259, 43259); (43261, 43262); (43274, 43301); (43312, 43334);
    (43360, 43388); (43396, 43442); (43471, 43471); (43488, 43492); (43494, 43503);
    (43514, 43518); (43520, 43560); (43584, 43586); (43588, 43595); (43616, 43638);
    (43642, 43642); (43646, 43695); (43697, 43697); (43701, 43702); (43705, 43709);
    (43712, 43712); (43714, 43714); (43739, 43741); (43744, 43754); (43762, 43764);
    (43777, 43782); (43785, 43790); (43793, 43798); (43808, 43814); (43816, 43822);
    (43824, 43866); (43868, 43881); (43888, 44002); (44032, 55203); (55216, 55238);
    (55243, 55291); (63744, 64109); (64112, 64217); (64256, 64262); (64275, 64279);
    (64285, 64285); (64287, 64296); (64298, 64310); (64312, 64316); (64318, 64318);
    (64320, 64321); (64323, 64324); (64326, 64433); (64467, 64605); (64612, 64829);
    (64848, 64911); (64914, 64967); (65008, 65017); (65137, 65137); (65139, 65139);
    (65143, 65143); (65145, 65145); (65147, 65147); (65149, 65149); (65151, 65276);
    (65313, 65338); (65345, 65370); (65382, 65437); (65440, 65470); (65474, 65479);
    (65482, 65487); (65490, 65495); (65498, 65500); (65536, 65547); (65549, 65574);
    (65576, 65594); (65596, 65597); (65599, 65613); (65616, 65629); (65664, 65786);
    (65856, 65908); (66176, 66204); (66208, 66256); (66304, 66335); (66349, 66378);
    (66384, 66421); (66432, 66461); (66464, 66499); (66504, 66511); (66513, 66517);
    (66560, 66717); (66736, 66771); (66776, 66811); (66816, 66855); (66864, 66915);
    (66928, 66938); (66940, 66954); (66956, 66962); (66964, 66965); (66967, 66977);
    (66979, 66993); (66995, 67001); (67003, 67004); (67072, 67382); (67392, 67413);
    (67424, 67431); (67456, 67461); (67463, 67504); (67506, 67514); (67584, 67589);
    (67592, 67592); (67594, 67637); (67639, 67640); (67644, 67644); (67647, 67669);
    (67680, 67702); (67712, 67742); (67808, 67826); (67828, 67829); (67840, 67861);
    (67872, 67897); (67968, 68023); (68030, 68031); (68096, 68096); (68112, 68115);
    (68117, 68119); (68121, 68149); (68192, 68220); (68224, 68252); (68288, 68295);
    (68297, 68324); (68352, 68405); (68416, 68437); (68448, 68466); (68480, 68497);
    (68608, 68680); (68736, 68786); (68800, 68850); (68864, 68899); (69248, 69289);
    (69296, 69297); (69376, 69404); (69415, 69415); (69424, 69445); (69488, 69505);
    (69552, 69572); (69600, 69622); (69635, 69687); (69745, 69746); (69749, 69749);
    (69763, 69807); (69840, 69864); (69891, 69926); (69956, 69956); (69959, 69959);
    (69968, 70002); (70006, 70006); (70019, 70066); (70081, 70084); (70106, 70106);
    (70108, 70108); (70144, 70161); (70163, 70187); (70272, 70278); (70280, 70280);
    (70282, 70285); (70287, 70301); (70303, 70312); (70320, 70366); (70405, 70412);
    (70415, 70416); (70419, 70440); (70442, 70448); (70450, 70451); (70453, 70457);
    (70461, 70461); (70480, 70480); (70493, 70497); (70656, 70708); (70727, 70730);
    (70751, 70753); (70784, 70831); (70852, 70853); (70855, 70855); (71040, 71086);
    (71128, 71131); (71168, 71215); (71236, 71236); (71296, 71338); (71352, 71352);
    (71424, 71450); (71488, 71494); (71680, 71723); (71840, 71903); (71935, 71942);
    (71945, 71945); (71948, 71955); (71957, 71958); (71960, 71983); (71999, 71999);
    (72001, 72001); (72096, 72103); (72106, 72144); (72161, 72161); (72163, 72163);
    (72192, 72192); (72203, 72242); (72250, 72250); (72272, 72272); (72284, 72329);
    (72349, 72349); (72368, 72440); (72704, 72712); (72714, 72750); (72768, 72768);
    (72818, 72847); (72960, 72966); (72968, 72969); (72971, 73008); (73030, 73030);
    (73056, 73061); (73063, 73064); (73066, 73097); (73112, 73112); (73440, 73458);
    (73648, 73648); (73728, 74649); (74752, 74862); (74880, 75075); (77712, 77808);
    (77824, 78894); (82944, 83526); (92160, 92728); (92736, 92766); (92784, 92862);
    (92880, 92909); (92928, 92975); (92992, 92995); (93027, 93047); (93053, 93071);
    (93760, 93823); (93952, 94026); (94032, 94032); (94099, 94111); (94176, 94177);
    (94179, 94179); (94208, 100343); (100352, 101589); (101632, 101640); (110576, 110579);
    (110581, 110587); (110589, 110590); (110592, 110882); (110928, 110930);
    (110948, 110951); (110960, 111355); (113664, 113770); (113776, 113788);
    (113792, 113800); (113808, 113817); (119808, 119892); (119894, 119964);
    (119966, 119967); (119970, 119970); (119973, 119974); (119977, 119980);
    (119982, 119993); (119995, 119995); (119997, 120003); (120005, 120069);
    (120071, 120074); (120077, 120084); (120086, 120092); (120094, 120121);
    (120123, 120126); (120128, 120132); (120134, 120134); (120138, 120144);
    (120146, 120485); (120488, 120512); (120514, 120538); (120540, 120570);
    (120572, 120596); (120598, 120628); (120630, 120654); (120656, 120686);
    (120688, 120712); (120714, 120744); (120746, 120770); (120772, 120779);
    (122624, 122654); (123136, 123180); (123191, 123197); (123214, 123214);
    (123536, 123565); (123584, 123627); (124896, 124902); (124904, 124907);
    (124909, 124910); (124912, 124926); (124928, 125124); (125184, 125251);
    (125259, 125259); (126464, 126467); (126469, 126495); (126497, 126498);
    (126500, 126500); (126503, 126503); (126505, 126514); (126516, 126519);
    (126521, 126521); (126523, 126523); (126530, 126530); (126535, 126535);
    (126537, 126537); (126539, 126539); (126541, 126543); (126545, 126546);
    (126548, 126548); (126551, 126551); (126553, 126553); (126555, 126555);
    (126557, 126557); (126559, 126559); (126561, 126562); (126564, 126564);
    (126567, 126570); (126572, 126578); (126580, 126583); (126585, 126588);
    (126590, 126590); (126592, 126601); (126603, 126619); (126625, 126627);
    (126629, 126633); (126635, 126651); (131072, 173791); (173824, 177976);
    (177984, 178205); (178208, 183969); (183984, 191456); (194560, 195101);
    (196608, 201546) ]%N.

(** Modelled from the spec: likewise the Unicode standard's table of
    XID_Continue (Unicode 14.0, DerivedCoreProperties), as inclusive ranges. *)
Definition xid_continue_ranges : list (N * N) :=
  [ (48, 57); (65, 90); (95, 95); (97, 122); (170, 170); (181, 181); (183, 183);
    (186, 186); (192, 214); (216, 246); (248, 705); (710, 721); (736, 740); (748, 748);
    (750, 750); (768, 884); (886, 887); (891, 893); (895, 895); (902, 906); (908, 908);
    (910, 929); (931, 1013); (1015, 1153); (1155, 1159); (1162, 1327); (1329, 1366);
    (1369, 1369); (1376, 1416); (1425, 1469); (1471, 1471); (1473, 1474); (1476, 1477);
    (1479, 1479); (1488, 1514); (1519, 1522); (1552, 1562); (1568, 1641); (1646, 1747);
    (1749, 1756); (1759, 1768); (1770, 1788); (1791, 1791); (1808, 1866); (1869, 1969);
    (1984, 2037); (2042, 2042); (2045, 2045); (2048, 2093); (2112, 2139); (2144, 2154);
    (2160, 2183); (2185, 2190); (2200, 2273); (2275, 2403); (2406, 2415); (2417, 2435);
    (2437, 2444); (2447, 2448); (2451, 2472); (2474, 2480); (2482, 2482); (2486, 2489);
    (2492, 2500); (2503, 2504); (2507, 2510); (2519, 2519); (2524, 2525); (2527, 2531);
    (2534, 2545); (2556, 2556); (2558, 2558); (2561, 2563); (2565, 2570); (2575, 2576);
    (2579, 2600); (2602, 2608); (2610, 2611); (2613, 2614); (2616, 2617); (2620, 2620);
    (2622, 2626); (2631, 2632); (2635, 2637); (2641, 2641); (2649, 2652); (2654, 2654);
    (2662, 2677); (2689, 2691); (2693, 2701); (2703, 2705); (2707, 2728); (2730, 2736);
    (2738, 2739); (2741, 2745); (2748, 2757); (2759, 2761); (2763, 2765); (2768, 2768);
    (2784, 2787); (2790, 2799); (2809, 2815); (2817, 2819); (2821, 2828); (2831, 2832);
    (2835, 2856); (2858, 2864); (2866, 2867); (2869, 2873); (2876, 2884); (2887, 2888);
    (2891, 2893); (2901, 2903); (2908, 2909); (2911, 2915); (2918, 2927); (2929, 2929);
    (2946, 2947); (2949, 2954); (2958, 2960); (2962, 2965); (2969, 2970); (2972, 2972);
    (2974, 2975); (2979, 2980); (2984, 2986); (2990, 3001); (3006, 3010); (3014, 3016);
    (3018, 3021); (3024, 3024); (3031, 3031); (3046, 3055); (3072, 3084); (3086, 3088);
    (3090, 3112); (3114, 3129); (3132, 3140); (3142, 3144); (3146, 3149); (3157, 3158);
    (3160, 3162); (3165, 3165); (3168, 3171); (3174, 3183); (3200, 3203); (3205, 3212);
    (3214, 3216); (3218, 3240); (3242, 3251); (3253, 3257); (3260, 3268); (3270, 3272);
    (3274, 3277); (3285, 3286); (3293, 3294); (3296, 3299); (3302, 3311); (3313, 3314);
    (3328, 3340); (3342, 3344); (3346, 3396); (3398, 3400); (3402, 3406); (3412, 3415);
    (3423, 3427); (3430, 3439); (3450, 3455); (3457, 3459); (3461, 3478); (3482, 3505);
    (3507, 3515); (3517, 3517); (3520, 3526); (3530, 3530); (3535, 3540); (3542, 3542);
    (3544, 3551); (3558, 3567); (3570, 3571); (3585, 3642); (3648, 3662); (3664, 3673);
    (3713, 3714); (3716, 3716); (3718, 3722); (3724, 3747); (3749, 3749); (3751, 3773);
    (3776, 3780); (3782, 3782); (3784, 3789); (3792, 3801); (3804, 3807); (3840, 3840);
    (3864, 3865); (3872, 3881); (3893, 3893); (3895, 3895); (3897, 3897); (3902, 3911);
    (3913, 3948); (3953, 3972); (3974, 3991); (3993, 4028); (4038, 4038); (4096, 4169);
    (4176, 4253); (4256, 4293); (4295, 4295); (4301, 4301); (4304, 4346); (4348, 4680);
    (4682, 4685); (4688, 4694); (4696, 4696); (4698, 4701); (4704, 4744); (4746, 4749);
    (4752, 4784); (4786, 4789); (4792, 4798); (4800, 4800); (4802, 4805); (4808, 4822);
    (4824, 4880); (4882, 4885); (4888, 4954); (4957, 4959); (4969, 4977); (4992, 5007);
    (5024, 5109); (5112, 5117); (5121, 5740); (5743, 5759); (5761, 5786); (5792, 5866);
    (5870, 5880); (5888, 5909); (5919, 5940); (5952, 5971); (5984, 5996); (5998, 6000);
    (6002, 6003); (6016, 6099); (6103, 6103); (6108, 6109); (6112, 6121); (6155, 6157);
    (6159, 6169); (6176, 6264); (6272, 6314); (6320, 6389); (6400, 6430); (6432, 6443);
    (6448, 6459); (6470, 6509); (6512, 6516); (6528, 6571); (6576, 6601); (6608, 6618);
    (6656, 6683); (6688, 6750); (6752, 6780); (6783, 6793); (6800, 6809); (6823, 6823);
    (6832, 6845); (6847, 6862); (6912, 6988); (6992, 7001); (7019, 7027); (7040, 7155);
    (7168, 7223); (7232, 7241); (7245, 7293); (7296, 7304); (7312, 7354); (7357, 7359);
    (7376, 7378); (7380, 7418); (7424, 7957); (7960, 7965); (7968, 8005); (8008, 8013);
    (8016, 8023); (8025, 8025); (8027, 8027); (8029, 8029); (8031, 8061); (8064, 8116);
    (8118, 8124); (8126, 8126); (8130, 8132); (8134, 8140); (8144, 8147); (8150, 8155);
    (8160, 8172); (8178, 8180); (8182, 8188); (8255, 8256); (8276, 8276); (8305, 8305);
    (8319, 8319); (8336, 8348); (8400, 8412); (8417, 8417); (8421, 8432); (8450, 8450);
    (8455, 8455); (8458, 8467); (8469, 8469); (8472, 8477); (8484, 8484); (8486, 8486);
    (8488, 8488); (8490, 8505); (8508, 8511); (8517, 8521); (8526, 8526); (8544, 8584);
    (11264, 11492); (11499, 11507); (11520, 11557); (11559, 11559); (11565, 11565);
    (11568, 11623); (11631, 11631); (11647, 11670); (11680, 11686); (11688, 11694);
    (11696, 11702); (11704, 11710); (11712, 11718); (11720, 11726); (11728, 11734);
    (11736, 11742); (11744, 11775); (12293, 12295); (12321, 12335); (12337, 12341);
    (12344, 12348); (12353, 12438); (12441, 12442); (12445, 12447); (12449, 12538);
    (12540, 12543); (12549, 12591); (12593, 12686); (12704, 12735); (12784, 12799);
    (13312, 19903); (19968, 42124); (42192, 42237); (42240, 42508); (42512, 42539);
    (42560, 42607); (42612, 42621); (42623, 42737); (42775, 42783); (42786, 42888);
    (42891, 42954); (42960, 42961); (42963, 42963); (42965, 42969); (42994, 43047);
    (43052, 43052); (43072, 43123); (43136, 43205); (43216, 43225); (43232, 43255);
    (43259, 43259); (43261, 43309); (43312, 43347); (43360, 43388); (43392, 43456);
    (43471, 43481); (43488, 43518); (43520, 43574); (43584, 43597); (43600, 43609);
    (43616, 43638); (43642, 43714); (43739, 43741); (43744, 43759); (43762, 43766);
    (43777, 43782); (43785, 43790); (43793, 43798); (43808, 43814); (43816, 43822);
    (43824, 43866); (43868, 43881); (43888, 44010); (44012, 44013); (44016, 44025);
    (44032, 55203); (55216, 55238); (55243, 55291); (63744, 64109); (64112, 64217);
    (64256, 64262); (64275, 64279); (64285, 64296); (64298, 64310); (64312, 64316);
    (64318, 64318); (64320, 64321); (64323, 64324); (64326, 64433); (64467, 64605);
    (64612, 64829); (64848, 64911); (64914, 64967); (65008, 65017); (65024, 65039);
    (65056, 65071); (65075, 65076); (65101, 65103); (65137, 65137); (65139, 65139);
    (65143, 65143); (65145, 65145); (65147, 65147); (65149, 65149); (65151, 65276);
    (65296, 65305); (65313, 65338); (65343, 65343); (65345, 65370); (65382, 65470);
    (65474, 65479); (65482, 65487); (65490, 65495); (65498, 65500); (65536, 65547);
    (65549, 65574); (65576, 65594); (65596, 65597); (65599, 65613); (65616, 65629);
    (65664, 65786); (65856, 65908); (66045, 66045); (66176, 66204); (66208, 66256);
    (66272, 66272); (66304, 66335); (66349, 66378); (66384, 66426); (66432, 66461);
    (66464, 66499); (66504, 66511); (66513, 66517); (66560, 66717); (66720, 66729);
    (66736, 66771); (66776, 66811); (66816, 66855); (66864, 66915); (66928, 66938);
    (66940, 66954); (66956, 66962); (66964, 66965); (66967, 66977); (66979, 66993);
    (66995, 67001); (67003, 67004); (67072, 67382); (67392, 67413); (67424, 67431);
    (67456, 67461); (67463, 67504); (67506, 67514); (67584, 67589); (67592, 67592);
    (67594, 67637); (67639, 67640); (67644, 67644); (67647, 67669); (67680, 67702);
    (67712, 67742); (67808, 67826); (67828, 67829); (67840, 67861); (67872, 67897);
    (67968, 68023); (68030, 68031); (68096, 68099); (68101, 68102); (68108, 68115);
    (68117, 68119); (68121, 68149); (68152, 68154); (68159, 68159); (68192, 68220);
    (68224, 68252); (68288, 68295); (68297, 68326); (68352, 68405); (68416, 68437);
    (68448, 68466); (68480, 68497); (68608, 68680); (68736, 68786); (68800, 68850);
    (68864, 68903); (68912, 68921); (69248, 69289); (69291, 69292); (69296, 69297);
    (69376, 69404); (69415, 69415); (69424, 69456); (69488, 69509); (69552, 69572);
    (69600, 69622); (69632, 69702); (69734, 69749); (69759, 69818); (69826, 69826);
    (69840, 69864); (69872, 69881); (69888, 69940); (69942, 69951); (69956, 69959);
    (69968, 70003); (70006, 70006); (70016, 70084); (70089, 70092); (70094, 70106);
    (70108, 70108); (70144, 70161); (70163, 70199); (70206, 70206); (70272, 70278);
    (70280, 70280); (70282, 70285); (70287, 70301); (70303, 70312); (70320, 70378);
    (70384, 70393); (70400, 70403); (70405, 70412); (70415, 70416); (70419, 70440);
    (70442, 70448); (70450, 70451); (70453, 70457); (70459, 70468); (70471, 70472);
    (70475, 70477); (70480, 70480); (70487, 70487); (70493, 70499); (70502, 70508);
    (70512, 70516); (70656, 70730); (70736, 70745); (70750, 70753); (70784, 70853);
    (70855, 70855); (70864, 70873); (71040, 71093); (71096, 71104); (71128, 71133);
    (71168, 71232); (71236, 71236); (71248, 71257); (71296, 71352); (71360, 71369);
    (71424, 71450); (71453, 71467); (71472, 71481); (71488, 71494); (71680, 71738);
    (71840, 71913); (71935, 71942); (71945, 71945); (71948, 71955); (71957, 71958);
    (71960, 71989); (71991, 71992); (71995, 72003); (72016, 72025); (72096, 72103);
    (72106, 72151); (72154, 72161); (72163, 72164); (72192, 72254); (72263, 72263);
    (72272, 72345); (72349, 72349); (72368, 72440); (72704, 72712); (72714, 72758);
    (72760, 72768); (72784, 72793); (72818, 72847); (72850, 72871); (72873, 72886);
    (72960, 72966); (72968, 72969); (72971, 73014); (73018, 73018); (73020, 73021);
    (73023, 73031); (73040, 73049); (73056, 73061); (73063, 73064); (73066, 73102);
    (73104, 73105); (73107, 73112); (73120, 73129); (73440, 73462); (73648, 73648);
    (73728, 74649); (74752, 74862); (74880, 75075); (77712, 77808); (77824, 78894);
    (82944, 83526); (92160, 92728); (92736, 92766); (92768, 92777); (92784, 92862);
    (92864, 92873); (92880, 92909); (92912, 92916); (92928, 92982); (92992, 92995);
    (93008, 93017); (93027, 93047); (93053, 93071); (93760, 93823); (93952, 94026);
    (94031, 94087); (94095, 94111); (94176, 94177); (94179, 94180); (94192, 94193);
    (94208, 100343); (100352, 101589); (101632, 101640); (110576, 110579);
    (110581, 110587); (110589, 110590); (110592, 110882); (110928, 110930);
    (110948, 110951); (110960, 111355); (113664, 113770); (113776, 113788);
    (113792, 113800); (113808, 113817); (113821, 113822); (118528, 118573);
    (118576, 118598); (119141, 119145); (119149, 119154); (119163, 119170);
    (119173, 119179); (119210, 119213); (119362, 119364); (119808, 119892);
    (119894, 119964); (119966, 119967); (119970, 119970); (119973, 119974);
    (119977, 119980); (119982, 119993); (119995, 119995); (119997, 120003);
    (120005, 120069); (120071, 120074); (120077, 120084); (120086, 120092);
    (120094, 120121); (120123, 120126); (120128, 120132); (120134, 120134);
    (120138, 120144); (120146, 120485); (120488, 120512); (120514, 120538);
    (120540, 120570); (120572, 120596); (120598, 120628); (120630, 120654);
    (120656, 120686); (120688, 120712); (120714, 120744); (120746, 120770);
    (120772, 120779); (120782, 120831); (121344, 121398); (121403, 121452);
    (121461, 121461); (121476, 121476); (121499, 121503); (121505, 121519);
    (122624, 122654); (122880, 122886); (122888, 122904); (122907, 122913);
    (122915, 122916); (122918, 122922); (123136, 123180); (123184, 123197);
    (123200, 123209); (123214, 123214); (123536, 123566); (123584, 123641);
    (124896, 124902); (124904, 124907); (124909, 124910); (124912, 124926);
    (124928, 125124); (125136, 125142); (125184, 125259); (125264, 125273);
    (126464, 126467); (126469, 126495); (126497, 126498); (126500, 126500);
    (126503, 126503); (126505, 126514); (126516, 126519); (126521, 126521);
    (126523, 126523); (126530, 126530); (126535, 126535); (126537, 126537);
    (126539, 126539); (126541, 126543); (126545, 126546); (126548, 126548);
    (126551, 126551); (126553, 126553); (126555, 126555); (126557, 126557);
    (126559, 126559); (126561, 126562); (126564, 126564); (126567, 126570);
    (126572, 126578); (126580, 126583); (126585, 126588); (126590, 126590);
    (126592, 126601); (126603, 126619); (126625, 126627); (126629, 126633);
    (126635, 126651); (130032, 130041); (131072, 173791); (173824, 177976);
    (177984, 178205); (178208, 183969); (183984, 191456); (194560, 195101);
    (196608, 201546); (917760, 917999) ]%N.

Definition in_ranges (rs : list (N * N)) (x : codepoint) : bool :=
  existsb (fun '(lo, hi) => ((lo <=? x) && (x <=? hi))%N) rs.

Definition unicode (p : uprop) (x : codepoint) : bool :=
  match p with
  | XID_Start => in_ranges xid_start_ranges x
  | XID_Continue => in_ranges xid_continue_ranges x
  end.

(** ** The grammar DSL *)

(** The combinators of the tree-sitter DSL, as [grammar.js] uses them.
    [Sym n] is [$.n]; [Str s] a string literal; [Pat r] a regex literal. *)
#[warnings="-register-all"] Inductive rule :=
| Blank
| Sym (name : string)
| Str (s : string)
| Pat (r : regex)
| Seq (rs : list rule)
| Choice (rs : list rule)
| Repeat (r : rule)
| Repeat1 (r : rule)
| Prec (n : Z) (r : rule)
| PrecLeft (n : Z) (r : rule)
| PrecRight (n : Z) (r : rule)
| PrecDynamic (n : Z) (r : rule)
| Field (name : string) (r : rule)
| Alias (r : rule) (name : string)
| Token (r : rule)
| TokenImmediate (r : rule).

(** [optional(r)] is [choice(r, blank())] in the DSL. *)
Definition optional (r : rule) : rule := Choice [r; Blank].

(** The three helpers at the end of [grammar.js]. *)
Definition sep1 (r separator : rule) : rule :=
  Seq [r; Repeat (Seq [separator; r])].

Definition commaSep1 (r : rule) : rule :=
  Seq [r; Repeat (Seq [Str ","; r])].

Definition commaSep (r : rule) : rule := optional (commaSep1 r).

(** A grammar, as the object passed to [grammar(...)]: property order kept. *)
Record grammar := {
  g_name : string;
  g_extras : list rule;
  g_supertypes : list rule;
  g_inline : list rule;
  g_conflicts : list (list rule);
  g_word : rule;
  g_rules : list (string * rule)
}.

Fixpoint lookup (rules : list (string * rule)) (n : string) : option rule :=
  match rules with
  | [] => None
  | (m, r) :: rest => if String.eqb m n then Some r else lookup rest n
  end.

(** ** Regex literals of the grammar *)

Module Re.
Definition digit19 := RSet [CRange (c "1") (c "9")].
Definition digits := RPlus (RSet [CRange (c "0") (c "9")]).
Definition underscores := RPlus (RChr (c "_")).
Definition hexdigits :=
  RPlus (RSet [CRange (c "A") (c "F"); CRange (c "a") (c "f"); CRange (c "0") (c "9")]).
Definition octdigits := RPlus (RSet [CRange (c "0") (c "7")]).
Definition bindigits := RPlus (RSet [CChar (c "0"); CChar (c "1")]).
Definition eE := RSet [CChar (c "e"); CChar (c "E")].
Definition fFdD := RSet [CChar (c "f"); CChar (c "F"); CChar (c "d"); CChar (c "D")].
Definition pP := RSet [CChar (c "p"); CChar (c "P")].
(* /[^\\'\n]/ *)
Definition char_plain := RNSet [CChar BSLASH; CChar (c "'"); CChar NEWLINE].
(* /\\./ *)
Definition char_escaped := (RChr BSLASH @@ RAny)%re.
(* /\\\n/ *)
Definition char_continued := (RChr BSLASH @@ RChr NEWLINE)%re.
(* /[^DQ\\]+/, DQ the double quote *)
Definition fragment := RPlus (RNSet [CChar DQUOTE; CChar BSLASH]).
(* /DQ([^DQ\\]|\\DQ)*/ *)
Definition quote_fragment :=
  (RChr DQUOTE
   @@ RStar (RAlt (RNSet [CChar DQUOTE; CChar BSLASH]) (RChr BSLASH @@ RChr DQUOTE)))%re.
(* /[^bfnrts'\DQ\\]/ *)
Definition not_simple_escape :=
  RNSet [CChar (c "b"); CChar (c "f"); CChar (c "n"); CChar (c "r"); CChar (c "t");
         CChar (c "s"); CChar (c "'"); CChar DQUOTE; CChar BSLASH].
(* /[^xu0-7]/ *)
Definition esc_single := RNSet [CChar (c "x"); CChar (c "u"); CRange (c "0") (c "7")].
(* /[0-7]{1,3}/ *)
Definition esc_octal := RRep (RSet [CRange (c "0") (c "7")]) 1 3.
Definition hex1 :=
  RSet [CRange (c "0") (c "9"); CRange (c "a") (c "f"); CRange (c "A") (c "F")].
(* /x[0-9a-fA-F]{2}/ *)
Definition esc_x := (RChr (c "x") @@ RRep hex1 2 2)%re.
(* /u[0-9a-fA-F]{4}/ *)
Definition esc_u := (RChr (c "u") @@ RRep hex1 4 4)%re.
(* /u\{[0-9a-fA-F]+\}/ *)
Definition esc_u_braced :=
  (RChr (c "u") @@ RChr (c "{") @@ RPlus hex1 @@ RChr (c "}"))%re.
(* /\s/ *)
Definition space := RSet [CSpace].
(* /[\p{XID_Start}_$][\p{XID_Continue}\u00A2_$]*/ *)
Definition identifier :=
  (RSet [CProp XID_Start; CChar (c "_"); CChar (c "$")]
   @@ RStar (RSet [CProp XID_Continue; CChar 162%N; CChar (c "_"); CChar (c "$")]))%re.
(* /[^\n]*/ *)
Definition to_eol := RStar (RNSet [CChar NEWLINE]).
(* /[^*]*\*+([^/*][^*]*\*+)*/ *)
Definition comment_body :=
  (RStar (RNSet [CChar (c "*")]) @@ RPlus (RChr (c "*"))
   @@ RStar (RNSet [CChar (c "/"); CChar (c "*")]
             @@ RStar (RNSet [CChar (c "*")]) @@ RPlus (RChr (c "*"))))%re.
End Re.

(** ** Constants at the head of [grammar.js] *)

Definition DIGITS : rule :=
  Token (Choice [Str "0";
                 Seq [Pat Re.digit19;
                      optional (Seq [optional (Str "_");
                                     sep1 (Pat Re.digits) (Pat Re.underscores)])]]).
Definition DECIMAL_DIGITS : rule := Token (sep1 (Pat Re.digits) (Str "_")).
Definition HEX_DIGITS : rule := Token (sep1 (Pat Re.hexdigits) (Str "_")).

(** The precedence table [PREC]. *)
Module PREC.
Definition COMMENT : Z := 0.
Definition ASSIGN : Z := 1.
Definition DECL : Z := 2.
Definition ELEMENT_VAL : Z := 2.
Definition TERNARY : Z := 3.
Definition OR : Z := 4.
Definition AND : Z := 5.
Definition BIT_OR : Z := 6.
Definition BIT_XOR : Z := 7.
Definition BIT_AND : Z := 8.
Definition EQUALITY : Z := 9.
Definition GENERIC : Z := 10.
Definition REL : Z := 10.
Definition SHIFT : Z := 11.
Definition ADD : Z := 12.
Definition MULT : Z := 13.
Definition CAST : Z := 14.
Definition UNARY : Z := 15.
Definition CLASS_LITERAL : Z := 17.
End PREC.

(** ** The rules of [grammar.js], in source order *)

Notation "'$' n" := (Sym n) (at level 1, n at level 0, only parsing).

Definition rules_literals : list (string * rule) :=
  [ ("program", Repeat ($"_toplevel_statement"));

    ("_toplevel_statement", Choice [$"statement"; $"method_declaration"]);

    ("_literal",
      Choice [$"decimal_integer_literal";
              $"hex_integer_literal";
              $"octal_integer_literal";
              $"binary_integer_literal";
              $"decimal_floating_point_literal";
              $"hex_floating_point_literal";
              $"true";
              $"false";
              $"character_literal";
              $"string_literal";
              $"null_literal"]);

    ("decimal_integer_literal",
      Token (Seq [DIGITS; optional (Choice [Str "l"; Str "L"])]));

    ("hex_integer_literal",
      Token (Seq [Choice [Str "0x"; Str "0X"];
                  HEX_DIGITS;
                  optional (Choice [Str "l"; Str "L"])]));

    ("octal_integer_literal",
      Token (Seq [Choice [Str "0o"; Str "0O"; Str "0"];
                  sep1 (Pat Re.octdigits) (Str "_");
                  optional (Choice [Str "l"; Str "L"])]));

    ("binary_integer_literal",
      Token (Seq [Choice [Str "0b"; Str "0B"];
                  sep1 (Pat Re.bindigits) (Str "_");
                  optional (Choice [Str "l"; Str "L"])]));

    ("decimal_floating_point_literal",
      Token (Choice [
        Seq [DECIMAL_DIGITS; Str "."; optional DECIMAL_DIGITS;
             optional (Seq [Pat Re.eE; optional (Choice [Str "-"; Str "+"]); DECIMAL_DIGITS]);
             optional (Pat Re.fFdD)];
        Seq [Str "."; DECIMAL_DIGITS;
             optional (Seq [Pat Re.eE; optional (Choice [Str "-"; Str "+"]); DECIMAL_DIGITS]);
             optional (Pat Re.fFdD)];
        Seq [DIGITS; Pat Re.eE; optional (Choice [Str "-"; Str "+"]); DECIMAL_DIGITS;
             optional (Pat Re.fFdD)];
        Seq [DIGITS;
             optional (Seq [Pat Re.eE; optional (Choice [Str "-"; Str "+"]); DECIMAL_DIGITS]);
             Pat Re.fFdD]]));

    ("hex_floating_point_literal",
      Token (Seq [
        Choice [Str "0x"; Str "0X"];
        Choice [Seq [HEX_DIGITS; optional (Str ".")];
                Seq [optional HEX_DIGITS; Str "."; HEX_DIGITS]];
        optional (Seq [Pat Re.pP;
                       optional (Choice [Str "-"; Str "+"]);
                       DIGITS;
                       optional (Pat Re.fFdD)])]));

    ("true", Str "true");

    ("false", Str "false");

    ("character_literal",
      Token (Seq [Str "'";
                  Repeat1 (Choice [Pat Re.char_plain;
                                   Pat Re.char_escaped;
                                   Pat Re.char_continued]);
                  Str "'"]));

    ("string_literal", Choice [$"_string_literal"; $"_multiline_string_literal"]);

    ("_string_literal",
      Seq [Str dq;
           Repeat (Choice [$"string_fragment";
                           $"escape_sequence";
                           $"string_interpolation"]);
           Str dq]);

    ("_multiline_string_literal",
      Seq [Str dq3;
           Repeat (Choice [Alias ($"_multiline_string_fragment") "multiline_string_fragment";
                           $"_escape_sequence";
                           $"string_interpolation"]);
           Str dq3]);

    ("string_fragment", TokenImmediate (Prec 1 (Pat Re.fragment)));

    ("_multiline_string_fragment",
      Choice [Pat Re.fragment; Pat Re.quote_fragment]);

    ("string_interpolation",
      Seq [Str (bs ++ "{")%string; $"expression"; Str "}"]);

    ("_escape_sequence",
      Choice [Prec 2 (TokenImmediate (Seq [Str bs; Pat Re.not_simple_escape]));
              Prec 1 ($"escape_sequence")]);

    ("escape_sequence",
      TokenImmediate (Seq [Str bs;
                           Choice [Pat Re.esc_single;
                                   Pat Re.esc_octal;
                                   Pat Re.esc_x;
                                   Pat Re.esc_u;
                                   Pat Re.esc_u_braced]]));

    ("null_literal", Str "null") ].

(** The operator table mapped over by [binary_expression]. *)
Definition binary_operators : list (string * Z) :=
  [ (">", PREC.REL);
    ("<", PREC.REL);
    (">=", PREC.REL);
    ("<=", PREC.REL);
    ("==", PREC.EQUALITY);
    ("!=", PREC.EQUALITY);
    ("&&", PREC.AND);
    ("||", PREC.OR);
    ("+", PREC.ADD);
    ("-", PREC.ADD);
    ("*", PREC.MULT);
    ("/", PREC.MULT);
    ("&", PREC.BIT_AND);
    ("|", PREC.BIT_OR);
    ("^", PREC.BIT_XOR);
    ("%", PREC.MULT);
    ("<<", PREC.SHIFT);
    (">>", PREC.SHIFT);
    (">>>", PREC.SHIFT) ].

(** The operator table mapped over by [unary_expression]. *)
Definition unary_operators : list (string * Z) :=
  [ ("+", PREC.UNARY);
    ("-", PREC.UNARY);
    ("!", PREC.UNARY);
    ("~", PREC.UNARY) ].

Definition rules_expressions : list (string * rule) :=
  [ ("expression",
      Choice [$"assignment_expression";
              $"binary_expression";
              $"instanceof_expression";
              $"lambda_expression";
              $"ternary_expression";
              $"update_expression";
              $"primary_expression";
              $"unary_expression";
              $"cast_expression";
              $"switch_expression"]);

    ("cast_expression",
      Prec PREC.CAST (Choice [
        Seq [Str "("; Field "type" ($"_type"); Str ")"; Field "value" ($"expression")];
        Seq [Str "("; sep1 (Field "type" ($"_type")) (Str "&"); Str ")";
             Field "value" (Choice [$"primary_expression"; $"lambda_expression"])]]));

    ("assignment_expression",
      PrecRight PREC.ASSIGN (Seq [
        Field "left" (Choice [$"identifier";
                              $"_reserved_identifier";
                              $"field_access";
                              $"array_access"]);
        Field "operator" (Choice [Str "="; Str "+="; Str "-="; Str "*="; Str "/=";
                                  Str "&="; Str "|="; Str "^="; Str "%=";
                                  Str "<<="; Str ">>="; Str ">>>="]);
        Field "right" ($"expression")]));

    ("binary_expression",
      Choice (map (fun '(operator, precedence) =>
                     PrecLeft precedence (Seq [
                       Field "left" ($"expression");
                       Field "operator" (Str operator);
                       Field "right" ($"expression")]))
                  binary_operators));

    ("instanceof_expression",
      Prec PREC.REL (Seq [
        Field "left" ($"expression");
        Str "instanceof";
        optional (Str "final");
        Choice [Seq [Field "right" ($"_type");
                     optional (Field "name" (Choice [$"identifier"; $"_reserved_identifier"]))];
                Field "pattern" ($"record_pattern")]]));

    ("lambda_expression",
      Seq [Field "parameters" (Choice [$"identifier"; $"formal_parameters";
                                       $"inferred_parameters"; $"_reserved_identifier"]);
           Str "->";
           Field "body" (Choice [$"expression"; $"block"])]);

    ("inferred_parameters",
      Seq [Str "(";
           commaSep1 (Choice [$"identifier"; $"_reserved_identifier"]);
           Str ")"]);

    ("ternary_expression",
      PrecRight PREC.TERNARY (Seq [
        Field "condition" ($"expression");
        Str "?";
        Field "consequence" ($"expression");
        Str ":";
        Field "alternative" ($"expression")]));

    ("unary_expression",
      Choice (map (fun '(operator, precedence) =>
                     PrecLeft precedence (Seq [
                       Field "operator" (Str operator);
                       Field "operand" ($"expression")]))
                  unary_operators));

    ("update_expression",
      PrecLeft PREC.UNARY (Choice [
        Seq [$"expression"; Str "++"];
        Seq [$"expression"; Str "--"];
        Seq [Str "++"; $"expression"];
        Seq [Str "--"; $"expression"]]));

    ("primary_expression",
      Choice [$"_literal";
              $"class_literal";
              $"this";
              $"identifier";
              $"_reserved_identifier";
              $"parenthesized_expression";
              $"object_creation_expression";
              $"field_access";
              $"array_access";
              $"method_invocation";
              $"method_reference";
              $"array_creation_expression";
              $"template_expression"]);

    ("array_creation_expression",
      PrecRight 0 (Seq [
        Str "new";
        Repeat ($"_annotation");
        Field "type" ($"_simple_type");
        Choice [Seq [Field "dimensions" (Repeat1 ($"dimensions_expr"));
                     Field "dimensions" (optional ($"dimensions"))];
                Seq [Field "dimensions" ($"dimensions");
                     Field "value" ($"array_initializer")]]]));

    ("dimensions_expr",
      Seq [Repeat ($"_annotation"); Str "["; $"expression"; Str "]"]);

    ("parenthesized_expression", Seq [Str "("; $"expression"; Str ")"]);

    ("class_literal",
      PrecDynamic PREC.CLASS_LITERAL (Seq [$"_unannotated_type"; Str "."; Str "class"]));

    ("object_creation_expression",
      Choice [$"_unqualified_object_creation_expression";
              Seq [$"primary_expression"; Str ".";
                   $"_unqualified_object_creation_expression"]]);

    ("_unqualified_object_creation_expression",
      PrecRight 0 (Seq [
        Str "new";
        Choice [Seq [Repeat ($"_annotation");
                     Field "type_arguments" ($"type_arguments");
                     Repeat ($"_annotation")];
                Repeat ($"_annotation")];
        Field "type" ($"_simple_type");
        Field "arguments" ($"argument_list");
        optional ($"class_body")]));

    ("field_access",
      Seq [Field "object" (Choice [$"primary_expression"; $"super"]);
           optional (Seq [Str "."; $"super"]);
           Str ".";
           Field "field" (Choice [$"identifier"; $"_reserved_identifier"; $"this"])]);

    ("template_expression",
      Seq [Field "template_processor" ($"primary_expression");
           Str ".";
           Field "template_argument" ($"string_literal")]);

    ("array_access",
      Seq [Field "array" ($"primary_expression");
           Str "[";
           Field "index" ($"expression");
           Str "]"]);

    ("method_invocation",
      Seq [Choice [Field "name" (Choice [$"identifier"; $"_reserved_identifier"]);
                   Seq [Field "object" (Choice [$"primary_expression"; $"super"]);
                        Str ".";
                        optional (Seq [$"super"; Str "."]);
                        Field "type_arguments" (optional ($"type_arguments"));
                        Field "name" (Choice [$"identifier"; $"_reserved_identifier"])]];
           Field "arguments" ($"argument_list")]);

    ("argument_list", Seq [Str "("; commaSep ($"expression"); Str ")"]);

    ("method_reference",
      Seq [Choice [$"_type"; $"primary_expression"; $"super"];
           Str "::";
           optional ($"type_arguments");
           Choice [Str "new"; $"identifier"]]);

    ("type_arguments",
      Seq [Str "<"; commaSep (Choice [$"_type"; $"wildcard"]); Str ">"]);

    ("wildcard",
      Seq [Repeat ($"_annotation"); Str "?"; optional ($"_wildcard_bounds")]);

    ("_wildcard_bounds",
      Choice [Seq [Str "extends"; $"_type"];
              Seq [$"super"; $"_type"]]);

    ("dimensions",
      PrecRight 0 (Repeat1 (Seq [Repeat ($"_annotation"); Str "["; Str "]"])));

    ("switch_expression",
      Seq [Str "switch";
           Field "condition" ($"parenthesized_expression");
           Field "body" ($"switch_block")]);

    ("switch_block",
      Seq [Str "{";
           Choice [Repeat ($"switch_block_statement_group");
                   Repeat ($"switch_rule")];
           Str "}"]);

    ("switch_block_statement_group",
      PrecLeft 0 (Seq [Repeat1 (Seq [$"switch_label"; Str ":"]);
                       Repeat ($"statement")]));

    ("switch_rule",
      Seq [$"switch_label";
           Str "->";
           Choice [$"expression_statement"; $"throw_statement"; $"block"]]);

    ("switch_label",
      Choice [Seq [Str "case";
                   Choice [$"pattern"; commaSep1 ($"expression")];
                   optional ($"guard")];
              Str "default"]);

    ("pattern", Choice [$"type_pattern"; $"record_pattern"]);

    ("type_pattern",
      Seq [$"_unannotated_type"; Choice [$"identifier"; $"_reserved_identifier"]]);

    ("record_pattern",
      Seq [Choice [$"identifier"; $"_reserved_identifier"; $"generic_type"];
           $"record_pattern_body"]);

    ("record_pattern_body",
      Seq [Str "(";
           commaSep (Choice [$"record_pattern_component"; $"record_pattern"]);
           Str ")"]);

    ("record_pattern_component",
      Choice [$"underscore_pattern";
              Seq [$"_unannotated_type";
                   Choice [$"identifier"; $"_reserved_identifier"]]]);

    ("underscore_pattern", Str "_");

    ("guard", Seq [Str "when"; $"expression"]) ].

Definition rules_statements : list (string * rule) :=
  [ ("statement",
      Choice [$"declaration";
              $"expression_statement";
              $"labeled_statement";
              $"if_statement";
              $"while_statement";
              $"for_statement";
              $"enhanced_for_statement";
              $"block";
              Str ";";
              $"assert_statement";
              $"do_statement";
              $"break_statement";
              $"continue_statement";
              $"return_statement";
              $"yield_statement";
              $"switch_expression";
              $"synchronized_statement";
              $"local_variable_declaration";
              $"throw_statement";
              $"try_statement";
              $"try_with_resources_statement"]);

    ("block", Seq [Str "{"; Repeat ($"statement"); Str "}"]);

    ("expression_statement", Seq [$"expression"; Str ";"]);

    ("labeled_statement", Seq [$"identifier"; Str ":"; $"statement"]);

    ("assert_statement",
      Choice [Seq [Str "assert"; $"expression"; Str ";"];
              Seq [Str "assert"; $"expression"; Str ":"; $"expression"; Str ";"]]);

    ("do_statement",
      Seq [Str "do";
           Field "body" ($"statement");
           Str "while";
           Field "condition" ($"parenthesized_expression");
           Str ";"]);

    ("break_statement", Seq [Str "break"; optional ($"identifier"); Str ";"]);

    ("continue_statement", Seq [Str "continue"; optional ($"identifier"); Str ";"]);

    ("return_statement", Seq [Str "return"; optional ($"expression"); Str ";"]);

    ("yield_statement", Seq [Str "yield"; $"expression"; Str ";"]);

    ("synchronized_statement",
      Seq [Str "synchronized"; $"parenthesized_expression"; Field "body" ($"block")]);

    ("throw_statement", Seq [Str "throw"; $"expression"; Str ";"]);

    ("try_statement",
      Seq [Str "try";
           Field "body" ($"block");
           Choice [Repeat1 ($"catch_clause");
                   Seq [Repeat ($"catch_clause"); $"finally_clause"]]]);

    ("catch_clause",
      Seq [Str "catch"; Str "("; $"catch_formal_parameter"; Str ")";
           Field "body" ($"block")]);

    ("catch_formal_parameter",
      Seq [optional ($"modifiers"); $"catch_type"; $"_variable_declarator_id"]);

    ("catch_type", sep1 ($"_unannotated_type") (Str "|"));

    ("finally_clause", Seq [Str "finally"; $"block"]);

    ("try_with_resources_statement",
      Seq [Str "try";
           Field "resources" ($"resource_specification");
           Field "body" ($"block");
           Repeat ($"catch_clause");
           optional ($"finally_clause")]);

    ("resource_specification",
      Seq [Str "("; sep1 ($"resource") (Str ";"); optional (Str ";"); Str ")"]);

    ("resource",
      Choice [Seq [optional ($"modifiers");
                   Field "type" ($"_unannotated_type");
                   $"_variable_declarator_id";
                   Str "=";
                   Field "value" ($"expression")];
              $"identifier";
              $"field_access"]);

    ("if_statement",
      PrecRight 0 (Seq [
        Str "if";
        Field "condition" ($"parenthesized_expression");
        Field "consequence" ($"statement");
        optional (Seq [Str "else"; Field "alternative" ($"statement")])]));

    ("while_statement",
      Seq [Str "while";
           Field "condition" ($"parenthesized_expression");
           Field "body" ($"statement")]);

    ("for_statement",
      Seq [Str "for"; Str "(";
           Choice [Field "init" ($"local_variable_declaration");
                   Seq [commaSep (Field "init" ($"expression")); Str ";"]];
           Field "condition" (optional ($"expression")); Str ";";
           commaSep (Field "update" ($"expression")); Str ")";
           Field "body" ($"statement")]);

    ("enhanced_for_statement",
      Seq [Str "for";
           Str "(";
           optional ($"modifiers");
           Field "type" ($"_unannotated_type");
           $"_variable_declarator_id";
           Str ":";
           Field "value" ($"expression");
           Str ")";
           Field "body" ($"statement")]) ].

Definition rules_annotations : list (string * rule) :=
  [ ("_annotation", Choice [$"marker_annotation"; $"annotation"]);

    ("marker_annotation", Seq [Str "@"; Field "name" ($"_name")]);

    ("annotation",
      Seq [Str "@";
           Field "name" ($"_name");
           Field "arguments" ($"annotation_argument_list")]);

    ("annotation_argument_list",
      Seq [Str "(";
           Choice [$"_element_value"; commaSep ($"element_value_pair")];
           Str ")"]);

    ("element_value_pair",
      Seq [Field "key" (Choice [$"identifier"; $"_reserved_identifier"]);
           Str "=";
           Field "value" ($"_element_value")]);

    ("_element_value",
      Prec PREC.ELEMENT_VAL (Choice [$"expression";
                                     $"element_value_array_initializer";
                                     $"_annotation"]));

    ("element_value_array_initializer",
      Seq [Str "{"; commaSep ($"_element_value"); optional (Str ","); Str "}"]) ].

Definition rules_declarations : list (string * rule) :=
  [ ("declaration",
      Prec PREC.DECL (Choice [$"module_declaration";
                              $"package_declaration";
                              $"import_declaration";
                              $"class_declaration";
                              $"record_declaration";
                              $"interface_declaration";
                              $"annotation_type_declaration";
                              $"enum_declaration"]));

    ("module_declaration",
      Seq [Repeat ($"_annotation");
           optional (Str "open");
           Str "module";
           Field "name" ($"_name");
           Field "body" ($"module_body")]);

    ("module_body", Seq [Str "{"; Repeat ($"module_directive"); Str "}"]);

    ("module_directive",
      Choice [$"requires_module_directive";
              $"exports_module_directive";
              $"opens_module_directive";
              $"uses_module_directive";
              $"provides_module_directive"]);

    ("requires_module_directive",
      Seq [Str "requires";
           Repeat (Field "modifiers" ($"requires_modifier"));
           Field "module" ($"_name");
           Str ";"]);

    ("requires_modifier", Choice [Str "transitive"; Str "static"]);

    ("exports_module_directive",
      Seq [Str "exports";
           Field "package" ($"_name");
           optional (Seq [Str "to";
                          Field "modules" ($"_name");
                          Repeat (Seq [Str ","; Field "modules" ($"_name")])]);
           Str ";"]);

    ("opens_module_directive",
      Seq [Str "opens";
           Field "package" ($"_name");
           optional (Seq [Str "to";
                          Field "modules" ($"_name");
                          Repeat (Seq [Str ","; Field "modules" ($"_name")])]);
           Str ";"]);

    ("uses_module_directive", Seq [Str "uses"; Field "type" ($"_name"); Str ";"]);

    ("provides_module_directive",
      Seq [Str "provides";
           Field "provided" ($"_name");
           Str "with";
           $"_name";
           Repeat (Seq [Str ","; Field "provider" ($"_name")]);
           Str ";"]);

    ("package_declaration",
      Seq [Repeat ($"_annotation"); Str "package"; $"_name"; Str ";"]);

    ("import_declaration",
      Seq [Str "import";
           optional (Str "static");
           $"_name";
           optional (Seq [Str "."; $"asterisk"]);
           Str ";"]);

    ("asterisk", Str "*");

    ("enum_declaration",
      Seq [optional ($"modifiers");
           Str "enum";
           Field "name" ($"identifier");
           Field "interfaces" (optional ($"super_interfaces"));
           Field "body" ($"enum_body")]);

    ("enum_body",
      Seq [Str "{";
           commaSep ($"enum_constant");
           optional (Str ",");
           optional ($"enum_body_declarations");
           Str "}"]);

    ("enum_body_declarations", Seq [Str ";"; Repeat ($"_class_body_declaration")]);

    ("enum_constant",
      Seq [optional ($"modifiers");
           Field "name" ($"identifier");
           Field "arguments" (optional ($"argument_list"));
           Field "body" (optional ($"class_body"))]);

    ("class_declaration",
      Seq [optional ($"modifiers");
           Str "class";
           Field "name" ($"identifier");
           optional (Field "type_parameters" ($"type_parameters"));
           optional (Field "superclass" ($"superclass"));
           optional (Field "interfaces" ($"super_interfaces"));
           optional (Field "permits" ($"permits"));
           Field "body" ($"class_body")]);

    ("modifiers",
      Repeat1 (Choice [$"_annotation";
                       Str "public";
                       Str "protected";
                       Str "private";
                       Str "abstract";
                       Str "static";
                       Str "final";
                       Str "strictfp";
                       Str "default";
                       Str "synchronized";
                       Str "native";
                       Str "transient";
                       Str "volatile";
                       Str "sealed";
                       Str "non-sealed"]));

    ("type_parameters", Seq [Str "<"; commaSep1 ($"type_parameter"); Str ">"]);

    ("type_parameter",
      Seq [Repeat ($"_annotation");
           Alias ($"identifier") "type_identifier";
           optional ($"type_bound")]);

    ("type_bound", Seq [Str "extends"; $"_type"; Repeat (Seq [Str "&"; $"_type"])]);

    ("superclass", Seq [Str "extends"; $"_type"]);

    ("super_interfaces", Seq [Str "implements"; $"type_list"]);

    ("type_list", Seq [$"_type"; Repeat (Seq [Str ","; $"_type"])]);

    ("permits", Seq [Str "permits"; $"type_list"]);

    ("class_body", Seq [Str "{"; Repeat ($"_class_body_declaration"); Str "}"]);

    ("_class_body_declaration",
      Choice [$"field_declaration";
              $"record_declaration";
              $"method_declaration";
              $"compact_constructor_declaration";
              $"class_declaration";
              $"interface_declaration";
              $"annotation_type_declaration";
              $"enum_declaration";
              $"block";
              $"static_initializer";
              $"constructor_declaration";
              Str ";"]);

    ("static_initializer", Seq [Str "static"; $"block"]);

    ("constructor_declaration",
      Seq [optional ($"modifiers");
           $"_constructor_declarator";
           optional ($"throws");
           Field "body" ($"constructor_body")]);

    ("_constructor_declarator",
      Seq [Field "type_parameters" (optional ($"type_parameters"));
           Field "name" ($"identifier");
           Field "parameters" ($"formal_parameters")]);

    ("constructor_body",
      Seq [Str "{";
           optional ($"explicit_constructor_invocation");
           Repeat ($"statement");
           Str "}"]);

    ("explicit_constructor_invocation",
      Seq [Choice [Seq [Field "type_arguments" (optional ($"type_arguments"));
                        Field "constructor" (Choice [$"this"; $"super"])];
                   Seq [Field "object" (Choice [$"primary_expression"]);
                        Str ".";
                        Field "type_arguments" (optional ($"type_arguments"));
                        Field "constructor" ($"super")]];
           Field "arguments" ($"argument_list");
           Str ";"]);

    ("_name", Choice [$"identifier"; $"_reserved_identifier"; $"scoped_identifier"]);

    ("scoped_identifier",
      Seq [Field "scope" ($"_name"); Str "."; Field "name" ($"identifier")]);

    ("field_declaration",
      Seq [optional ($"modifiers");
           Field "type" ($"_unannotated_type");
           $"_variable_declarator_list";
           Str ";"]);

    ("record_declaration",
      Seq [optional ($"modifiers");
           Str "record";
           Field "name" ($"identifier");
           optional (Field "type_parameters" ($"type_parameters"));
           Field "parameters" ($"formal_parameters");
           optional (Field "interfaces" ($"super_interfaces"));
           Field "body" ($"class_body")]);

    ("annotation_type_declaration",
      Seq [optional ($"modifiers");
           Str "@interface";
           Field "name" ($"identifier");
           Field "body" ($"annotation_type_body")]);

    ("annotation_type_body",
      Seq [Str "{";
           Repeat (Choice [$"annotation_type_element_declaration";
                           $"constant_declaration";
                           $"class_declaration";
                           $"interface_declaration";
                           $"enum_declaration";
                           $"annotation_type_declaration";
                           Str ";"]);
           Str "}"]);

    ("annotation_type_element_declaration",
      Seq [optional ($"modifiers");
           Field "type" ($"_unannotated_type");
           Field "name" (Choice [$"identifier"; $"_reserved_identifier"]);
           Str "("; Str ")";
           Field "dimensions" (optional ($"dimensions"));
           optional ($"_default_value");
           Str ";"]);

    ("_default_value", Seq [Str "default"; Field "value" ($"_element_value")]);

    ("interface_declaration",
      Seq [optional ($"modifiers");
           Str "interface";
           Field "name" ($"identifier");
           Field "type_parameters" (optional ($"type_parameters"));
           optional ($"extends_interfaces");
           optional (Field "permits" ($"permits"));
           Field "body" ($"interface_body")]);

    ("extends_interfaces", Seq [Str "extends"; $"type_list"]);

    ("interface_body",
      Seq [Str "{";
           Repeat (Choice [$"constant_declaration";
                           $"enum_declaration";
                           $"method_declaration";
                           $"class_declaration";
                           $"interface_declaration";
                           $"record_declaration";
                           $"annotation_type_declaration";
                           Str ";"]);
           Str "}"]);

    ("constant_declaration",
      Seq [optional ($"modifiers");
           Field "type" ($"_unannotated_type");
           $"_variable_declarator_list";
           Str ";"]);

    ("_variable_declarator_list",
      commaSep1 (Field "declarator" ($"variable_declarator")));

    ("variable_declarator",
      Seq [$"_variable_declarator_id";
           optional (Seq [Str "="; Field "value" ($"_variable_initializer")])]);

    ("_variable_declarator_id",
      Seq [Field "name" (Choice [$"identifier"; $"_reserved_identifier";
                                 $"underscore_pattern"]);
           Field "dimensions" (optional ($"dimensions"))]);

    ("_variable_initializer", Choice [$"expression"; $"array_initializer"]);

    ("array_initializer",
      Seq [Str "{"; commaSep ($"_variable_initializer"); optional (Str ","); Str "}"]) ].

Definition rules_types : list (string * rule) :=
  [ ("_type", Choice [$"_unannotated_type"; $"annotated_type"]);

    ("_unannotated_type", Choice [$"_simple_type"; $"array_type"]);

    ("_simple_type",
      Choice [$"void_type";
              $"integral_type";
              $"floating_point_type";
              $"boolean_type";
              Alias ($"identifier") "type_identifier";
              $"scoped_type_identifier";
              $"generic_type"]);

    ("annotated_type", Seq [Repeat1 ($"_annotation"); $"_unannotated_type"]);

    ("scoped_type_identifier",
      Seq [Choice [Alias ($"identifier") "type_identifier";
                   $"scoped_type_identifier";
                   $"generic_type"];
           Str ".";
           Repeat ($"_annotation");
           Alias ($"identifier") "type_identifier"]);

    ("generic_type",
      PrecDynamic PREC.GENERIC (Seq [
        Choice [Alias ($"identifier") "type_identifier";
                $"scoped_type_identifier"];
        $"type_arguments"]));

    ("array_type",
      Seq [Field "element" ($"_unannotated_type");
           Field "dimensions" ($"dimensions")]);

    ("integral_type",
      Choice [Str "byte"; Str "short"; Str "int"; Str "long"; Str "char"]);

    ("floating_point_type", Choice [Str "float"; Str "double"]);

    ("boolean_type", Str "boolean");

    ("void_type", Str "void");

    ("_method_header",
      Seq [optional (Seq [Field "type_parameters" ($"type_parameters");
                          Repeat ($"_annotation")]);
           Field "type" ($"_unannotated_type");
           $"_method_declarator";
           optional ($"throws")]);

    ("_method_declarator",
      Seq [Field "name" (Choice [$"identifier"; $"_reserved_identifier"]);
           Field "parameters" ($"formal_parameters");
           Field "dimensions" (optional ($"dimensions"))]);

    ("formal_parameters",
      Seq [Str "(";
           Choice [$"receiver_parameter";
                   Seq [optional (Seq [$"receiver_parameter"; Str ","]);
                        commaSep (Choice [$"formal_parameter"; $"spread_parameter"])]];
           Str ")"]);

    ("formal_parameter",
      Seq [optional ($"modifiers");
           Field "type" ($"_unannotated_type");
           $"_variable_declarator_id"]);

    ("receiver_parameter",
      Seq [Repeat ($"_annotation");
           $"_unannotated_type";
           Repeat (Seq [$"identifier"; Str "."]);
           $"this"]);

    ("spread_parameter",
      Seq [optional ($"modifiers");
           $"_unannotated_type";
           Str "...";
           Repeat ($"_annotation");
           $"variable_declarator"]);

    ("throws", Seq [Str "throws"; commaSep1 ($"_type")]);

    ("local_variable_declaration",
      Seq [optional ($"modifiers");
           Field "type" ($"_unannotated_type");
           $"_variable_declarator_list";
           Str ";"]);

    ("method_declaration",
      Seq [optional ($"modifiers");
           $"_method_header";
           Choice [Field "body" ($"block"); Str ";"]]);

    ("compact_constructor_declaration",
      Seq [optional ($"modifiers");
           Field "name" ($"identifier");
           Field "body" ($"block")]);

    ("_reserved_identifier",
      Choice [Prec (-3) (Alias (Choice [Str "open";
                                        Str "module";
                                        Str "record";
                                        Str "with";
                                        Str "sealed"])
                               "identifier");
              Alias (Str "yield") "identifier"]);

    ("this", Str "this");

    ("super", Str "super");

    ("identifier", Pat Re.identifier);

    ("line_comment", Token (Prec PREC.COMMENT (Seq [Str "//"; Pat Re.to_eol])));

    ("block_comment",
      Token (Prec PREC.COMMENT (Seq [Str "/*"; Pat Re.comment_body; Str "/"]))) ].

Definition java_rules : list (string * rule) :=
  rules_literals ++ rules_expressions ++ rules_statements ++ rules_annotations
  ++ rules_declarations ++ rules_types.

(** The object passed to [grammar(css, ...)]. The base grammar [css] is
    imported from outside the repository; only the properties written in
    [grammar.js] are part of this record. *)
Definition java : grammar :=
  {| g_name := "java";
     g_extras := [$"line_comment"; $"block_comment"; Pat Re.space];
     g_supertypes :=
       [$"expression";
        $"declaration";
        $"statement";
        $"primary_expression";
        $"_literal";
        $"_type";
        $"_simple_type";
        $"_unannotated_type";
        $"module_directive"];
     g_inline :=
       [$"_name"; $"_simple_type"; $"_class_body_declaration"; $"_variable_initializer"];
     g_conflicts :=
       [ [$"modifiers"; $"annotated_type"; $"receiver_parameter"];
         [$"modifiers"; $"annotated_type"; $"module_declaration"; $"package_declaration"];
         [$"_unannotated_type"; $"primary_expression"; $"inferred_parameters"];
         [$"_unannotated_type"; $"primary_expression"];
         [$"_unannotated_type"; $"primary_expression"; $"scoped_type_identifier"];
         [$"_unannotated_type"; $"scoped_type_identifier"];
         [$"_unannotated_type"; $"generic_type"];
         [$"generic_type"; $"primary_expression"];
         [$"expression"; $"statement"];
         [$"lambda_expression"; $"primary_expression"];
         [$"inferred_parameters"; $"primary_expression"];
         [$"argument_list"; $"record_pattern_body"];
         [$"yield_statement"; $"_reserved_identifier"] ];
     g_word := $"identifier";
     g_rules := java_rules |}.

(** ** Productions: what a rule expands to *)

Open Scope list_scope.
Open Scope nat_scope.

Inductive assoc := LeftAssoc | RightAssoc.

(** What the wrappers around a position say about it: the field and alias it
    carries, and the precedence, associativity and dynamic precedence it is
    marked with. The innermost wrapper of each kind is the one that counts. *)
Record ctx := {
  c_field : option string;
  c_alias : option string;
  c_prec : Z;
  c_assoc : option assoc;
  c_dynamic : Z
}.

Definition ctx0 : ctx :=
  {| c_field := None; c_alias := None; c_prec := 0; c_assoc := None; c_dynamic := 0 |}.

Definition with_prec (n : Z) (a : option assoc) (k : ctx) : ctx :=
  {| c_field := c_field k; c_alias := c_alias k; c_prec := n;
     c_assoc := match a with Some _ => a | None => c_assoc k end;
     c_dynamic := c_dynamic k |}.

Definition with_dynamic (n : Z) (k : ctx) : ctx :=
  {| c_field := c_field k; c_alias := c_alias k; c_prec := c_prec k;
     c_assoc := c_assoc k; c_dynamic := n |}.

Definition with_field (f : string) (k : ctx) : ctx :=
  {| c_field := Some f; c_alias := c_alias k; c_prec := c_prec k;
     c_assoc := c_assoc k; c_dynamic := c_dynamic k |}.

Definition with_alias (a : string) (k : ctx) : ctx :=
  {| c_field := c_field k; c_alias := Some a; c_prec := c_prec k;
     c_assoc := c_assoc k; c_dynamic := c_dynamic k |}.

(** What stands at one position of a production: a reference to a rule, or
    a terminal (a literal, a pattern, or a [token(...)], immediate or not). *)
Inductive atom :=
| ASym (n : string)
| AStr (s : string)
| APat (r : regex)
| ATok (immediate : bool) (r : rule).

Definition step : Type := atom * ctx.

(** Modelled from the spec: the combinators are the DSL's, which the
    repository calls and does not define. A rule is "a named nonterminal with
    an ordered alternative set; alternatives are sequences of terminals,
    nonterminal references, or sub-combinators (optional, repeat, choice)";
    field names are "attached by the producing alternative".
    [expands k r xs]: the rule body [r], read under the wrappers [k], has the
    production [xs]. Repeats are unrolled, choices taken. *)
Inductive expands : ctx -> rule -> list step -> Prop :=
| X_blank k : expands k Blank []
| X_sym k n : expands k (Sym n) [(ASym n, k)]
| X_str k s : expands k (Str s) [(AStr s, k)]
| X_pat k r : expands k (Pat r) [(APat r, k)]
| X_token k r : expands k (Token r) [(ATok false r, k)]
| X_token_immediate k r : expands k (TokenImmediate r) [(ATok true r, k)]
| X_seq_nil k : expands k (Seq []) []
| X_seq_cons k r rs xs ys :
    expands k r xs -> expands k (Seq rs) ys -> expands k (Seq (r :: rs)) (xs ++ ys)
| X_choice k r rs xs : In r rs -> expands k r xs -> expands k (Choice rs) xs
| X_repeat_nil k r : expands k (Repeat r) []
| X_repeat_cons k r xs ys :
    expands k r xs -> expands k (Repeat r) ys -> expands k (Repeat r) (xs ++ ys)
| X_repeat1 k r xs ys :
    expands k r xs -> expands k (Repeat r) ys -> expands k (Repeat1 r) (xs ++ ys)
| X_prec k n r xs : expands (with_prec n None k) r xs -> expands k (Prec n r) xs
| X_prec_left k n r xs :
    expands (with_prec n (Some LeftAssoc) k) r xs -> expands k (PrecLeft n r) xs
| X_prec_right k n r xs :
    expands (with_prec n (Some RightAssoc) k) r xs -> expands k (PrecRight n r) xs
| X_prec_dynamic k n r xs :
    expands (with_dynamic n k) r xs -> expands k (PrecDynamic n r) xs
| X_field k f r xs : expands (with_field f k) r xs -> expands k (Field f r) xs
| X_alias k r a xs : expands (with_alias a k) r xs -> expands k (Alias r a) xs.

(** ** Tokens *)

(** The regular language of the body of a [token(...)]. *)
Fixpoint token_regex (r : rule) : regex :=
  match r with
  | Blank => REps
  | Sym _ => RVoid
  | Str s => fold_right (fun x acc => RCat (RChr x) acc) REps (cps s)
  | Pat re => re
  | Seq rs => fold_right (fun r' acc => RCat (token_regex r') acc) REps rs
  | Choice rs => fold_right (fun r' acc => RAlt (token_regex r') acc) RVoid rs
  | Repeat r' => RStar (token_regex r')
  | Repeat1 r' => RPlus (token_regex r')
  | Prec _ r' | PrecLeft _ r' | PrecRight _ r' | PrecDynamic _ r' => token_regex r'
  | Field _ r' => token_regex r'
  | Alias r' _ => token_regex r'
  | Token r' | TokenImmediate r' => token_regex r'
  end.

Fixpoint lexeme_eqb (u v : lexeme) : bool :=
  match u, v with
  | [], [] => true
  | x :: u', y :: v' => (x =? y)%N && lexeme_eqb u' v'
  | _, _ => false
  end.

(** ** Derivation trees *)

(** A leaf is one token of the input, by its text; a node is one use of a
    rule, with the production taken and one subtree per position of it. *)
#[warnings="-register-all"] Inductive tree :=
| Leaf (w : lexeme)
| Node (kind : string) (prod : list step) (kids : list tree).

Definition root (t : tree) : option string :=
  match t with
  | Leaf _ => None
  | Node n _ _ => Some n
  end.

(** The tokens a tree spans, left to right. *)
Fixpoint yield (t : tree) : list lexeme :=
  match t with
  | Leaf w => [w]
  | Node _ _ kids => flat_map yield kids
  end.

(** A subtree stands at a position when it is a use of the rule referred to,
    or a token whose text the terminal matches. *)
Definition fits (x : step) (t : tree) : bool :=
  match fst x, t with
  | ASym n, Node m _ _ => String.eqb n m
  | AStr s, Leaf w => lexeme_eqb w (cps s)
  | APat r, Leaf w => re_match unicode r w
  | ATok _ r, Leaf w => re_match unicode (token_regex r) w
  | _, _ => false
  end.

Fixpoint fits_all (xs : list step) (ts : list tree) : bool :=
  match xs, ts with
  | [], [] => true
  | x :: xs', t :: ts' => fits x t && fits_all xs' ts'
  | _, _ => false
  end.

(** [derives rules t]: every node of [t] uses a production of its rule. *)
#[warnings="-register-all"] Inductive derives (rules : list (string * rule)) : tree -> Prop :=
| D_leaf w : derives rules (Leaf w)
| D_node n body xs kids :
    lookup rules n = Some body ->
    expands ctx0 body xs ->
    fits_all xs kids = true ->
    Forall (derives rules) kids ->
    derives rules (Node n xs kids).

(** ** Enumerating the derivation trees of a token list *)

(** A lower bound on the length of a production of [r]. *)
Fixpoint min_len (r : rule) : nat :=
  match r with
  | Blank => 0
  | Sym _ | Str _ | Pat _ | Token _ | TokenImmediate _ => 1
  | Seq rs => fold_right (fun r' acc => min_len r' + acc) 0 rs
  | Choice rs =>
      match rs with
      | [] => 0
      | r1 :: rs' => fold_right (fun r' acc => Nat.min (min_len r') acc) (min_len r1) rs'
      end
  | Repeat _ => 0
  | Repeat1 r' => min_len r'
  | Prec _ r' | PrecLeft _ r' | PrecRight _ r' | PrecDynamic _ r' => min_len r'
  | Field _ r' => min_len r'
  | Alias r' _ => min_len r'
  end.

(** Three tests that tell, without search, that [r] has no production over
    [toks]: a literal that must come first does not, a literal that must
    occur does not, or there are too few tokens. *)
Fixpoint starts_ok (r : rule) (toks : list lexeme) : bool :=
  match r with
  | Str s => match toks with w :: _ => lexeme_eqb w (cps s) | [] => false end
  | Seq rs =>
      match rs with
      | r1 :: _ => if 0 <? min_len r1 then starts_ok r1 toks else true
      | [] => true
      end
  | Choice rs => existsb (fun r' => starts_ok r' toks) rs
  | Prec _ r' | PrecLeft _ r' | PrecRight _ r' | PrecDynamic _ r' => starts_ok r' toks
  | Field _ r' => starts_ok r' toks
  | Alias r' _ => starts_ok r' toks
  | _ => true
  end.

Fixpoint mandatory_ok (r : rule) (toks : list lexeme) : bool :=
  match r with
  | Str s => existsb (fun w => lexeme_eqb w (cps s)) toks
  | Seq rs => forallb (fun r' => mandatory_ok r' toks) rs
  | Choice rs => existsb (fun r' => mandatory_ok r' toks) rs
  | Repeat1 r' => mandatory_ok r' toks
  | Prec _ r' | PrecLeft _ r' | PrecRight _ r' | PrecDynamic _ r' => mandatory_ok r' toks
  | Field _ r' => mandatory_ok r' toks
  | Alias r' _ => mandatory_ok r' toks
  | _ => true
  end.

Definition quick (r : rule) (toks : list lexeme) : bool :=
  (min_len r <=? length toks) && starts_ok r toks && mandatory_ok r toks.

(** Every way to cut a list in two. *)
Fixpoint splits {A : Type} (l : list A) : list (list A * list A) :=
  ([], l) :: match l with
             | [] => []
             | x :: l' => map (fun '(p, s) => (x :: p, s)) (splits l')
             end.

(** A production together with one subtree per position. *)
Definition filled : Type := list step * list tree.

Definition prod_app (a b : list filled) : list filled :=
  flat_map (fun '(xs, ks) => map (fun '(ys, ls) => (xs ++ ys, ks ++ ls)) b) a.

(** Zero or more rounds of [f], each over at least one token. *)
Fixpoint rep (f : list lexeme -> list filled) (n : nat) (toks : list lexeme) : list filled :=
  match toks with
  | [] => [([], [])]
  | _ :: _ =>
      match n with
      | 0 => []
      | S n' =>
          flat_map (fun '(p, s) =>
                      match p with
                      | [] => []
                      | _ => prod_app (f p) (rep f n' s)
                      end) (splits toks)
      end
  end.

Section SeqEnum.
Variable f : rule -> list lexeme -> list filled.

Fixpoint seq_enum (rs : list rule) (toks : list lexeme) : list filled :=
  match rs with
  | [] => match toks with [] => [([], [])] | _ => [] end
  | r1 :: rs' =>
      flat_map (fun '(p, s) =>
                  if quick r1 p && quick (Seq rs') s
                  then match seq_enum rs' s with
                       | [] => []
                       | b => prod_app (f r1 p) b
                       end
                  else []) (splits toks)
  end.
End SeqEnum.

Section Enumerate.
Variable sub : string -> list lexeme -> list tree.

Definition one (a : atom) (k : ctx) (ok : lexeme -> bool) (toks : list lexeme) : list filled :=
  match toks with
  | [w] => if ok w then [([(a, k)], [Leaf w])] else []
  | _ => []
  end.

(** The productions of [r] under [k] filled with subtrees that span [toks];
    [sub n toks] supplies the trees of rule [n] over [toks]. *)
Fixpoint enum_rule (k : ctx) (r : rule) (toks : list lexeme) {struct r} : list filled :=
  match r with
  | Blank => match toks with [] => [([], [])] | _ => [] end
  | Sym n => match toks with
             | [] => []
             | _ => map (fun t => ([(ASym n, k)], [t])) (sub n toks)
             end
  | Str s => one (AStr s) k (fun w => lexeme_eqb w (cps s)) toks
  | Pat re => one (APat re) k (re_match unicode re) toks
  | Token r' => one (ATok false r') k (re_match unicode (token_regex r')) toks
  | TokenImmediate r' => one (ATok true r') k (re_match unicode (token_regex r')) toks
  | Seq rs => seq_enum (enum_rule k) rs toks
  | Choice rs => flat_map (fun r' => enum_rule k r' toks) rs
  | Repeat r' => rep (enum_rule k r') (length toks) toks
  | Repeat1 r' =>
      flat_map (fun '(p, s) =>
                  prod_app (enum_rule k r' p) (rep (enum_rule k r') (length s) s))
               (splits toks)
  | Prec n r' => enum_rule (with_prec n None k) r' toks
  | PrecLeft n r' => enum_rule (with_prec n (Some LeftAssoc) k) r' toks
  | PrecRight n r' => enum_rule (with_prec n (Some RightAssoc) k) r' toks
  | PrecDynamic n r' => enum_rule (with_dynamic n k) r' toks
  | Field f r' => enum_rule (with_field f k) r' toks
  | Alias r' a => enum_rule (with_alias a k) r' toks
  end.
End Enumerate.

(** The derivation trees of rule [n] over [toks], down to [fuel] levels. *)
Fixpoint enum (rules : list (string * rule)) (fuel : nat)
         (n : string) (toks : list lexeme) : list tree :=
  match fuel with
  | 0 => []
  | S f =>
      match lookup rules n with
      | None => []
      | Some body =>
          if quick body toks
          then map (fun '(xs, kids) => Node n xs kids)
                   (enum_rule (enum rules f) ctx0 body toks)
          else []
      end
  end.

(** *** Static facts the enumeration rests on *)

(** Whether the body refers to the rule [top]. *)
Fixpoint mentions (top : string) (r : rule) : bool :=
  match r with
  | Sym n => String.eqb n top
  | Seq rs | Choice rs => existsb (mentions top) rs
  | Repeat r' | Repeat1 r' => mentions top r'
  | Prec _ r' | PrecLeft _ r' | PrecRight _ r' | PrecDynamic _ r' => mentions top r'
  | Field _ r' => mentions top r'
  | Alias r' _ => mentions top r'
  | _ => false
  end.

(** The rules a body can expand to on their own. *)
Fixpoint unit_syms (r : rule) : list string :=
  match r with
  | Sym n => [n]
  | Seq rs =>
      (fix go (rs : list rule) : list string :=
         match rs with
         | [] => []
         | r1 :: rs' =>
             (if min_len (Seq rs') =? 0 then unit_syms r1 else [])
             ++ (if min_len r1 =? 0 then go rs' else [])
         end) rs
  | Choice rs => flat_map unit_syms rs
  | Repeat r' | Repeat1 r' => unit_syms r'
  | Prec _ r' | PrecLeft _ r' | PrecRight _ r' | PrecDynamic _ r' => unit_syms r'
  | Field _ r' => unit_syms r'
  | Alias r' _ => unit_syms r'
  | _ => []
  end.

(** The length of the longest chain of such expansions from a rule. *)
Fixpoint urank (rules : list (string * rule)) (fuel : nat) (n : string) : nat :=
  match fuel with
  | 0 => 0
  | S f =>
      match lookup rules n with
      | Some body => S (list_max (map (urank rules f) (unit_syms body)))
      | None => 0
      end
  end.

(** What the enumeration needs of a grammar: only [top] may span no token,
    no rule refers to [top], and no rule expands to itself through a chain
    of single references. *)
Definition wf (rules : list (string * rule)) (top : string) (F : nat) : bool :=
  forallb (fun '(n, body) =>
             (String.eqb n top || (1 <=? min_len body))
             && negb (mentions top body)
             && forallb (fun m => urank rules F m <? urank rules F n) (unit_syms body))
          rules.

(** Whether rule [a] can expand, through single references, to rule [b]. *)
Fixpoint ureach (rules : list (string * rule)) (fuel : nat) (a b : string) : bool :=
  String.eqb a b
  || match fuel with
     | 0 => false
     | S f =>
         match lookup rules a with
         | Some body => existsb (fun m => ureach rules f m b) (unit_syms body)
         | None => false
         end
     end.

(** ** Precedence and associativity *)

(** The first node below [t] that has more than one subtree. *)
Fixpoint core (t : tree) : tree :=
  match t with
  | Node _ _ [k] => core k
  | _ => t
  end.

Inductive decision := Shift | Reduce | Unresolved.

(** Modelled from the spec: the parsing engine, which is outside the
    repository, settles the nesting of two productions "via a numeric
    binding-strength table plus associativity"; the levels "totally order
    binding strength". [resolve p a q] is the choice between completing a
    production marked with level [p] and associativity [a], and continuing
    into one marked with level [q]: the higher level binds first; at equal
    levels a left-associative production is completed and a right-associative
    one continued. *)
Definition resolve (p : Z) (a : option assoc) (q : Z) : decision :=
  if (q <? p)%Z then Reduce
  else if (p <? q)%Z then Shift
  else match a with
       | Some LeftAssoc => Reduce
       | Some RightAssoc => Shift
       | None => Unresolved
       end.

Definition sym_of (x : step) : option string :=
  match fst x with
  | ASym n => Some n
  | _ => None
  end.

Section Conflicts.
Variable rules : list (string * rule).

Definition reaches (a b : string) : bool := ureach rules (length rules) a b.

(** Modelled from the spec: the engine's use of the marks at the right edge
    of a node. [P = p(... K)], [K] leads to [C = c(X ...)], and [p(... X)]
    could stand where [X] stands, so the nestings [p(... c(X ...))] and
    [c(p(... X) ...)] compete. The first continues into [C] before [P] is
    complete: it stands unless [resolve] says to complete [P]. *)
Definition right_edge_ok (p : string) (xs : list step) (kids : list tree) : bool :=
  match rev xs, rev kids with
  | xl :: _ :: _, kl :: _ =>
      match core kl with
      | Node _ (y1 :: _ :: _) (Node x _ _ :: _) =>
          match sym_of xl with
          | Some sl =>
              if reaches x p && reaches sl x
              then match resolve (c_prec (snd xl)) (c_assoc (snd xl)) (c_prec (snd y1)) with
                   | Reduce => false
                   | _ => true
                   end
              else true
          | None => true
          end
      | _ => true
      end
  | _, _ => true
  end.

(** Modelled from the spec: the same at the left edge. [P = p(K ...)], [K]
    leads to [C = c(... X)], and [p(X ...)] could stand where [X] stands.
    This nesting completes [C] before continuing into [P]: it stands unless
    [resolve] says to continue. *)
Definition left_edge_ok (p : string) (xs : list step) (kids : list tree) : bool :=
  match xs, kids with
  | x1 :: _ :: _, k1 :: _ =>
      match core k1 with
      | Node _ ys cs =>
          match rev ys, rev cs with
          | yl :: _ :: _, Node x _ _ :: _ =>
              match sym_of x1 with
              | Some s1 =>
                  if reaches x p && reaches s1 x
                  then match resolve (c_prec (snd yl)) (c_assoc (snd yl)) (c_prec (snd x1)) with
                       | Shift => false
                       | _ => true
                       end
                  else true
              | None => true
              end
          | _, _ => true
          end
      | _ => true
      end
  | _, _ => true
  end.

(** A tree none of whose nodes nests against the marks. *)
Fixpoint conflict_free (t : tree) : bool :=
  match t with
  | Leaf _ => true
  | Node p xs kids =>
      right_edge_ok p xs kids && left_edge_ok p xs kids
      && forallb conflict_free kids
  end.
End Conflicts.

(** ** Literals before patterns *)

(** The literals written in the grammar outside [token(...)]. *)
Fixpoint literals_of (r : rule) : list string :=
  match r with
  | Str s => [s]
  | Seq rs | Choice rs => flat_map literals_of rs
  | Repeat r' | Repeat1 r' => literals_of r'
  | Prec _ r' | PrecLeft _ r' | PrecRight _ r' | PrecDynamic _ r' => literals_of r'
  | Field _ r' => literals_of r'
  | Alias r' _ => literals_of r'
  | _ => []
  end.

Definition literals (rules : list (string * rule)) : list lexeme :=
  map cps (flat_map (fun '(_, body) => literals_of body) rules).

Section LiteralFirst.
Variable lits : list lexeme.

Definition is_literal (w : lexeme) : bool := existsb (lexeme_eqb w) lits.

(** Modelled from the spec: the lexer is the engine's. A spelling that is a
    keyword is read as the keyword where "the keyword meaning is
    syntactically expected"; a tree is [literal_first] when none of its
    tokens that spell a literal of the grammar is read through a pattern. *)
Fixpoint literal_first (t : tree) : bool :=
  match t with
  | Leaf _ => true
  | Node _ xs kids =>
      (fix go (xs : list step) (kids : list tree) {struct kids} : bool :=
         match xs, kids with
         | x :: xs', k :: kids' =>
             match k with
             | Leaf w => match fst x with
                         | AStr _ => true
                         | _ => negb (is_literal w)
                         end
             | Node _ _ _ => literal_first k
             end && go xs' kids'
         | _, _ => true
         end) xs kids
  end.
End LiteralFirst.

(** ** Parses *)

(** [t] is a parse of [toks] from the rule [start]: a derivation tree of the
    grammar over exactly these tokens that respects the precedence marks. *)
Definition parses (g : grammar) (start : string) (toks : list lexeme) (t : tree) : Prop :=
  derives (g_rules g) t /\ root t = Some start /\ yield t = toks
  /\ conflict_free (g_rules g) t = true.

(** A parse in which the lexer has read literals as literals. *)
Definition lexed_parses (g : grammar) (start : string) (toks : list lexeme) (t : tree) : Prop :=
  parses g start toks t /\ literal_first (literals (g_rules g)) t = true.

(** Enough levels for every derivation tree over [toks]. *)
Definition levels (rules : list (string * rule)) (toks : list lexeme) : nat :=
  S (S (length toks) * S (length rules)).

Definition parse_trees (g : grammar) (start : string) (toks : list lexeme) : list tree :=
  filter (conflict_free (g_rules g))
         (enum (g_rules g) (levels (g_rules g) toks) start toks).

Definition lexed_parse_trees (g : grammar) (start : string) (toks : list lexeme) : list tree :=
  filter (literal_first (literals (g_rules g))) (parse_trees g start toks).

(** ** The syntax tree a derivation is shown as *)

#[warnings="-register-all"] Inductive cst :=
| CTok (field : option string) (text : lexeme)
| CNode (field : option string) (kind : string) (kids : list cst).

Definition is_sym (n : string) (r : rule) : bool :=
  match r with
  | Sym m => String.eqb m n
  | _ => false
  end.

(** Modelled from the spec: the tree is built by the engine, outside the
    repository, from "the inline/elision list (rules whose node should be
    omitted from the tree, substituting their children directly), and the
    supertype groupings". Rules that leave no node of their own: those named
    with a leading underscore, the supertypes and the inlined rules. *)
Definition hidden (g : grammar) (n : string) : bool :=
  String.prefix "_" n
  || existsb (is_sym n) (g_supertypes g)
  || existsb (is_sym n) (g_inline g).

Definition or_else (a b : option string) : option string :=
  match a with
  | Some _ => a
  | None => b
  end.

(** Modelled from the spec: a node is "a kind tag, an ordered sequence of
    child nodes/tokens, and a mapping from field name to one or more
    children". A visible rule gives a node of its kind, or of its alias; a
    hidden one passes its subtrees, and the field it stands in, up to its
    parent. *)
Fixpoint cst_of (g : grammar) (fld alias : option string) (t : tree) {struct t} : list cst :=
  match t with
  | Leaf w =>
      match alias with
      | Some a => [CNode fld a [CTok None w]]
      | None => [CTok fld w]
      end
  | Node n xs kids =>
      let below :=
        fix go (inherit : option string) (xs : list step) (kids : list tree)
            {struct kids} : list cst :=
          match xs, kids with
          | x :: xs', k :: kids' =>
              cst_of g (or_else (c_field (snd x)) inherit) (c_alias (snd x)) k
              ++ go inherit xs' kids'
          | _, _ => []
          end in
      match alias with
      | Some a => [CNode fld a (below None xs kids)]
      | None => if hidden g n then below fld xs kids else [CNode fld n (below None xs kids)]
      end
  end.

Definition syntax_tree (g : grammar) (t : tree) : list cst := cst_of g None None t.

(** Shorthands for writing syntax trees down. *)
Definition tok (s : string) : cst := CTok None (cps s).
Definition ftok (f s : string) : cst := CTok (Some f) (cps s).
Definition leaf_node (f : option string) (kind s : string) : cst := CNode f kind [tok s].

(** ** Node kinds and supertypes *)

Inductive kind := Named (n : string) | Anonymous (s : string).

(** The alternatives of a body, under its precedence marks. *)
Fixpoint alternatives (r : rule) : list rule :=
  match r with
  | Choice rs => rs
  | Prec _ r' | PrecLeft _ r' | PrecRight _ r' | PrecDynamic _ r' => alternatives r'
  | _ => [r]
  end.

Definition kind_of (r : rule) : list kind :=
  match r with
  | Sym n => [Named n]
  | Alias _ a => [Named a]
  | Str s => [Anonymous s]
  | _ => []
  end.

(** The node kinds a rule lists as its alternatives. *)
Definition direct_members (rules : list (string * rule)) (s : string) : list kind :=
  match lookup rules s with
  | Some body => flat_map kind_of (alternatives body)
  | None => []
  end.

Definition supertype_names (g : grammar) : list string :=
  flat_map (fun r => match r with Sym n => [n] | _ => [] end) (g_supertypes g).


(** ** Reading subtrees off a derivation tree *)

Definition kids_of (t : tree) : list tree :=
  match t with
  | Leaf _ => []
  | Node _ _ kids => kids
  end.

Definition has_child (n : string) (t : tree) : Prop :=
  exists k, In k (kids_of t) /\ root k = Some n.


(** The subtrees that stand in the field [f] of the root. *)
Fixpoint in_field (f : string) (xs : list step) (kids : list tree) : list tree :=
  match xs, kids with
  | x :: xs', k :: kids' =>
      match c_field (snd x) with
      | Some f' => if String.eqb f' f then k :: in_field f xs' kids' else in_field f xs' kids'
      | None => in_field f xs' kids'
      end
  | _, _ => []
  end.

Definition field_children (f : string) (t : tree) : list tree :=
  match t with
  | Leaf _ => []
  | Node _ xs kids => in_field f xs kids
  end.

(** Every token of a tree with the rule it is a token of and the position
    it stands at. *)
Fixpoint tokens (t : tree) : list (string * step * lexeme) :=
  match t with
  | Leaf _ => []
  | Node n xs kids =>
      (fix go (xs : list step) (kids : list tree) {struct kids}
         : list (string * step * lexeme) :=
         match xs, kids with
         | x :: xs', k :: kids' =>
             match k with
             | Leaf w => [(n, x, w)]
             | Node _ _ _ => tokens k
             end ++ go xs' kids'
         | _, _ => []
         end) xs kids
  end.

(** Every position a body can put in a production. *)
Fixpoint steps_of (k : ctx) (r : rule) : list step :=
  match r with
  | Blank => []
  | Sym n => [(ASym n, k)]
  | Str s => [(AStr s, k)]
  | Pat re => [(APat re, k)]
  | Token r' => [(ATok false r', k)]
  | TokenImmediate r' => [(ATok true r', k)]
  | Seq rs | Choice rs => flat_map (steps_of k) rs
  | Repeat r' | Repeat1 r' => steps_of k r'
  | Prec n r' => steps_of (with_prec n None k) r'
  | PrecLeft n r' => steps_of (with_prec n (Some LeftAssoc) k) r'
  | PrecRight n r' => steps_of (with_prec n (Some RightAssoc) k) r'
  | PrecDynamic n r' => steps_of (with_dynamic n k) r'
  | Field f r' => steps_of (with_field f k) r'
  | Alias r' a => steps_of (with_alias a k) r'
  end.

(** ** Inputs, shapes and trees the properties mention *)

(** *** The identifier token *)

(** What the first class of the pattern of [identifier] holds. *)
Definition ident_start (x : codepoint) : bool :=
  unicode XID_Start x || (x =? c "_")%N || (x =? c "$")%N.

(** U+00A2, the cent sign, is in the second class of the pattern. *)
Definition ident_part (x : codepoint) : bool :=
  unicode XID_Continue x || (x =? 162)%N || (x =? c "_")%N || (x =? c "$")%N.

(** The shape the pattern of [identifier] has: one character of the first
    class, then any number of the second. *)
Definition identifier_shape (w : lexeme) : bool :=
  match w with
  | [] => false
  | x :: rest => ident_start x && forallb ident_part rest
  end.

(** The shape in the words of the specification, to compare with
    [identifier_shape]: later characters are XID_Continue, [_] and [$] only. *)
Definition claimed_part (x : codepoint) : bool :=
  unicode XID_Continue x || (x =? c "_")%N || (x =? c "$")%N.

(** The identifier in the words of the specification. *)
Definition claimed_identifier (w : lexeme) : bool :=
  match w with
  | [] => false
  | x :: rest => ident_start x && forallb claimed_part rest
  end.

(** *** Supertypes *)

Definition kind_eqb (a b : kind) : bool :=
  match a, b with
  | Named x, Named y => String.eqb x y
  | Anonymous x, Anonymous y => String.eqb x y
  | _, _ => false
  end.

(** The kinds two lists share. *)
Definition common (l1 l2 : list kind) : list kind :=
  filter (fun k => existsb (kind_eqb k) l2) l1.

(** *** Sample derivations *)

(** The derivation of [x = y] as an assignment_expression. *)
Definition assignment_tree : tree :=
  Eval vm_compute in
    hd (Leaf []) (parse_trees java "assignment_expression" (map cps ["x"; "="; "y"])).

(** The derivation of the switch block [{ case 1 : ; }]. *)
Definition grouped_block : tree :=
  Eval vm_compute in
    hd (Leaf []) (parse_trees java "switch_block" (map cps ["{"; "case"; "1"; ":"; ";"; "}"])).

(** The derivation of the program [void f ( ) ;]. *)
Definition method_program : tree :=
  Eval vm_compute in
    hd (Leaf []) (lexed_parse_trees java "program" (map cps ["void"; "f"; "("; ")"; ";"])).

(** *** Precedence marks *)

(** The outermost precedence mark of a body. *)
Fixpoint mark_of (r : rule) : option (Z * option assoc) :=
  match r with
  | Prec n _ => Some (n, None)
  | PrecLeft n _ => Some (n, Some LeftAssoc)
  | PrecRight n _ => Some (n, Some RightAssoc)
  | PrecDynamic n _ => Some (n, None)
  | Token r' | TokenImmediate r' => mark_of r'
  | _ => None
  end.

(** The mark of the rule named [n]. *)
Definition rule_mark (rules : list (string * rule)) (n : string) : option (Z * option assoc) :=
  match lookup rules n with
  | Some body => mark_of body
  | None => None
  end.

(** The operators a body lists as alternatives, each with its mark. *)
Definition operator_marks (rules : list (string * rule)) (n : string)
  : list (string * option (Z * option assoc)) :=
  match lookup rules n with
  | Some body => flat_map (fun alt => map (fun op => (op, mark_of alt)) (literals_of alt))
                          (alternatives body)
  | None => []
  end.

(** *** Expressions *)

Definition ident (f s : string) : cst := leaf_node (Some f) "identifier" s.

Definition binary (f : option string) (l : cst) (op : string) (r : cst) : cst :=
  CNode f "binary_expression" [l; ftok "operator" op; r].



(** [a o1 b o2 c]. *)
Definition same_level_pair (o : string * string) : list lexeme :=
  map cps ["a"; fst o; "b"; snd o; "c"].

(** The pairs of binary operators of one level. *)
Definition same_level_pairs : list (string * string) :=
  flat_map (fun '(o1, p1) =>
              flat_map (fun '(o2, p2) => if (p1 =? p2)%Z then [(o1, o2)] else [])
                       binary_operators)
           binary_operators.

(** [(a o1 b) o2 c]. *)
Definition left_nested (o : string * string) : list cst :=
  [binary None (binary (Some "left") (ident "left" "a") (fst o) (ident "right" "b"))
          (snd o) (ident "right" "c")].

Definition assignment (f : option string) (l : cst) (op : string) (r : cst) : cst :=
  CNode f "assignment_expression" [l; ftok "operator" op; r].

Definition ternary (f : option string) (a b d : cst) : cst :=
  CNode f "ternary_expression" [a; tok "?"; b; tok ":"; d].

(** *** Reserved identifiers *)









(** *** String interpolation *)



(** ** Relating the languages of two regular expressions *)

(** Whether every string is matched by two regular expressions in a way
    that fits a given condition (by none of them, by the second if by the
    first) is decided on the pairs of their derivatives. A derivative only
    depends on the answers of the tests the regular expression makes on the
    character, so finitely many characters stand for all. *)

(** The tests on a character that a regex makes. *)
Fixpoint atoms (r : regex) : list citem :=
  match r with
  | REps => []
  | RChr x => [CChar x]
  | RAny => [CChar NEWLINE]
  | RSet items | RNSet items => items
  | RCat r1 r2 | RAlt r1 r2 => atoms r1 ++ atoms r2
  | RStar r1 | RPlus r1 => atoms r1
  | RRep r1 _ _ => atoms r1
  end.

(** Where the answer of a test may change. *)
Definition bounds (i : citem) : option (list codepoint) :=
  match i with
  | CChar x => Some [x; N.succ x]
  | CRange lo hi => Some [lo; N.succ hi]
  | _ => None
  end.

Fixpoint cuts (items : list citem) : option (list codepoint) :=
  match items with
  | [] => Some [0%N]
  | i :: rest =>
      match bounds i, cuts rest with
      | Some b, Some bs => Some (b ++ bs)
      | _, _ => None
      end
  end.

(** The greatest cut not above [x]. *)
Definition rep_of (cs : list codepoint) (x : codepoint) : codepoint :=
  fold_right (fun b best => if ((b <=? x) && (best <=? b))%N then b else best) 0%N cs.

(** Equality of class items, of classes and of regular expressions. *)
Definition citem_eqb (a b : citem) : bool :=
  match a, b with
  | CChar x, CChar y => (x =? y)%N
  | CRange l h, CRange l' h' => ((l =? l') && (h =? h'))%N
  | CProp XID_Start, CProp XID_Start => true
  | CProp XID_Continue, CProp XID_Continue => true
  | CSpace, CSpace => true
  | _, _ => false
  end.

Fixpoint items_eqb (a b : list citem) : bool :=
  match a, b with
  | [], [] => true
  | x :: a', y :: b' => citem_eqb x y && items_eqb a' b'
  | _, _ => false
  end.

Fixpoint regex_eqb (a b : regex) : bool :=
  match a, b with
  | REps, REps => true
  | RChr x, RChr y => (x =? y)%N
  | RAny, RAny => true
  | RSet i, RSet j => items_eqb i j
  | RNSet i, RNSet j => items_eqb i j
  | RCat a1 a2, RCat b1 b2 => regex_eqb a1 b1 && regex_eqb a2 b2
  | RAlt a1 a2, RAlt b1 b2 => regex_eqb a1 b1 && regex_eqb a2 b2
  | RStar a1, RStar b1 => regex_eqb a1 b1
  | RPlus a1, RPlus b1 => regex_eqb a1 b1
  | RRep a1 l h, RRep b1 l' h' => regex_eqb a1 b1 && (l =? l') && (h =? h')
  | _, _ => false
  end.

(** The two trivial regular expressions. *)
Definition is_void (r : regex) : bool :=
  match r with RSet [] => true | _ => false end.
Definition is_eps (r : regex) : bool :=
  match r with REps => true | _ => false end.

(** Concatenation, with the trivial cases reduced. *)
Definition mk_cat (a b : regex) : regex :=
  if is_void a || is_void b then RVoid
  else if is_eps a then b
  else if is_eps b then a
  else RCat a b.

(** The alternatives of a regex, the empty ones left out. *)
Fixpoint flat (r : regex) : list regex :=
  match r with
  | RAlt a b => flat a ++ flat b
  | RSet [] => []
  | _ => [r]
  end.

(** [l] with each regular expression kept once. *)
Fixpoint dedup (l : list regex) : list regex :=
  match l with
  | [] => []
  | r :: rest => if existsb (regex_eqb r) rest then dedup rest else r :: dedup rest
  end.

(** The alternation of a list. *)
Fixpoint alt_list (l : list regex) : regex :=
  match l with
  | [] => RVoid
  | [r] => r
  | r :: rest => RAlt r (alt_list rest)
  end.

(** A regex of the same language, with the alternatives listed once and
    the trivial concatenations removed. *)
Fixpoint norm (r : regex) : regex :=
  match r with
  | RCat a b => mk_cat (norm a) (norm b)
  | RAlt a b => alt_list (dedup (flat (norm a) ++ flat (norm b)))
  | _ => r
  end.

Section Related.

(** Matching is defined for any Unicode tables. *)
Variable uni : uprop -> codepoint -> bool.

Definition pair_eqb (p q : regex * regex) : bool :=
  regex_eqb (fst p) (fst q) && regex_eqb (snd p) (snd q).

(** The derivatives of a pair by [x], normalised. *)
Definition dstep (x : codepoint) (p : regex * regex) : regex * regex :=
  (norm (deriv uni x (fst p)), norm (deriv uni x (snd p))).

(** The pairs of derivatives reached from [todo], [seen] included. *)
Fixpoint explore (fuel : nat) (cs : list codepoint)
         (seen todo : list (regex * regex)) : list (regex * regex) :=
  match fuel with
  | 0 => seen
  | S f =>
      match todo with
      | [] => seen
      | p :: rest =>
          if existsb (pair_eqb p) seen then explore f cs seen rest
          else explore f cs (p :: seen) (map (fun x => dstep x p) cs ++ rest)
      end
  end.

(** Whether [pairs] holds the derivatives of each of its pairs. *)
Definition closed (cs : list codepoint) (pairs : list (regex * regex)) : bool :=
  forallb (fun p => forallb (fun x => existsb (pair_eqb (dstep x p)) pairs) cs) pairs.

(** Whether the tests of [r] are among [A]. *)
Definition atoms_in (A : list citem) (r : regex) : bool :=
  forallb (fun i => existsb (citem_eqb i) A) (atoms r).

(** Whether [ok] holds of the answers of [r1] and [r2] on every string:
    decided on the derivatives of the pair. *)
Definition related (ok : bool -> bool -> bool) (fuel : nat) (r1 r2 : regex) : bool :=
  let A := atoms r1 ++ atoms r2 in
  match cuts A with
  | None => false
  | Some cs =>
      let start := (norm r1, norm r2) in
      let pairs := explore fuel cs [] [start] in
      existsb (pair_eqb start) pairs
      && closed cs pairs
      && forallb (fun p => atoms_in A (fst p) && atoms_in A (snd p)) pairs
      && forallb (fun p => ok (nullable (fst p)) (nullable (snd p))) pairs
  end.

End Related.

(** No string is matched by both. *)
Definition disjoint (a b : bool) : bool := negb (a && b).

(** Steps allowed to the search for the derivatives of a pair. *)
Definition search : nat := 50 * 1000.

(** ** The tokens of the grammar *)

(** The regular language of a rule read as one token. *)
Definition token_language (rules : list (string * rule)) (n : string) : regex :=
  match lookup rules n with
  | Some body => token_regex body
  | None => RVoid
  end.

(** Whether the token rule [n] of the grammar matches the whole of [w]. *)
Definition lexes (n : string) (w : lexeme) : bool :=
  re_match unicode (token_language java_rules n) w.

(** Any string. *)
Definition any : regex := RStar (RNSet []).

(** The string [s] itself. *)
Definition lit (s : string) : regex := token_regex (Str s).

(** *** Numeric literals *)

(** The numeric literal tokens of [_literal]. *)
Definition numeric_literals : list string :=
  ["decimal_integer_literal"; "hex_integer_literal"; "octal_integer_literal";
   "binary_integer_literal"; "decimal_floating_point_literal";
   "hex_floating_point_literal"].

(** The two kinds of hex literal, in either order. *)
Definition hex_pair (a b : string) : bool :=
  (String.eqb a "hex_integer_literal" && String.eqb b "hex_floating_point_literal")
  || (String.eqb a "hex_floating_point_literal" && String.eqb b "hex_integer_literal").

(** The suffix of a long integer. *)
Definition is_long_suffix (x : codepoint) : bool := ((x =? c "l") || (x =? c "L"))%N.

(** Whether [w] ends in that suffix. *)
Definition ends_long (w : lexeme) : bool :=
  match rev w with
  | x :: _ => is_long_suffix x
  | [] => false
  end.

Definition is_digit (x : codepoint) : bool := ((c "0" <=? x) && (x <=? c "9"))%N.

Definition is_digit_or_underscore (x : codepoint) : bool :=
  is_digit x || (x =? c "_")%N.

(** Classes the shapes below are written with. *)
Definition digit_class : list citem := [CRange (c "0") (c "9")].
Definition digit_or_underscore : list citem := [CRange (c "0") (c "9"); CChar (c "_")].
Definition long_suffix : list citem := [CChar (c "l"); CChar (c "L")].

(** Strings that do not start with a digit. *)
Definition no_leading_digit : regex := RAlt REps (RCat (RNSet digit_class) any).

(** [0], [0l], [0L], and the strings that do not start with [0]. *)
Definition no_leading_zero : regex :=
  RAlt (RCat (RChr (c "0")) (RAlt REps (RSet long_suffix)))
       (RAlt REps (RCat (RNSet [CChar (c "0")]) any)).

(** Strings with an underscore at the end or before something that is
    neither a digit nor an underscore. *)
Definition stray_underscore : regex :=
  RCat any (RCat (RChr (c "_")) (RAlt REps (RCat (RNSet digit_or_underscore) any))).

(** Strings with two underscores right after the first character. *)
Definition early_underscores : regex := RCat (RNSet []) (RCat (lit "__") any).

(** Digits and underscores, then at most one of [l] and [L]. *)
Definition digits_then_suffix : regex :=
  RCat (RStar (RSet digit_or_underscore)) (RAlt REps (RSet long_suffix)).

(** *** Character and string literals *)

Definition is_nil {A : Type} (l : list A) : bool :=
  match l with
  | [] => true
  | _ => false
  end.

(** The characters of the first alternative of [character_literal]. *)
Definition is_plain_char (x : codepoint) : bool :=
  negb ((x =? BSLASH) || (x =? c "'") || (x =? NEWLINE))%N.

(** The characters of [string_fragment]. *)
Definition is_fragment_char (x : codepoint) : bool :=
  negb ((x =? DQUOTE) || (x =? BSLASH))%N.

(** Strings with two double quotes in a row. *)
Definition two_quotes : regex := RCat any (RCat (RChr DQUOTE) (RCat (RChr DQUOTE) any)).

(** The characters that start a longer escape: [x], [u], an octal digit. *)
Definition starts_long_escape (x : codepoint) : bool :=
  ((x =? c "x") || (x =? c "u") || ((c "0" <=? x) && (x <=? c "7")))%N.

(** A backslash and one character that starts no longer escape; the same
    with something behind it. *)
Definition short_escape : regex :=
  RCat (RChr BSLASH) (RNSet [CChar (c "x"); CChar (c "u"); CRange (c "0") (c "7")]).
Definition long_after_short : regex :=
  RCat short_escape (RCat (RNSet []) any).

(** *** Comments *)

(** The first [*/] of [w] is its end. *)
Definition closes_once (w : lexeme) : Prop :=
  (exists body, w = body ++ cps "*/")
  /\ forall u v, w = u ++ cps "*/" ++ v -> v = [].

(** Strings between the opener and a closer; those that go on after a
    closer. *)
Definition opened : regex := RCat (lit "/*") (RCat any (lit "*/")).
Definition overrun : regex :=
  RCat (lit "/*") (RCat any (RCat (lit "*/") (RCat (RNSet []) any))).

(** *** Keywords *)

(** The literals written in the rules outside [token(...)], each once. *)
Definition grammar_literals : list string :=
  nodup string_dec (flat_map (fun '(_, body) => literals_of body) java_rules).

Definition starts_lowercase (s : string) : bool :=
  match cps s with
  | x :: _ => ((c "a" <=? x) && (x <=? c "z"))%N
  | [] => false
  end.

(** ** The grammar as a whole *)

(** The rules a body refers to. *)
Fixpoint references (r : rule) : list string :=
  match r with
  | Sym n => [n]
  | Seq rs | Choice rs => flat_map references rs
  | Repeat r' | Repeat1 r' => references r'
  | Prec _ r' | PrecLeft _ r' | PrecRight _ r' | PrecDynamic _ r' => references r'
  | Field _ r' => references r'
  | Alias r' _ => references r'
  | Token r' | TokenImmediate r' => references r'
  | _ => []
  end.



(** [uses rules a b]: the rule [a] leads to the rule [b] through the
    references of the bodies. *)
Inductive uses (rules : list (string * rule)) (a : string) : string -> Prop :=
| U_self : uses rules a a
| U_step b body m :
    uses rules a b -> lookup rules b = Some body -> In m (references body) ->
    uses rules a m.

Definition mem (n : string) (l : list string) : bool := existsb (String.eqb n) l.

(** The rules reached from [todo], [seen] included. *)
Fixpoint reach (rules : list (string * rule)) (fuel : nat)
         (seen todo : list string) : list string :=
  match fuel with
  | 0 => seen
  | S f =>
      match todo with
      | [] => seen
      | n :: rest =>
          if mem n seen then reach rules f seen rest
          else reach rules f (n :: seen)
                     (match lookup rules n with
                      | Some body => references body ++ rest
                      | None => rest
                      end)
      end
  end.

Definition is_extra (g : grammar) (n : string) : bool :=
  existsb (is_sym n) (g_extras g).

(** The static precedence levels written in a body. *)
Fixpoint static_levels (r : rule) : list Z :=
  match r with
  | Seq rs | Choice rs => flat_map static_levels rs
  | Repeat r' | Repeat1 r' => static_levels r'
  | Prec n r' | PrecLeft n r' | PrecRight n r' => n :: static_levels r'
  | PrecDynamic _ r' => static_levels r'
  | Field _ r' => static_levels r'
  | Alias r' _ => static_levels r'
  | Token r' | TokenImmediate r' => static_levels r'
  | _ => []
  end.

(** The dynamic precedence levels written in a body. *)
Fixpoint dynamic_levels (r : rule) : list Z :=
  match r with
  | Seq rs | Choice rs => flat_map dynamic_levels rs
  | Repeat r' | Repeat1 r' => dynamic_levels r'
  | Prec _ r' | PrecLeft _ r' | PrecRight _ r' => dynamic_levels r'
  | PrecDynamic n r' => n :: dynamic_levels r'
  | Field _ r' => dynamic_levels r'
  | Alias r' _ => dynamic_levels r'
  | Token r' | TokenImmediate r' => dynamic_levels r'
  | _ => []
  end.

(** The levels written as static precedences somewhere in the grammar. *)
Definition static_level (z : Z) : Prop := (z = -3 \/ 0 <= z <= 15)%Z.

Definition is_leaf (t : tree) : bool :=
  match t with
  | Leaf _ => true
  | Node _ _ _ => false
  end.

(** A body that is one reference or terminal, or a choice of such, under
    any wrappers. *)
Fixpoint single (r : rule) : bool :=
  match r with
  | Sym _ | Str _ | Pat _ | Token _ | TokenImmediate _ => true
  | Choice rs => forallb single rs
  | Prec _ r' | PrecLeft _ r' | PrecRight _ r' | PrecDynamic _ r' => single r'
  | Field _ r' => single r'
  | Alias r' _ => single r'
  | _ => false
  end.


(** *** Fields *)

(** Sums and maxima of bounds; [None] is no bound. *)
Definition osum (a b : option nat) : option nat :=
  match a, b with
  | Some x, Some y => Some (x + y)
  | _, _ => None
  end.

Definition omax (a b : option nat) : option nat :=
  match a, b with
  | Some x, Some y => Some (Nat.max x y)
  | _, _ => None
  end.

Definition in_field_b (f : string) (k : ctx) : bool :=
  match c_field k with
  | Some g => String.eqb g f
  | None => false
  end.

(** How many positions in the field [f] a production of [r] can have at
    most. *)
Fixpoint most (f : string) (k : ctx) (r : rule) : option nat :=
  match r with
  | Blank => Some 0
  | Sym _ | Str _ | Pat _ | Token _ | TokenImmediate _ =>
      Some (if in_field_b f k then 1 else 0)
  | Seq rs => fold_right (fun r' acc => osum (most f k r') acc) (Some 0) rs
  | Choice rs => fold_right (fun r' acc => omax (most f k r') acc) (Some 0) rs
  | Repeat r' | Repeat1 r' =>
      match most f k r' with
      | Some 0 => Some 0
      | _ => None
      end
  | Prec n r' => most f (with_prec n None k) r'
  | PrecLeft n r' => most f (with_prec n (Some LeftAssoc) k) r'
  | PrecRight n r' => most f (with_prec n (Some RightAssoc) k) r'
  | PrecDynamic n r' => most f (with_dynamic n k) r'
  | Field g r' => most f (with_field g k) r'
  | Alias r' a => most f (with_alias a k) r'
  end.

(** The positions of a production that are in the field [f]. *)
Definition count_field (f : string) (xs : list step) : nat :=
  length (filter (fun x => in_field_b f (snd x)) xs).

(** The field names written in the grammar. *)
Definition field_names : list string :=
  nodup string_dec
    (flat_map (fun '(_, body) =>
                 flat_map (fun x => match c_field (snd x) with
                                    | Some f => [f]
                                    | None => []
                                    end) (steps_of ctx0 body))
              java_rules).

(** The fields a rule can fill more than once. *)
Definition repeated_fields : list (string * string) :=
  [("cast_expression", "type");
   ("array_creation_expression", "dimensions");
   ("for_statement", "init");
   ("for_statement", "update");
   ("requires_module_directive", "modifiers");
   ("exports_module_directive", "modules");
   ("opens_module_directive", "modules");
   ("provides_module_directive", "provider");
   ("_variable_declarator_list", "declarator")].

(** For each of them, tokens that fill the field twice. *)
Definition repeated_field_samples : list (string * string * list string) :=
  [("cast_expression", "type", ["("; "A"; "&"; "B"; ")"; "x"]);
   ("array_creation_expression", "dimensions", ["new"; "int"; "["; "1"; "]"; "["; "]"]);
   ("for_statement", "init", ["for"; "("; "a"; ","; "b"; ";"; ";"; ")"; ";"]);
   ("for_statement", "update", ["for"; "("; ";"; ";"; "a"; ","; "b"; ")"; ";"]);
   ("requires_module_directive", "modifiers",
    ["requires"; "transitive"; "static"; "a"; ";"]);
   ("exports_module_directive", "modules", ["exports"; "a"; "to"; "b"; ","; "c"; ";"]);
   ("opens_module_directive", "modules", ["opens"; "a"; "to"; "b"; ","; "c"; ";"]);
   ("provides_module_directive", "provider",
    ["provides"; "a"; "with"; "b"; ","; "c"; ","; "d"; ";"]);
   ("_variable_declarator_list", "declarator", ["a"; ","; "b"])].

Definition repeats (n f : string) : bool :=
  existsb (fun '(m, g) => String.eqb m n && String.eqb g f) repeated_fields.

(** ** Lists, and sample derivations *)

(** [first], then each of [more] behind a separator. *)
Definition separated (sep : list step -> Prop) (item : list step -> Prop)
           (xs : list step) : Prop :=
  exists first more,
    item first
    /\ Forall (fun p => sep (fst p) /\ item (snd p)) more
    /\ xs = first ++ flat_map (fun p => fst p ++ snd p) more.

(** Nodes of the rule [e] with the token [s] between each two. *)
Fixpoint alternates (e s : string) (ks : list tree) : bool :=
  match ks with
  | [k] => match root k with Some m => String.eqb m e | None => false end
  | k :: Leaf w :: rest =>
      match root k with Some m => String.eqb m e | None => false end
      && lexeme_eqb w (cps s) && alternates e s rest
  | _ => false
  end.

(** The modifier keywords listed by [modifiers]. *)
Definition modifier_keywords : list string :=
  ["public"; "protected"; "private"; "abstract"; "static"; "final"; "strictfp";
   "default"; "synchronized"; "native"; "transient"; "volatile"; "sealed"; "non-sealed"].

(** The first derivation tree found for [toks] from the rule [n]. *)
Definition sample (n : string) (toks : list string) : tree :=
  hd (Leaf []) (enum java_rules 40 n (map cps toks)).

(** ** Tokens to derive from each rule *)

(** A character an item of a class holds. *)
Definition item_sample (i : citem) : codepoint :=
  match i with
  | CChar x => x
  | CRange lo _ => lo
  | CProp _ => c "a"
  | CSpace => c " "
  end.

(** A string to try for a regular expression. *)
Fixpoint re_sample (r : regex) : option lexeme :=
  match r with
  | REps => Some []
  | RChr x => Some [x]
  | RAny => Some [c "a"]
  | RSet items =>
      match items with
      | i :: _ => Some [item_sample i]
      | [] => None
      end
  | RNSet items =>
      match filter (fun x => negb (class_has unicode items x))
                   [c "a"; c "0"; c " "; c "x"] with
      | x :: _ => Some [x]
      | [] => None
      end
  | RCat a b =>
      match re_sample a, re_sample b with
      | Some u, Some v => Some (u ++ v)
      | _, _ => None
      end
  | RAlt a b =>
      match re_sample a with
      | Some u => Some u
      | None => re_sample b
      end
  | RStar _ => Some []
  | RPlus a => re_sample a
  | RRep a lo _ =>
      match re_sample a with
      | Some u => Some (concat (repeat u lo))
      | None => None
      end
  end.

Definition shorter (a b : option (list lexeme)) : option (list lexeme) :=
  match a, b with
  | Some u, Some v => if length v <? length u then b else a
  | Some _, None => a
  | None, _ => b
  end.

Definition one_token (re : regex) : option (list lexeme) :=
  match re_sample re with
  | Some w => Some [w]
  | None => None
  end.

(** Tokens to try for a body, given tokens for the rules it refers to. *)
Fixpoint short (table : list (string * option (list lexeme))) (r : rule)
  : option (list lexeme) :=
  match r with
  | Blank => Some []
  | Sym n =>
      match find (fun e => String.eqb (fst e) n) table with
      | Some (_, o) => o
      | None => None
      end
  | Str s => Some [cps s]
  | Pat re => one_token re
  | Token r' | TokenImmediate r' => one_token (token_regex r')
  | Seq rs =>
      fold_right (fun r' acc => match short table r', acc with
                                | Some u, Some v => Some (u ++ v)
                                | _, _ => None
                                end) (Some []) rs
  | Choice rs => fold_right (fun r' acc => shorter (short table r') acc) None rs
  | Repeat _ => Some []
  | Repeat1 r' => short table r'
  | Prec _ r' | PrecLeft _ r' | PrecRight _ r' | PrecDynamic _ r' => short table r'
  | Field _ r' => short table r'
  | Alias r' _ => short table r'
  end.

Fixpoint rounds (n : nat) (table : list (string * option (list lexeme)))
  : list (string * option (list lexeme)) :=
  match n with
  | 0 => table
  | S m => rounds m (map (fun '(name, body) => (name, short table body)) java_rules)
  end.

(** For each rule, tokens to try. *)
Definition shortest : list (string * option (list lexeme)) :=
  rounds 12 (map (fun '(name, _) => (name, None)) java_rules).

(** Whether the tokens found for a rule have a derivation from it. *)
Definition productive (e : string * option (list lexeme)) : bool :=
  match snd e with
  | Some toks => negb (is_nil (enum java_rules 40 (fst e) toks))
  | None => false
  end.

(** ** Notions the proofs are stated with *)

Definition nonnull (t : tree) : Prop := yield t <> [].

(** [sub] only returns trees of the rule over the tokens asked for. *)
Definition sub_sound (rules : list (string * rule))
           (sub : string -> list lexeme -> list tree) : Prop :=
  forall n toks t, In t (sub n toks) ->
                   derives rules t /\ root t = Some n /\ yield t = toks.

(** [m] is a production of [r] under [k], filled with derivation trees that
    span [toks]. *)
Definition good (rules : list (string * rule)) (k : ctx) (r : rule)
           (toks : list lexeme) (m : filled) : Prop :=
  expands k r (fst m) /\ fits_all (fst m) (snd m) = true
  /\ Forall (derives rules) (snd m) /\ flat_map yield (snd m) = toks.

(** [sub] returns [t] when asked for its rule over its tokens. *)
Definition covered (sub : string -> list lexeme -> list tree) (t : tree) : Prop :=
  nonnull t /\ forall n, root t = Some n -> In t (sub n (yield t)).

(** The measure the enumeration descends along. *)
Definition mu (rules : list (string * rule)) (F : nat) (t : tree) : nat :=
  length (yield t) * S F
  + match root t with Some n => urank rules F n | None => 0 end.

(** * Properties *)

(** ** The enumeration is exact *)

(** Induction over rules, with the hypothesis for every member of a list. *)
Section RuleInduction.
Variable P : rule -> Prop.
Hypothesis HBlank : P Blank.
Hypothesis HSym : forall n, P (Sym n).
Hypothesis HStr : forall s, P (Str s).
Hypothesis HPat : forall r, P (Pat r).
Hypothesis HSeq : forall rs, Forall P rs -> P (Seq rs).
Hypothesis HChoice : forall rs, Forall P rs -> P (Choice rs).
Hypothesis HRepeat : forall r, P r -> P (Repeat r).
Hypothesis HRepeat1 : forall r, P r -> P (Repeat1 r).
Hypothesis HPrec : forall n r, P r -> P (Prec n r).
Hypothesis HPrecLeft : forall n r, P r -> P (PrecLeft n r).
Hypothesis HPrecRight : forall n r, P r -> P (PrecRight n r).
Hypothesis HPrecDynamic : forall n r, P r -> P (PrecDynamic n r).
Hypothesis HField : forall f r, P r -> P (Field f r).
Hypothesis HAlias : forall r a, P r -> P (Alias r a).
Hypothesis HToken : forall r, P r -> P (Token r).
Hypothesis HTokenImmediate : forall r, P r -> P (TokenImmediate r).

Fixpoint rule_rect_list (r : rule) : P r :=
  let all := fix all (rs : list rule) : Forall P rs :=
               match rs with
               | [] => Forall_nil P
               | r' :: rs' => Forall_cons r' (rule_rect_list r') (all rs')
               end in
  match r with
  | Blank => HBlank
  | Sym n => @HSym n
  | Str s => @HStr s
  | Pat re => @HPat re
  | Seq rs => @HSeq rs (all rs)
  | Choice rs => @HChoice rs (all rs)
  | Repeat r' => @HRepeat r' (rule_rect_list r')
  | Repeat1 r' => @HRepeat1 r' (rule_rect_list r')
  | Prec n r' => @HPrec n r' (rule_rect_list r')
  | PrecLeft n r' => @HPrecLeft n r' (rule_rect_list r')
  | PrecRight n r' => @HPrecRight n r' (rule_rect_list r')
  | PrecDynamic n r' => @HPrecDynamic n r' (rule_rect_list r')
  | Field f r' => @HField f r' (rule_rect_list r')
  | Alias r' a => @HAlias r' a (rule_rect_list r')
  | Token r' => @HToken r' (rule_rect_list r')
  | TokenImmediate r' => @HTokenImmediate r' (rule_rect_list r')
  end.
End RuleInduction.

Lemma lexeme_eqb_eq u v : lexeme_eqb u v = true <-> u = v.
Proof.
  revert v; induction u as [|x u IH]; destruct v as [|y v]; simpl; split;
    try congruence; try reflexivity.
  - rewrite andb_true_iff, N.eqb_eq, IH. intros [-> ->]. reflexivity.
  - intros E. injection E as -> ->. rewrite N.eqb_refl. simpl. apply IH. reflexivity.
Qed.

Lemma splits_spec {A} (l p s : list A) : In (p, s) (splits l) <-> l = p ++ s.
Proof.
  revert p s; induction l as [|x l IH]; intros p s; simpl.
  - split.
    + intros [E|[]]. injection E as <- <-. reflexivity.
    + intros E. symmetry in E. apply app_eq_nil in E as [-> ->]. now left.
  - split.
    + intros [E|H].
      * injection E as <- <-. reflexivity.
      * apply in_map_iff in H as [[p' s'] [E H]]. injection E as <- <-.
        apply IH in H. subst l. reflexivity.
    + intros E. destruct p as [|y p].
      * simpl in E. subst s. now left.
      * simpl in E. injection E as <- E. right. apply in_map_iff.
        exists (p, s). split; [reflexivity|]. apply IH. exact E.
Qed.

Lemma prod_app_spec (a b : list filled) zs ms :
  In (zs, ms) (prod_app a b) <->
  exists xs ks ys ls, In (xs, ks) a /\ In (ys, ls) b /\ zs = xs ++ ys /\ ms = ks ++ ls.
Proof.
  unfold prod_app. rewrite in_flat_map. split.
  - intros [[xs ks] [Ha H]]. apply in_map_iff in H as [[ys ls] [E Hb]].
    injection E as <- <-. exists xs, ks, ys, ls. auto.
  - intros (xs & ks & ys & ls & Ha & Hb & -> & ->).
    exists (xs, ks). split; [exact Ha|]. apply in_map_iff. exists (ys, ls). auto.
Qed.

Lemma fits_all_length xs ts : fits_all xs ts = true -> length xs = length ts.
Proof.
  revert ts; induction xs as [|x xs IH]; destruct ts as [|t ts]; simpl; try congruence.
  intros H. apply andb_true_iff in H as [_ H]. f_equal. now apply IH.
Qed.

Lemma fits_all_app xs ys ks ls :
  fits_all xs ks = true -> fits_all ys ls = true -> fits_all (xs ++ ys) (ks ++ ls) = true.
Proof.
  revert ks; induction xs as [|x xs IH]; destruct ks as [|t ks]; simpl; try congruence.
  intros H1 H2. apply andb_true_iff in H1 as [H0 H1]. rewrite H0. simpl. now apply IH.
Qed.

Lemma fits_all_split xs ys ts :
  fits_all (xs ++ ys) ts = true ->
  exists ks ls, ts = ks ++ ls /\ fits_all xs ks = true /\ fits_all ys ls = true.
Proof.
  revert ts; induction xs as [|x xs IH]; intros ts H; simpl in *.
  - exists [], ts. auto.
  - destruct ts as [|t ts]; [discriminate|].
    apply andb_true_iff in H as [H0 H]. apply IH in H as (ks & ls & -> & H1 & H2).
    exists (t :: ks), ls. simpl. rewrite H0, H1. auto.
Qed.

(** *** The enumeration only returns matches *)

Section Soundness.
Variable rules : list (string * rule).
Variable sub : string -> list lexeme -> list tree.

Hypothesis Hsub : sub_sound rules sub.

Lemma one_sound a k ok toks m :
  In m (one a k ok toks) ->
  exists w, toks = [w] /\ ok w = true /\ m = ([(a, k)], [Leaf w]).
Proof.
  unfold one. destruct toks as [|w [|w' toks]]; try (intros []).
  destruct (ok w) eqn:E; [|intros []].
  intros [<-|[]]. exists w. auto.
Qed.

Lemma rep_sound k r f :
  (forall toks m, In m (f toks) -> good rules k r toks m) ->
  forall n toks m, In m (rep f n toks) -> good rules k (Repeat r) toks m.
Proof.
  intros Hf. induction n as [|n IH]; intros toks m H.
  - destruct toks; simpl in H; [|destruct H].
    destruct H as [<-|[]]. repeat split; simpl; auto. constructor.
  - destruct toks as [|w toks]; simpl in H.
    + destruct H as [<-|[]]. repeat split; simpl; auto. constructor.
    + change (In m (flat_map
                      (fun '(p, s) => match p with
                                      | [] => []
                                      | _ => prod_app (f p) (rep f n s)
                                      end) (splits (w :: toks)))) in H.
      apply in_flat_map in H as [[p s] [Hs H]].
      apply splits_spec in Hs.
      destruct p as [|x p]; [destruct H|].
      destruct m as [zs ms].
      apply prod_app_spec in H as (xs & ks & ys & ls & Ha & Hb & -> & ->).
      apply Hf in Ha. apply IH in Hb.
      destruct Ha as (A1 & A2 & A3 & A4), Hb as (B1 & B2 & B3 & B4). simpl in *.
      repeat split; simpl.
      * now constructor.
      * now apply fits_all_app.
      * apply Forall_app. auto.
      * rewrite flat_map_app, A4, B4. symmetry. exact Hs.
Qed.

Lemma seq_enum_sound k f rs :
  Forall (fun r => forall toks m, In m (f r toks) -> good rules k r toks m) rs ->
  forall toks m, In m (seq_enum f rs toks) -> good rules k (Seq rs) toks m.
Proof.
  induction 1 as [|r rs Hr Hrs IH]; intros toks m H; simpl in H.
  - destruct toks; [|destruct H]. destruct H as [<-|[]].
    repeat split; simpl; auto. constructor.
  - apply in_flat_map in H as [[p s] [Hs H]]. apply splits_spec in Hs.
    destruct (quick r p && quick (Seq rs) s); [|destruct H].
    destruct (seq_enum f rs s) as [|b0 b] eqn:Eb; [destruct H|].
    destruct m as [zs ms].
    apply prod_app_spec in H as (xs & ks & ys & ls & Ha & Hb & -> & ->).
    apply Hr in Ha. rewrite <- Eb in Hb. apply IH in Hb.
    destruct Ha as (A1 & A2 & A3 & A4), Hb as (B1 & B2 & B3 & B4). simpl in *.
    repeat split; simpl.
    + now constructor.
    + now apply fits_all_app.
    + apply Forall_app. auto.
    + rewrite flat_map_app, A4, B4. symmetry. exact Hs.
Qed.

Lemma enum_rule_sound r :
  forall k toks m, In m (enum_rule sub k r toks) -> good rules k r toks m.
Proof.
  induction r as [ | n | s | re | rs IH | rs IH | r IH | r IH | n r IH | n r IH
                 | n r IH | n r IH | f r IH | r a IH | r IH | r IH ]
    using rule_rect_list; intros k toks m Hm; simpl in Hm.
  - destruct toks; [|destruct Hm]. destruct Hm as [<-|[]].
    repeat split; simpl; auto. constructor.
  - destruct toks as [|w toks]; [destruct Hm|].
    apply in_map_iff in Hm as [t [<- Ht]]. apply Hsub in Ht as (D & R & Y).
    repeat split; simpl.
    + constructor.
    + destruct t; simpl in R; [discriminate|]. injection R as ->.
      unfold fits. simpl. now rewrite String.eqb_refl.
    + auto.
    + rewrite app_nil_r. exact Y.
  - apply one_sound in Hm as (w & -> & Hw & ->). repeat split; simpl.
    + constructor.
    + unfold fits. simpl. now rewrite Hw.
    + repeat constructor.
  - apply one_sound in Hm as (w & -> & Hw & ->). repeat split; simpl.
    + constructor.
    + unfold fits. simpl. now rewrite Hw.
    + repeat constructor.
  - eapply seq_enum_sound; eauto.
    eapply Forall_impl; [|exact IH]. simpl. intros r Hr toks' m'. apply Hr.
  - apply in_flat_map in Hm as [r [Hin Hm]].
    rewrite Forall_forall in IH. apply (IH r Hin) in Hm.
    destruct Hm as (A1 & A2 & A3 & A4). repeat split; auto.
    econstructor; eauto.
  - eapply rep_sound; eauto.
  - apply in_flat_map in Hm as [[p s] [Hs Hm]]. apply splits_spec in Hs.
    destruct m as [zs ms].
    apply prod_app_spec in Hm as (xs & ks & ys & ls & Ha & Hb & -> & ->).
    apply IH in Ha. eapply rep_sound in Hb; [|intros; apply IH; eassumption].
    destruct Ha as (A1 & A2 & A3 & A4), Hb as (B1 & B2 & B3 & B4). simpl in *.
    repeat split; simpl.
    + now constructor.
    + now apply fits_all_app.
    + apply Forall_app. auto.
    + rewrite flat_map_app, A4, B4. symmetry. exact Hs.
  - apply IH in Hm. destruct Hm as (A1 & A2 & A3 & A4). repeat split; auto. now constructor.
  - apply IH in Hm. destruct Hm as (A1 & A2 & A3 & A4). repeat split; auto. now constructor.
  - apply IH in Hm. destruct Hm as (A1 & A2 & A3 & A4). repeat split; auto. now constructor.
  - apply IH in Hm. destruct Hm as (A1 & A2 & A3 & A4). repeat split; auto. now constructor.
  - apply IH in Hm. destruct Hm as (A1 & A2 & A3 & A4). repeat split; auto. now constructor.
  - apply IH in Hm. destruct Hm as (A1 & A2 & A3 & A4). repeat split; auto. now constructor.
  - apply one_sound in Hm as (w & -> & Hw & ->). repeat split; simpl.
    + constructor.
    + unfold fits. simpl. now rewrite Hw.
    + repeat constructor.
  - apply one_sound in Hm as (w & -> & Hw & ->). repeat split; simpl.
    + constructor.
    + unfold fits. simpl. now rewrite Hw.
    + repeat constructor.
Qed.
End Soundness.

Lemma enum_sound rules fuel :
  forall n toks t, In t (enum rules fuel n toks) ->
                   derives rules t /\ root t = Some n /\ yield t = toks.
Proof.
  induction fuel as [|fuel IH]; intros n toks t H; simpl in H; [destruct H|].
  destruct (lookup rules n) as [body|] eqn:L; [|destruct H].
  destruct (quick body toks); [|destruct H].
  apply in_map_iff in H as [[xs kids] [<- H]].
  apply (enum_rule_sound IH) in H. destruct H as (A1 & A2 & A3 & A4). simpl in *.
  repeat split; auto. econstructor; eauto.
Qed.

(** *** The quick tests never discard a match *)

Lemma fold_min_le_base rs a :
  fold_right (fun r' acc => Nat.min (min_len r') acc) a rs <= a.
Proof. induction rs as [|r rs IH]; simpl; lia. Qed.

Lemma fold_min_le_in rs a r :
  In r rs -> fold_right (fun r' acc => Nat.min (min_len r') acc) a rs <= min_len r.
Proof.
  induction rs as [|r' rs IH]; simpl; [intros []|].
  intros [->|H]; [lia|]. specialize (IH H). lia.
Qed.

Lemma choice_min_le r rs : In r rs -> min_len (Choice rs) <= min_len r.
Proof.
  destruct rs as [|r1 rs]; [intros []|].
  change (min_len (Choice (r1 :: rs)))
    with (fold_right (fun r' acc => Nat.min (min_len r') acc) (min_len r1) rs).
  intros [->|H].
  - apply fold_min_le_base.
  - now apply fold_min_le_in.
Qed.

Lemma expands_min_len k r xs : expands k r xs -> min_len r <= length xs.
Proof.
  induction 1.
  all: try (cbn [min_len length]; lia).
  all: try (cbn [min_len] in *; rewrite ?length_app; lia).
  - simpl. lia.
  - match goal with |- min_len (Seq (?r :: ?rs)) <= _ =>
      change (min_len (Seq (r :: rs))) with (min_len r + min_len (Seq rs)) end.
    rewrite length_app. lia.
  - match goal with H : In ?r ?rs |- _ => pose proof (choice_min_le r rs H) end. lia.
Qed.

Lemma yield_length kids :
  Forall nonnull kids -> length kids <= length (flat_map yield kids).
Proof.
  induction 1 as [|t kids Ht _ IH]; simpl; [lia|].
  rewrite length_app. unfold nonnull in Ht. destruct (yield t); [congruence|]. simpl. lia.
Qed.

Lemma fits_one x kids :
  fits_all [x] kids = true -> exists t, kids = [t] /\ fits x t = true.
Proof.
  destruct kids as [|t kids]; [discriminate|]. simpl.
  intros H. apply andb_true_iff in H as [H1 H2].
  destruct kids; [|discriminate]. now exists t.
Qed.

Lemma fits_str k s kids :
  fits_all [(AStr s, k)] kids = true -> kids = [Leaf (cps s)].
Proof.
  intros H. apply fits_one in H as (t & -> & H).
  unfold fits in H. simpl in H. destruct t; [|discriminate].
  apply lexeme_eqb_eq in H. now subst.
Qed.

Lemma lexeme_eqb_refl w : lexeme_eqb w w = true.
Proof. now apply lexeme_eqb_eq. Qed.

Lemma starts_ok_complete k r xs :
  expands k r xs ->
  forall kids z, fits_all xs kids = true -> Forall nonnull kids ->
                 starts_ok r (flat_map yield kids ++ z) = true.
Proof.
  induction 1; intros kids z F N; try reflexivity; try (simpl; now auto).
  - apply fits_str in F. subst kids. simpl. apply lexeme_eqb_refl.
  - cbn [starts_ok]. destruct (0 <? min_len r)%nat eqn:E; [|reflexivity].
    apply fits_all_split in F as (ks & ls & -> & F1 & F2).
    apply Forall_app in N as [N1 N2].
    rewrite flat_map_app, <- app_assoc. now apply IHexpands1.
  - cbn [starts_ok]. apply existsb_exists. exists r. split; [exact H|]. now apply IHexpands.
Qed.

Lemma mandatory_ok_complete k r xs :
  expands k r xs ->
  forall kids toks, fits_all xs kids = true -> incl (flat_map yield kids) toks ->
                    mandatory_ok r toks = true.
Proof.
  induction 1; intros kids toks F I; try reflexivity; try (simpl; now eauto).
  - apply fits_str in F. subst kids. cbn [mandatory_ok].
    apply existsb_exists. exists (cps s). split; [|apply lexeme_eqb_refl].
    apply I. simpl. now left.
  - apply fits_all_split in F as (ks & ls & -> & F1 & F2).
    rewrite flat_map_app in I. apply incl_app_inv in I as [I1 I2].
    change (mandatory_ok (Seq (r :: rs)) toks)
      with (mandatory_ok r toks && mandatory_ok (Seq rs) toks).
    apply andb_true_iff. split; eauto.
  - cbn [mandatory_ok]. apply existsb_exists. exists r. split; [exact H|].
    eapply IHexpands; eauto.
  - apply fits_all_split in F as (ks & ls & -> & F1 & F2).
    rewrite flat_map_app in I. apply incl_app_inv in I as [I1 I2].
    cbn [mandatory_ok]. eauto.
Qed.

Lemma quick_complete k r xs kids :
  expands k r xs -> fits_all xs kids = true -> Forall nonnull kids ->
  quick r (flat_map yield kids) = true.
Proof.
  intros X F N. unfold quick. rewrite !andb_true_iff. repeat split.
  - apply Nat.leb_le. pose proof (expands_min_len X). pose proof (yield_length N).
    rewrite (fits_all_length _ _ F) in *. lia.
  - rewrite <- (app_nil_r (flat_map yield kids)). eapply starts_ok_complete; eauto.
  - eapply mandatory_ok_complete; eauto. apply incl_refl.
Qed.

(** *** The enumeration returns every match *)

Section Completeness.
Variable sub : string -> list lexeme -> list tree.

Lemma covered_nonnull kids : Forall (covered sub) kids -> Forall nonnull kids.
Proof. apply Forall_impl. intros t [H _]. exact H. Qed.

Lemma rep_mono f n n' toks m : n <= n' -> In m (rep f n toks) -> In m (rep f n' toks).
Proof.
  revert n' toks m. induction n as [|n IH]; intros n' toks m L H.
  - destruct toks; simpl in H; [|destruct H]. destruct n'; exact H.
  - destruct toks as [|w toks]; [destruct n'; exact H|].
    destruct n' as [|n']; [lia|].
    cbn [rep] in H |- *.
    rewrite in_flat_map in H |- *. destruct H as [[p s] [Hs H]].
    exists (p, s). split; [exact Hs|].
    destruct p; [exact H|]. destruct m as [zs ms].
    apply prod_app_spec in H as (xs & ks & ys & ls & Ha & Hb & -> & ->).
    apply prod_app_spec. exists xs, ks, ys, ls. repeat split; auto.
    apply IH; [lia|exact Hb].
Qed.

Lemma one_complete a k ok w :
  ok w = true -> In ([(a, k)], [Leaf w]) (one a k ok [w]).
Proof. intros H. unfold one. rewrite H. now left. Qed.

Lemma enum_rule_complete k r xs :
  expands k r xs ->
  forall kids, fits_all xs kids = true -> Forall (covered sub) kids ->
               In (xs, kids) (enum_rule sub k r (flat_map yield kids)).
Proof.
  induction 1; intros kids F C.
  - destruct kids; [|discriminate]. now left.
  - apply fits_one in F as (t & -> & F).
    unfold fits in F. simpl in F. destruct t as [|m xs ks]; [discriminate|].
    apply String.eqb_eq in F. subst m.
    inversion C as [|? ? [N Ht] _]; subst.
    cbn [flat_map]. rewrite app_nil_r. cbn [enum_rule].
    destruct (yield (Node n xs ks)) eqn:Y; [now elim N|].
    apply in_map_iff. exists (Node n xs ks). split; [reflexivity|].
    now apply Ht.
  - apply fits_one in F as (t & -> & F).
    unfold fits in F. simpl in F. destruct t; [|discriminate].
    cbn [flat_map yield app enum_rule]. unfold one. cbn beta iota. rewrite F. now left.
  - apply fits_one in F as (t & -> & F).
    unfold fits in F. simpl in F. destruct t; [|discriminate].
    cbn [flat_map yield app enum_rule]. unfold one. cbn beta iota. rewrite F. now left.
  - apply fits_one in F as (t & -> & F).
    unfold fits in F. simpl in F. destruct t; [|discriminate].
    cbn [flat_map yield app enum_rule]. unfold one. cbn beta iota. rewrite F. now left.
  - apply fits_one in F as (t & -> & F).
    unfold fits in F. simpl in F. destruct t; [|discriminate].
    cbn [flat_map yield app enum_rule]. unfold one. cbn beta iota. rewrite F. now left.
  - destruct kids; [|discriminate]. now left.
  - apply fits_all_split in F as (ks & ls & -> & F1 & F2).
    apply Forall_app in C as [C1 C2].
    specialize (IHexpands1 ks F1 C1). specialize (IHexpands2 ls F2 C2).
    rewrite flat_map_app. cbn [enum_rule] in *. cbn [seq_enum].
    apply in_flat_map. exists (flat_map yield ks, flat_map yield ls).
    split; [now apply splits_spec|].
    rewrite (quick_complete H F1 (covered_nonnull C1)).
    rewrite (quick_complete H0 F2 (covered_nonnull C2)). cbn [andb].
    destruct (seq_enum (enum_rule sub k) rs (flat_map yield ls)) as [|b0 b] eqn:E;
      [destruct IHexpands2|].
    apply prod_app_spec. exists xs, ks, ys, ls. auto.
  - cbn [enum_rule]. apply in_flat_map. exists r. split; [exact H|]. now apply IHexpands.
  - destruct kids; [|discriminate]. cbn. now left.
  - apply fits_all_split in F as (ks & ls & -> & F1 & F2).
    apply Forall_app in C as [C1 C2].
    specialize (IHexpands1 ks F1 C1). specialize (IHexpands2 ls F2 C2).
    cbn [enum_rule] in *.
    destruct xs as [|x xs].
    + destruct ks; [|discriminate]. exact IHexpands2.
    + destruct ks as [|t ks]; [discriminate|].
      rewrite flat_map_app.
      remember (flat_map yield (t :: ks)) as y1 eqn:Y1.
      remember (flat_map yield ls) as y2 eqn:Y2.
      assert (N1 : y1 <> []).
      { subst y1. inversion C1 as [|? ? [N _] _]; subst. simpl.
        unfold nonnull in N. destruct (yield t); [congruence|discriminate]. }
      destruct y1 as [|w y1]; [congruence|].
      cbn [app length rep].
      apply in_flat_map. exists (w :: y1, y2). split; [now apply splits_spec|].
      apply prod_app_spec. exists (x :: xs), (t :: ks), ys, ls. repeat split; auto.
      eapply rep_mono; [|exact IHexpands2]. rewrite length_app. lia.
  - apply fits_all_split in F as (ks & ls & -> & F1 & F2).
    apply Forall_app in C as [C1 C2].
    specialize (IHexpands1 ks F1 C1). specialize (IHexpands2 ls F2 C2).
    cbn [enum_rule] in *. rewrite flat_map_app.
    apply in_flat_map. exists (flat_map yield ks, flat_map yield ls).
    split; [now apply splits_spec|].
    apply prod_app_spec. exists xs, ks, ys, ls. auto.
  - cbn [enum_rule]. now apply IHexpands.
  - cbn [enum_rule]. now apply IHexpands.
  - cbn [enum_rule]. now apply IHexpands.
  - cbn [enum_rule]. now apply IHexpands.
  - cbn [enum_rule]. now apply IHexpands.
  - cbn [enum_rule]. now apply IHexpands.
Qed.
End Completeness.

(** Induction over trees, with the hypothesis for every subtree. *)
Section TreeInduction.
Variable P : tree -> Prop.
Hypothesis HLeaf : forall w, P (Leaf w).
Hypothesis HNode : forall n xs kids, Forall P kids -> P (Node n xs kids).

Fixpoint tree_rect_list (t : tree) : P t :=
  match t with
  | Leaf w => HLeaf w
  | Node n xs kids =>
      HNode n xs
        ((fix all (ts : list tree) : Forall P ts :=
            match ts with
            | [] => Forall_nil P
            | t' :: ts' => Forall_cons t' (tree_rect_list t') (all ts')
            end) kids)
  end.
End TreeInduction.

Lemma lookup_in rules n body : lookup rules n = Some body -> In (n, body) rules.
Proof.
  induction rules as [|[m r] rules IH]; simpl; [discriminate|].
  destruct (String.eqb m n) eqn:E.
  - apply String.eqb_eq in E. subst m. intros H. injection H as ->. now left.
  - intros H. right. now apply IH.
Qed.

Lemma expands_mentions k r xs :
  expands k r xs -> forall m k', In (ASym m, k') xs -> mentions m r = true.
Proof.
  induction 1; intros m k' I; simpl in I; try tauto.
  - destruct I as [E|[]]. injection E as -> _. simpl. apply String.eqb_refl.
  - destruct I as [E|[]]. discriminate.
  - destruct I as [E|[]]. discriminate.
  - destruct I as [E|[]]. discriminate.
  - destruct I as [E|[]]. discriminate.
  - apply in_app_iff in I.
    change (mentions m (Seq (r :: rs))) with (mentions m r || mentions m (Seq rs)).
    apply orb_true_iff. destruct I; [left|right]; eauto.
  - cbn [mentions]. apply existsb_exists. exists r. split; eauto.
  - apply in_app_iff in I. destruct I; eauto.
  - apply in_app_iff in I. cbn [mentions]. destruct I; eauto.
  - cbn [mentions]. eauto.
  - cbn [mentions]. eauto.
  - cbn [mentions]. eauto.
  - cbn [mentions]. eauto.
  - cbn [mentions]. eauto.
  - cbn [mentions]. eauto.
Qed.

Lemma unit_syms_seq r rs :
  unit_syms (Seq (r :: rs))
  = (if min_len (Seq rs) =? 0 then unit_syms r else [])
      ++ (if min_len r =? 0 then unit_syms (Seq rs) else []).
Proof. reflexivity. Qed.

Lemma unit_syms_complete k r xs :
  expands k r xs -> forall m k', xs = [(ASym m, k')] -> In m (unit_syms r).
Proof.
  induction 1; intros m k' E; try discriminate.
  - injection E as -> _. now left.
  - rewrite unit_syms_seq. apply in_app_iff.
    pose proof (expands_min_len H) as L1. pose proof (expands_min_len H0) as L2.
    destruct xs as [|x xs].
    + right. cbn [length] in L1. replace (min_len r =? 0) with true
        by (symmetry; apply Nat.eqb_eq; lia). eauto.
    + left. simpl in E. injection E as -> E.
      apply app_eq_nil in E as [-> ->]. cbn [length] in L2.
      replace (min_len (Seq rs) =? 0) with true
        by (symmetry; apply Nat.eqb_eq; lia). eauto.
  - cbn [unit_syms]. apply in_flat_map. exists r. split; eauto.
  - cbn [unit_syms]. destruct xs as [|x xs]; [eauto|].
    simpl in E. injection E as -> E. apply app_eq_nil in E as [-> ->]. eauto.
  - cbn [unit_syms]. destruct xs as [|x xs].
    + specialize (IHexpands2 m k' E). exact IHexpands2.
    + simpl in E. injection E as -> E. apply app_eq_nil in E as [-> ->]. eauto.
  - cbn [unit_syms]. eauto.
  - cbn [unit_syms]. eauto.
  - cbn [unit_syms]. eauto.
  - cbn [unit_syms]. eauto.
  - cbn [unit_syms]. eauto.
  - cbn [unit_syms]. eauto.
Qed.

Lemma urank_le rules fuel n : urank rules fuel n <= fuel.
Proof.
  revert n. induction fuel as [|f IH]; intros n; simpl; [lia|].
  destruct (lookup rules n) as [body|]; [|lia].
  apply le_n_S. apply list_max_le. apply Forall_forall.
  intros x Hx. apply in_map_iff in Hx as [m [<- _]]. apply IH.
Qed.

Section WellFormed.
Variable rules : list (string * rule).
Variable top : string.
Variable F : nat.
Hypothesis Hwf : wf rules top F = true.

Lemma wf_rule n body :
  lookup rules n = Some body ->
  (n = top \/ 1 <= min_len body)
  /\ mentions top body = false
  /\ forall m, In m (unit_syms body) -> urank rules F m < urank rules F n.
Proof.
  intros L. apply lookup_in in L. unfold wf in Hwf.
  rewrite forallb_forall in Hwf. specialize (Hwf _ L). cbn beta iota in Hwf.
  rewrite !andb_true_iff in Hwf. destruct Hwf as [[A B] C].
  repeat split.
  - apply orb_true_iff in A as [A|A].
    + left. now apply String.eqb_eq.
    + right. now apply Nat.leb_le.
  - now apply negb_true_iff.
  - intros m Hm. rewrite forallb_forall in C. apply Nat.ltb_lt. now apply C.
Qed.

Lemma derives_nonnull t :
  derives rules t ->
  (root t <> Some top -> nonnull t)
  /\ (forall n xs kids, t = Node n xs kids -> Forall nonnull kids).
Proof.
  induction t as [w|n xs kids IH] using tree_rect_list; intros D.
  - split; [intros _; unfold nonnull; simpl; discriminate|intros; discriminate].
  - inversion D as [|n' body xs' kids' L X Fi Dk]; subst.
    destruct (wf_rule _ L) as (A & B & _).
    assert (K : Forall nonnull kids).
    { clear A. revert xs X Fi Dk D. generalize ctx0.
      intros k0 xs X Fi Dk _.
      assert (M : forall m k', In (ASym m, k') xs -> m <> top).
      { intros m k' I E. subst m.
        rewrite (expands_mentions X _ _ I) in B. discriminate. }
      clear X. revert xs Fi M. induction kids as [|t kids IHk]; intros xs Fi M.
      - constructor.
      - destruct xs as [|x xs]; [discriminate|]. simpl in Fi.
        apply andb_true_iff in Fi as [F1 F2].
        inversion IH as [|? ? IHt IHr]; subst.
        inversion Dk as [|? ? Dt Dr]; subst.
        constructor.
        + apply (proj1 (IHt Dt)). destruct t as [w|m ys ks]; [simpl; discriminate|].
          destruct x as [[m'| | |] k']; simpl in F1; try discriminate.
          unfold fits in F1. simpl in F1. apply String.eqb_eq in F1. subst m'.
          simpl. intros E. injection E as ->. eapply M; [left; reflexivity|reflexivity].
        + eapply IHk; eauto. intros m k' I. eapply M. right. exact I. }
    split.
    + intros R. assert (n <> top) by (intros ->; now apply R).
      destruct A as [A|A]; [contradiction|].
      pose proof (expands_min_len X) as L1. rewrite (fits_all_length _ _ Fi) in L1.
      destruct kids as [|t kids]; [simpl in L1; lia|].
      inversion K as [|? ? Kt _]; subst. unfold nonnull in *. simpl.
      destruct (yield t); [congruence|discriminate].
    + intros n0 xs0 kids0 E. injection E as <- <- <-. exact K.
Qed.

Lemma kids_nonnull n xs kids :
  derives rules (Node n xs kids) -> Forall nonnull kids.
Proof. intros D. eapply (proj2 (derives_nonnull D)). reflexivity. Qed.

Lemma in_yield_le kid kids :
  In kid kids -> length (yield kid) <= length (flat_map yield kids).
Proof.
  induction kids as [|t kids IH]; simpl; [intros []|].
  rewrite length_app. intros [->|H]; [lia|]. specialize (IH H). lia.
Qed.

Lemma sole_kid kid kids :
  Forall nonnull kids -> In kid kids ->
  length (yield kid) = length (flat_map yield kids) -> kids = [kid].
Proof.
  intros N I E. destruct kids as [|t kids]; [destruct I|].
  inversion N as [|? ? Nt Nk]; subst. simpl in E. rewrite length_app in E.
  destruct I as [->|I].
  - pose proof (yield_length Nk). destruct kids; [reflexivity|]. simpl in *. lia.
  - pose proof (in_yield_le _ _ I). unfold nonnull in Nt.
    destruct (yield t); [congruence|]. simpl in E. lia.
Qed.

Hypothesis HF : 0 < F.

Lemma kid_measure n xs kids kid :
  derives rules (Node n xs kids) -> In kid kids -> mu rules F kid < mu rules F (Node n xs kids).
Proof.
  intros D I. pose proof (kids_nonnull D) as N.
  inversion D as [|n' body xs' kids' L X Fi Dk]; subst.
  pose proof (in_yield_le _ _ I) as Le. unfold mu. cbn [yield root].
  assert (R : forall t, match root t with Some m => urank rules F m | None => 0 end <= F).
  { intros t. destruct (root t); [apply urank_le|lia]. }
  specialize (R kid).
  destruct (Nat.eq_dec (length (yield kid)) (length (flat_map yield kids))) as [E|NE].
  - rewrite E. apply (@sole_kid kid kids N I) in E. subst kids.
    apply Nat.add_lt_mono_l.
    pose proof (fits_all_length _ _ Fi) as Len.
    destruct xs as [|x [|x' xs]]; try discriminate Len.
    simpl in Fi. rewrite andb_true_r in Fi.
    assert (P : 0 < urank rules F n).
    { destruct F; [lia|]. simpl. rewrite L. lia. }
    destruct kid as [w|m ys ks]; [exact P|].
    destruct x as [[m'| | |] k']; unfold fits in Fi; simpl in Fi; try discriminate.
    apply String.eqb_eq in Fi. subst m'. simpl.
    destruct (wf_rule _ L) as (_ & _ & U). apply U.
    eapply unit_syms_complete; eauto.
  - assert (length (yield kid) < length (flat_map yield kids)) by lia. nia.
Qed.

Theorem enum_complete fuel :
  forall t n, derives rules t -> root t = Some n -> mu rules F t < fuel ->
              In t (enum rules fuel n (yield t)).
Proof.
  induction fuel as [|fuel IH]; intros t n D R M; [lia|].
  destruct t as [w|n' xs kids]; [discriminate|]. injection R as ->.
  pose proof (kids_nonnull D) as N.
  inversion D as [|n' body xs' kids' L X Fi Dk]; subst.
  cbn [enum yield]. rewrite L.
  rewrite (quick_complete X Fi N).
  apply in_map_iff. exists (xs, kids). split; [reflexivity|].
  apply enum_rule_complete; auto.
  rewrite Forall_forall in *. intros kid I. split; [now apply N|].
  intros m Rm. apply IH; auto.
  pose proof (@kid_measure n xs kids kid D I). lia.
Qed.
End WellFormed.

(** ** Parses are what the enumeration returns *)

Lemma java_wf : wf java_rules "program" (length java_rules) = true.
Proof. vm_compute. reflexivity. Qed.

Lemma mu_levels rules t :
  mu rules (length rules) t < levels rules (yield t).
Proof.
  unfold mu, levels.
  assert (R : match root t with
              | Some n => urank rules (length rules) n
              | None => 0
              end <= length rules).
  { destruct (root t); [apply urank_le|lia]. }
  lia.
Qed.

Section ParseTrees.
Variable g : grammar.
Variable top : string.
Hypothesis Hwf : wf (g_rules g) top (length (g_rules g)) = true.
Hypothesis Hne : 0 < length (g_rules g).

Lemma parse_trees_spec start toks t :
  parses g start toks t <-> In t (parse_trees g start toks).
Proof.
  unfold parses, parse_trees. rewrite filter_In. split.
  - intros (D & R & Y & C). split; [|exact C]. subst toks.
    eapply enum_complete; eauto. apply mu_levels.
  - intros [I C]. apply enum_sound in I as (D & R & Y). auto.
Qed.

Lemma lexed_parse_trees_spec start toks t :
  lexed_parses g start toks t <-> In t (lexed_parse_trees g start toks).
Proof.
  unfold lexed_parses, lexed_parse_trees. rewrite filter_In, parse_trees_spec. tauto.
Qed.
End ParseTrees.

Lemma java_parses start toks t :
  parses java start toks t <-> In t (parse_trees java start toks).
Proof. apply (@parse_trees_spec java "program" java_wf). vm_compute. lia. Qed.

Lemma java_lexed_parses start toks t :
  lexed_parses java start toks t <-> In t (lexed_parse_trees java start toks).
Proof. apply (@lexed_parse_trees_spec java "program" java_wf). vm_compute. lia. Qed.

(** ** The identifier token *)

Section RegexFacts.
Variable uni : uprop -> codepoint -> bool.

Lemma re_match_void_cat r w : re_match uni (RCat RVoid r) w = false.
Proof. induction w as [|x w IH]; simpl; auto. Qed.

Lemma re_match_void w : re_match uni RVoid w = false.
Proof. induction w as [|x w IH]; simpl; auto. Qed.

Lemma re_match_alt a b w :
  re_match uni (RAlt a b) w = re_match uni a w || re_match uni b w.
Proof. revert a b. induction w as [|x w IH]; intros a b; simpl; auto. Qed.

Lemma re_match_class_star items w :
  re_match uni (RCat REps (RStar (RSet items))) w = forallb (class_has uni items) w.
Proof.
  induction w as [|x w IH]; [reflexivity|].
  cbn [re_match forallb]. cbn [deriv nullable].
  rewrite re_match_alt. cbn [deriv]. unfold of_bool at 1.
  fold RVoid. rewrite re_match_void_cat. cbn [orb].
  destruct (class_has uni items x); cbn [of_bool andb].
  - exact IH.
  - apply re_match_void_cat.
Qed.

Lemma re_match_class_then_star first rest w :
  re_match uni (RCat (RSet first) (RStar (RSet rest))) w
  = match w with
    | [] => false
    | x :: w' => class_has uni first x && forallb (class_has uni rest) w'
    end.
Proof.
  destruct w as [|x w]; [reflexivity|].
  cbn [re_match deriv nullable].
  destruct (class_has uni first x); cbn [of_bool andb].
  - apply re_match_class_star.
  - apply re_match_void_cat.
Qed.
End RegexFacts.

Lemma forallb_pointwise {A : Type} (f g : A -> bool) (l : list A) :
  (forall x, f x = g x) -> forallb f l = forallb g l.
Proof. intros E. induction l as [|x l IH]; simpl; [reflexivity|]. now rewrite E, IH. Qed.

(** C7 (as amended): a string is matched by the identifier token exactly
    when its first character is XID_Start, [_] or [$] and each later one is
    XID_Continue, U+00A2, [_] or [$]. *)
Theorem identifier_token_shape (w : lexeme) :
  re_match unicode Re.identifier w = identifier_shape w.
Proof.
  unfold Re.identifier. rewrite re_match_class_then_star.
  destruct w as [|x w]; [reflexivity|]. cbn [identifier_shape]. f_equal.
  - unfold ident_start, class_has. cbn [existsb citem_has].
    now rewrite orb_false_r, !orb_assoc.
  - apply forallb_pointwise. intros y. unfold ident_part, class_has. cbn [existsb citem_has].
    now rewrite orb_false_r, !orb_assoc.
Qed.

(** C7 (as stated) fails: the string [_] followed by the cent sign is
    matched by the identifier token, and the cent sign is none of
    XID_Continue, [_] and [$]. *)
Lemma identifier_token_cent_sign :
  re_match unicode Re.identifier [c "_"; 162%N] = true
  /\ claimed_identifier [c "_"; 162%N] = false
  /\ unicode XID_Continue 162%N = false.
Proof. vm_compute. auto. Qed.

(** ** Supertypes *)

Lemma kind_eqb_refl k : kind_eqb k k = true.
Proof. destruct k; simpl; apply String.eqb_refl. Qed.

Lemma common_in k l1 l2 : In k l1 -> In k l2 -> In k (common l1 l2).
Proof.
  intros H1 H2. apply filter_In. split; [exact H1|].
  apply existsb_exists. exists k. split; [exact H2|apply kind_eqb_refl].
Qed.

(** C4 (as amended): two distinct supertypes list no node kind in common,
    except that [expression] and [statement] both list [switch_expression]. *)
Theorem supertypes_share_only_switch_expression (s1 s2 : string) (k : kind) :
  In s1 (supertype_names java) -> In s2 (supertype_names java) -> s1 <> s2 ->
  In k (direct_members java_rules s1) -> In k (direct_members java_rules s2) ->
  k = Named "switch_expression"
  /\ (s1 = "expression" /\ s2 = "statement" \/ s1 = "statement" /\ s2 = "expression").
Proof.
  intros H1 H2 N K1 K2. pose proof (common_in _ _ _ K1 K2) as C. clear K1 K2.
  cbv [supertype_names java g_supertypes flat_map app] in H1, H2.
  repeat (destruct H1 as [<-|H1]; [|]); try (destruct H1).
  all: repeat (destruct H2 as [<-|H2]; [|]); try (destruct H2).
  all: try (exfalso; apply N; reflexivity).
  all: vm_compute in C; try (now destruct C).
  all: destruct C as [<-|[]]; split; [reflexivity|]; auto.
Qed.

(** The one shared kind, at [expression] and [statement]. *)
Lemma supertypes_share_only_switch_expression_witness :
  In "expression" (supertype_names java) /\ In "statement" (supertype_names java)
  /\ "expression" <> "statement"
  /\ In (Named "switch_expression") (direct_members java_rules "expression")
  /\ In (Named "switch_expression") (direct_members java_rules "statement")
  /\ (Named "switch_expression" = Named "switch_expression"
      /\ ("expression" = "expression" /\ "statement" = "statement"
          \/ "expression" = "statement" /\ "statement" = "expression")).
Proof.
  assert (A : In "expression" (supertype_names java)) by (vm_compute; auto).
  assert (B : In "statement" (supertype_names java)) by (vm_compute; auto 10).
  assert (N : "expression" <> "statement") by discriminate.
  assert (K1 : In (Named "switch_expression") (direct_members java_rules "expression"))
    by (vm_compute; auto 20).
  assert (K2 : In (Named "switch_expression") (direct_members java_rules "statement"))
    by (vm_compute; auto 30).
  refine (conj A (conj B (conj N (conj K1 (conj K2 _))))).
  exact (@supertypes_share_only_switch_expression
           "expression" "statement" (Named "switch_expression") A B N K1 K2).
Defined.

(** C4 (as stated) fails: [switch_expression] is listed by the two
    distinct supertypes [expression] and [statement]. *)
Lemma switch_expression_in_two_supertypes :
  In "expression" (supertype_names java) /\ In "statement" (supertype_names java)
  /\ "expression" <> "statement"
  /\ In (Named "switch_expression") (direct_members java_rules "expression")
  /\ In (Named "switch_expression") (direct_members java_rules "statement").
Proof.
  repeat split; try discriminate; vm_compute; auto 30.
Qed.

(** ** Reading productions off trees *)

Lemma expands_steps_of k r xs : expands k r xs -> incl xs (steps_of k r).
Proof.
  induction 1; cbn [steps_of flat_map] in *;
    first [ apply incl_refl
          | assumption
          | apply incl_nil_l
          | apply incl_app; [apply incl_appl|apply incl_appr]; assumption
          | apply incl_app; assumption
          | idtac ].
  intros x Hx. apply in_flat_map. exists r. split; [exact H|]. now apply IHexpands.
Qed.

Lemma fits_sym_root n k t : fits (ASym n, k) t = true -> root t = Some n.
Proof.
  unfold fits. simpl. destruct t as [w|m xs ks]; [discriminate|].
  intros H. apply String.eqb_eq in H. now subst.
Qed.

Lemma fits_all_in xs kids kid :
  fits_all xs kids = true -> In kid kids -> exists x, In x xs /\ fits x kid = true.
Proof.
  revert kids. induction xs as [|x xs IH]; intros [|t kids] H I; simpl in *;
    try discriminate; try contradiction.
  apply andb_true_iff in H as [H1 H2]. destruct I as [->|I].
  - exists x. auto.
  - destruct (IH _ H2 I) as (y & Hy & Fy). exists y. auto.
Qed.

Lemma in_field_in f xs kids kid :
  fits_all xs kids = true -> In kid (in_field f xs kids) ->
  exists x, In x xs /\ c_field (snd x) = Some f /\ fits x kid = true.
Proof.
  revert kids. induction xs as [|x xs IH]; intros [|t kids] H I; simpl in *;
    try discriminate; try contradiction.
  apply andb_true_iff in H as [H1 H2].
  destruct (c_field (snd x)) as [f'|] eqn:E.
  - destruct (String.eqb f' f) eqn:Ef.
    + apply String.eqb_eq in Ef. subst f'. destruct I as [->|I].
      * exists x. auto.
      * destruct (IH _ H2 I) as (y & Hy & Fy). exists y. tauto.
    + destruct (IH _ H2 I) as (y & Hy & Fy). exists y. tauto.
  - destruct (IH _ H2 I) as (y & Hy & Fy). exists y. tauto.
Qed.

(** What a node of a given rule is made of. *)
Lemma derives_node rules n xs kids :
  derives rules (Node n xs kids) ->
  exists body, lookup rules n = Some body /\ expands ctx0 body xs
               /\ fits_all xs kids = true /\ Forall (derives rules) kids.
Proof. intros D. inversion D; subst. eauto. Qed.

(** ** Assignment targets *)

(** C10: in every assignment_expression node, what stands in the field
    [left] is an identifier, a reserved identifier, a field_access or an
    array_access. *)
Theorem assignment_left_is_restricted (t k : tree) :
  derives java_rules t -> root t = Some "assignment_expression" ->
  In k (field_children "left" t) ->
  root k = Some "identifier" \/ root k = Some "_reserved_identifier"
  \/ root k = Some "field_access" \/ root k = Some "array_access".
Proof.
  intros D R I. destruct t as [w|n xs kids]; [discriminate|].
  injection R as ->. apply derives_node in D as (body & L & X & Fi & _).
  vm_compute in L. injection L as <-.
  apply expands_steps_of in X. cbn [field_children] in I.
  destruct (@in_field_in "left" xs kids k Fi I) as (x & Hx & Fx & Ft).
  apply X in Hx. vm_compute in Hx.
  repeat (destruct Hx as [<-|Hx]; [try discriminate Fx|]); try (destruct Hx).
  all: apply fits_sym_root in Ft; auto.
Qed.

(** In [x = y] the left field holds the identifier [x]. *)
Lemma assignment_left_is_restricted_witness :
  derives java_rules assignment_tree
  /\ root assignment_tree = Some "assignment_expression"
  /\ In (hd (Leaf []) (kids_of assignment_tree)) (field_children "left" assignment_tree)
  /\ (root (hd (Leaf []) (kids_of assignment_tree)) = Some "identifier"
      \/ root (hd (Leaf []) (kids_of assignment_tree)) = Some "_reserved_identifier"
      \/ root (hd (Leaf []) (kids_of assignment_tree)) = Some "field_access"
      \/ root (hd (Leaf []) (kids_of assignment_tree)) = Some "array_access").
Proof.
  assert (P : parses java "assignment_expression" (map cps ["x"; "="; "y"]) assignment_tree).
  { apply java_parses. vm_compute. auto. }
  destruct P as (D & R & _).
  assert (I : In (hd (Leaf []) (kids_of assignment_tree))
                 (field_children "left" assignment_tree)) by (vm_compute; auto).
  refine (conj D (conj R (conj I _))).
  exact (@assignment_left_is_restricted assignment_tree _ D R I).
Defined.

Lemma java_derivations t n :
  derives java_rules t -> root t = Some n ->
  In t (enum java_rules (levels java_rules (yield t)) n (yield t)).
Proof.
  intros D R.
  apply (@enum_complete java_rules "program" (length java_rules) java_wf);
    [vm_compute; lia|exact D|exact R|apply mu_levels].
Qed.

Lemma repeat_sym_steps k n xs :
  expands k (Repeat (Sym n)) xs -> Forall (fun x => x = (ASym n, k)) xs.
Proof.
  remember (Repeat (Sym n)) as r eqn:E. induction 1; try discriminate.
  - constructor.
  - injection E as ->. apply Forall_app. split; [|now apply IHexpands2].
    inversion H; subst. repeat constructor.
Qed.

(** ** Switch blocks *)

(** What a switch block is made of: its braces, and subtrees of one rule. *)
Lemma switch_block_steps xs :
  expands ctx0
    (Seq [Str "{";
          Choice [Repeat (Sym "switch_block_statement_group"); Repeat (Sym "switch_rule")];
          Str "}"]) xs ->
  exists s, forall x, In x xs ->
                      fst x = AStr "{" \/ fst x = AStr "}" \/ fst x = ASym s.
Proof.
  intros X.
  inversion X as [| | | | | | |? ? ? xs1 ys1 X1 X2| | | | | | | | | |]; subst.
  inversion X1; subst.
  inversion X2 as [| | | | | | |? ? ? xs2 ys2 X3 X4| | | | | | | | | |]; subst.
  inversion X4 as [| | | | | | |? ? ? xs3 ys3 X5 X6| | | | | | | | | |]; subst.
  inversion X5; subst. inversion X6; subst.
  inversion X3 as [| | | | | | | |? r ? ? I X7| | | | | | | | |]; subst.
  assert (S : exists s, Forall (fun x => x = (ASym s, ctx0)) xs2).
  { destruct I as [<-|[<-|[]]]; eexists; eapply repeat_sym_steps; eauto. }
  destruct S as [s S]. exists s. intros x Hx.
  rewrite Forall_forall in S. simpl in Hx.
  destruct Hx as [<-|Hx]; [now left|].
  apply in_app_iff in Hx as [Hx|[<-|[]]].
  - right. right. now rewrite (S _ Hx).
  - right. now left.
Qed.

(** C6: no switch_block node has both a switch_block_statement_group and a
    switch_rule among its subtrees. *)
Theorem switch_block_is_not_mixed (t : tree) :
  derives java_rules t -> root t = Some "switch_block" ->
  ~ (has_child "switch_block_statement_group" t /\ has_child "switch_rule" t).
Proof.
  intros D R [(k1 & I1 & R1) (k2 & I2 & R2)].
  destruct t as [w|n xs kids]; [discriminate|]. injection R as ->.
  apply derives_node in D as (body & L & X & Fi & _).
  vm_compute in L. injection L as <-.
  apply switch_block_steps in X as [s S]. cbn [kids_of] in I1, I2.
  assert (K : forall k m, In k kids -> root k = Some m -> m = s).
  { intros k m I Rk. destruct (fits_all_in _ _ _ Fi I) as (x & Hx & Fx).
    destruct x as [a kx]. destruct (S _ Hx) as [E|[E|E]]; simpl in E; subst a.
    - destruct k; [discriminate|]. discriminate.
    - destruct k; [discriminate|]. discriminate.
    - apply fits_sym_root in Fx. congruence. }
  pose proof (K _ _ I1 R1). pose proof (K _ _ I2 R2). congruence.
Qed.

(** The block [{ case 1 : ; }] holds a group and no rule. *)
Lemma switch_block_is_not_mixed_witness :
  derives java_rules grouped_block /\ root grouped_block = Some "switch_block"
  /\ ~ (has_child "switch_block_statement_group" grouped_block
        /\ has_child "switch_rule" grouped_block).
Proof.
  assert (P : parses java "switch_block" (map cps ["{"; "case"; "1"; ":"; ";"; "}"])
                     grouped_block).
  { apply java_parses. vm_compute. auto. }
  destruct P as (D & R & _).
  refine (conj D (conj R _)).
  exact (@switch_block_is_not_mixed grouped_block D R).
Defined.

(** A block that mixes a colon-labelled group with an arrow rule has no
    derivation from [switch_block]; each form alone has. *)
Lemma mixed_switch_block_is_rejected :
  (forall t, derives java_rules t -> root t = Some "switch_block" ->
             yield t <> map cps ["{"; "case"; "1"; ":"; ";"; "default"; "->"; ";"; "}"])
  /\ (exists t, derives java_rules t /\ root t = Some "switch_block"
                /\ yield t = map cps ["{"; "case"; "1"; ":"; ";"; "default"; ":"; ";"; "}"])
  /\ (exists t, derives java_rules t /\ root t = Some "switch_block"
                /\ yield t = map cps ["{"; "case"; "1"; "->"; "f"; "("; ")"; ";";
                                      "default"; "->"; "g"; "("; ")"; ";"; "}"]).
Proof.
  split; [|split].
  - intros t D R Y. pose proof (java_derivations D R) as I. rewrite Y in I.
    assert (E : enum java_rules
                  (levels java_rules
                     (map cps ["{"; "case"; "1"; ":"; ";"; "default"; "->"; ";"; "}"]))
                  "switch_block"
                  (map cps ["{"; "case"; "1"; ":"; ";"; "default"; "->"; ";"; "}"]) = [])
      by (vm_compute; reflexivity).
    rewrite E in I. exact I.
  - pose (l := enum java_rules 30 "switch_block"
                 (map cps ["{"; "case"; "1"; ":"; ";"; "default"; ":"; ";"; "}"])).
    assert (I : In (hd (Leaf []) l) l) by (vm_compute; auto).
    apply enum_sound in I. eauto.
  - pose (l := enum java_rules 30 "switch_block"
                 (map cps ["{"; "case"; "1"; "->"; "f"; "("; ")"; ";";
                           "default"; "->"; "g"; "("; ")"; ";"; "}"])).
    assert (I : In (hd (Leaf []) l) l) by (vm_compute; auto).
    apply enum_sound in I. eauto.
Qed.

(** ** The children of [program] *)




(** ** Reading the parses of an input *)

Lemma map_agree {A B : Type} (f g : A -> B) (l : list A) (x : A) :
  map f l = map g l -> In x l -> f x = g x.
Proof.
  induction l as [|y l IH]; simpl; [intros _ []|].
  intros E [->|I]; injection E as E1 E2; auto.
Qed.

Lemma only_syntax_tree start toks e t :
  map (syntax_tree java) (parse_trees java start toks) = [e] ->
  parses java start toks t -> syntax_tree java t = e.
Proof.
  intros E P. apply java_parses in P. apply (in_map (syntax_tree java)) in P.
  rewrite E in P. destruct P as [<-|[]]. reflexivity.
Qed.

Lemma some_parse start toks e :
  map (syntax_tree java) (parse_trees java start toks) = [e] ->
  exists t, parses java start toks t.
Proof.
  intros E. destruct (parse_trees java start toks) as [|t l] eqn:P; [discriminate|].
  exists t. apply java_parses. rewrite P. now left.
Qed.



(** ** Precedence levels *)



(** ** Associativity *)

Lemma same_level_pairs_in o1 o2 p :
  In (o1, p) binary_operators -> In (o2, p) binary_operators ->
  In (o1, o2) same_level_pairs.
Proof.
  intros I1 I2. unfold same_level_pairs.
  apply in_flat_map. exists (o1, p). split; [exact I1|].
  apply in_flat_map. exists (o2, p). split; [exact I2|].
  rewrite Z.eqb_refl. now left.
Qed.

Lemma same_level_pairs_parse :
  map (fun o => map (syntax_tree java) (parse_trees java "expression" (same_level_pair o)))
      same_level_pairs
  = map (fun o => [left_nested o]) same_level_pairs.
Proof. vm_compute. reflexivity. Qed.

Lemma nested_assignment_parses :
  map (syntax_tree java)
      (parse_trees java "expression" (map cps ["x"; "="; "y"; "="; "z"]))
  = [[assignment None (ident "left" "x") "="
        (assignment (Some "right") (ident "left" "y") "=" (ident "right" "z"))]].
Proof. vm_compute. reflexivity. Qed.

Lemma nested_ternary_parses :
  map (syntax_tree java)
      (parse_trees java "expression"
         (map cps ["a"; "?"; "b"; ":"; "c"; "?"; "d"; ":"; "e"]))
  = [[ternary None (ident "condition" "a") (ident "consequence" "b")
        (ternary (Some "alternative") (ident "condition" "c")
           (ident "consequence" "d") (ident "alternative" "e"))]].
Proof. vm_compute. reflexivity. Qed.

(** C3: every binary operator is marked left-associative and two operators
    of one level nest to the left, as in [a - b - c]; assignment and the
    conditional are marked right-associative and nest to the right. *)
Theorem associativity :
  (forall op m, In (op, m) (operator_marks java_rules "binary_expression") ->
                exists p, m = Some (p, Some LeftAssoc))
  /\ rule_mark java_rules "assignment_expression" = Some (PREC.ASSIGN, Some RightAssoc)
  /\ rule_mark java_rules "ternary_expression" = Some (PREC.TERNARY, Some RightAssoc)
  /\ (forall o1 o2 p t,
        In (o1, p) binary_operators -> In (o2, p) binary_operators ->
        parses java "expression" (same_level_pair (o1, o2)) t ->
        syntax_tree java t = left_nested (o1, o2))
  /\ (forall o1 o2 p,
        In (o1, p) binary_operators -> In (o2, p) binary_operators ->
        exists t, parses java "expression" (same_level_pair (o1, o2)) t)
  /\ (forall t, parses java "expression" (map cps ["a"; "-"; "b"; "-"; "c"]) t ->
                syntax_tree java t
                = [binary None (binary (Some "left") (ident "left" "a") "-" (ident "right" "b"))
                          "-" (ident "right" "c")])
  /\ (forall t, parses java "expression" (map cps ["x"; "="; "y"; "="; "z"]) t ->
                syntax_tree java t
                = [assignment None (ident "left" "x") "="
                     (assignment (Some "right") (ident "left" "y") "=" (ident "right" "z"))])
  /\ (exists t, parses java "expression" (map cps ["x"; "="; "y"; "="; "z"]) t)
  /\ (forall t, parses java "expression"
                       (map cps ["a"; "?"; "b"; ":"; "c"; "?"; "d"; ":"; "e"]) t ->
                syntax_tree java t
                = [ternary None (ident "condition" "a") (ident "consequence" "b")
                     (ternary (Some "alternative") (ident "condition" "c")
                        (ident "consequence" "d") (ident "alternative" "e"))])
  /\ (exists t, parses java "expression"
                       (map cps ["a"; "?"; "b"; ":"; "c"; "?"; "d"; ":"; "e"]) t).
Proof.
  assert (L : forall o1 o2 p,
             In (o1, p) binary_operators -> In (o2, p) binary_operators ->
             map (syntax_tree java) (parse_trees java "expression" (same_level_pair (o1, o2)))
             = [left_nested (o1, o2)]).
  { intros o1 o2 p I1 I2.
    exact (@map_agree _ _ _ _ same_level_pairs (o1, o2) same_level_pairs_parse
             (@same_level_pairs_in o1 o2 p I1 I2)). }
  split.
  { intros op m I.
    assert (E : operator_marks java_rules "binary_expression"
                = map (fun '(op, p) => (op, Some (p, Some LeftAssoc))) binary_operators)
      by (vm_compute; reflexivity).
    rewrite E in I. apply in_map_iff in I as [[op' p] [E' _]].
    injection E' as <- <-. now exists p. }
  split; [reflexivity|]. split; [reflexivity|].
  split; [intros o1 o2 p t I1 I2; apply only_syntax_tree; eapply L; eauto|].
  split; [intros o1 o2 p I1 I2; eapply some_parse; eapply L; eauto|].
  split.
  { intros t. apply only_syntax_tree.
    apply (L "-" "-" PREC.ADD); cbv [binary_operators]; simpl; auto 12. }
  split; [intros t; apply only_syntax_tree, nested_assignment_parses|].
  split; [eapply some_parse, nested_assignment_parses|].
  split; [intros t; apply only_syntax_tree, nested_ternary_parses|].
  eapply some_parse, nested_ternary_parses.
Qed.

(** ** Reserved identifiers *)

Lemma tokens_of_node m x w n xs kids :
  fits_all xs kids = true ->
  In (m, x, w) (tokens (Node n xs kids)) ->
  (m = n /\ In x xs /\ fits x (Leaf w) = true)
  \/ exists kid, In kid kids /\ In (m, x, w) (tokens kid).
Proof.
  cbn [tokens]. revert kids.
  induction xs as [|y xs IH]; intros [|k kids] F I; simpl in *;
    try discriminate; try contradiction.
  apply andb_true_iff in F as [F1 F2]. apply in_app_iff in I as [I|I].
  - destruct k as [v|k ys ks].
    + destruct I as [E|[]]. injection E as <- <- <-. left. auto.
    + right. exists (Node k ys ks). auto.
  - destruct (IH _ F2 I) as [(E & Hx & Fx)|(kid & Hk & Ht)].
    + left. auto.
    + right. exists kid. auto.
Qed.

(** Every token of a derivation tree stands at a position of its rule. *)
Lemma tokens_steps rules t :
  derives rules t ->
  forall m x w, In (m, x, w) (tokens t) ->
                exists body, lookup rules m = Some body
                             /\ In x (steps_of ctx0 body) /\ fits x (Leaf w) = true.
Proof.
  induction t as [v|n xs kids IH] using tree_rect_list; intros D m x w I.
  - destruct I.
  - apply derives_node in D as (body & L & X & Fi & Dk).
    destruct (@tokens_of_node _ _ _ _ _ _ Fi I) as [(-> & Hx & Fx)|(kid & Hk & Ht)].
    + exists body. split; [exact L|]. split; [|exact Fx].
      apply (expands_steps_of X). exact Hx.
    + rewrite Forall_forall in IH, Dk. eapply IH; eauto.
Qed.






(** ** String interpolation *)




(** * Further properties of the grammar *)

(** ** What matching a regular expression means *)

Lemma bool_eq_iff (a b : bool) : (a = true <-> b = true) -> a = b.
Proof.
  destruct a, b; intros [H1 H2]; try reflexivity;
    [symmetry; now apply H1 | now apply H2].
Qed.

Section RegexSemantics.
Variable uni : uprop -> codepoint -> bool.

Lemma re_match_eps w : re_match uni REps w = true <-> w = [].
Proof.
  destruct w as [|x w]; simpl; [tauto|].
  rewrite re_match_void. split; discriminate.
Qed.

Lemma re_match_of_bool b w :
  re_match uni (of_bool b) w = b && match w with [] => true | _ => false end.
Proof.
  destruct b; simpl.
  - destruct w; [reflexivity|]. simpl. apply re_match_void.
  - apply re_match_void.
Qed.

Lemma re_match_cat r1 r2 w :
  re_match uni (RCat r1 r2) w = true
  <-> exists u v, w = u ++ v /\ re_match uni r1 u = true /\ re_match uni r2 v = true.
Proof.
  revert r1. induction w as [|x w IH]; intros r1.
  - simpl. rewrite andb_true_iff. split.
    + intros [A B]. exists [], []. auto.
    + intros (u & v & E & A & B). symmetry in E. apply app_eq_nil in E as [-> ->]. auto.
  - simpl. destruct (nullable r1) eqn:N.
    + rewrite re_match_alt, orb_true_iff, IH. split.
      * intros [(u & v & -> & A & B)|B].
        -- exists (x :: u), v. auto.
        -- exists [], (x :: w). auto.
      * intros (u & v & E & A & B). destruct u as [|y u].
        -- simpl in E. subst v. right. exact B.
        -- injection E as <- ->. left. exists u, v. auto.
    + rewrite IH. split.
      * intros (u & v & -> & A & B). exists (x :: u), v. auto.
      * intros (u & v & E & A & B). destruct u as [|y u].
        -- simpl in A. congruence.
        -- injection E as <- ->. exists u, v. auto.
Qed.

Lemma re_match_cat_app r1 r2 u v :
  re_match uni r1 u = true -> re_match uni r2 v = true -> re_match uni (RCat r1 r2) (u ++ v) = true.
Proof. intros A B. apply re_match_cat. eauto. Qed.

Lemma re_match_chr x w : re_match uni (RChr x) w = true <-> w = [x].
Proof.
  destruct w as [|y w]; simpl; [split; discriminate|].
  rewrite re_match_of_bool, andb_true_iff, N.eqb_eq.
  split.
  - intros [-> E]. destruct w; [reflexivity|discriminate].
  - intros E. injection E as -> ->. auto.
Qed.

Lemma re_match_set items w :
  re_match uni (RSet items) w = true <-> exists x, w = [x] /\ class_has uni items x = true.
Proof.
  destruct w as [|y w]; simpl.
  - split; [discriminate|]. intros (x & E & _). discriminate.
  - rewrite re_match_of_bool, andb_true_iff. split.
    + intros [A E]. destruct w; [|discriminate]. eauto.
    + intros (x & E & A). injection E as -> ->. auto.
Qed.

Lemma re_match_nset items w :
  re_match uni (RNSet items) w = true <-> exists x, w = [x] /\ class_has uni items x = false.
Proof.
  destruct w as [|y w]; simpl.
  - split; [discriminate|]. intros (x & E & _). discriminate.
  - rewrite re_match_of_bool, andb_true_iff, negb_true_iff. split.
    + intros [A E]. destruct w; [|discriminate]. eauto.
    + intros (x & E & A). injection E as -> ->. auto.
Qed.

Lemma re_match_cat_void r w : re_match uni (RCat r RVoid) w = false.
Proof.
  apply not_true_is_false. intros H. apply re_match_cat in H as (u & v & _ & _ & B).
  now rewrite re_match_void in B.
Qed.

Lemma re_match_eps_cat r w : re_match uni (RCat REps r) w = re_match uni r w.
Proof.
  apply bool_eq_iff. rewrite re_match_cat. split.
  - intros (u & v & -> & A & B). apply re_match_eps in A. now subst u.
  - intros H. exists [], w. auto.
Qed.

Lemma re_match_cat_eps r w : re_match uni (RCat r REps) w = re_match uni r w.
Proof.
  apply bool_eq_iff. rewrite re_match_cat. split.
  - intros (u & v & -> & A & B). apply re_match_eps in B. subst v. now rewrite app_nil_r.
  - intros H. exists w, []. rewrite app_nil_r. auto.
Qed.

Lemma re_match_cat_ext a a' b b' w :
  (forall u, re_match uni a u = re_match uni a' u) ->
  (forall u, re_match uni b u = re_match uni b' u) ->
  re_match uni (RCat a b) w = re_match uni (RCat a' b') w.
Proof.
  intros A B. apply bool_eq_iff. rewrite !re_match_cat.
  split; intros (u & v & E & Hu & Hv); exists u, v.
  - rewrite <- A, <- B. auto.
  - rewrite A, B. auto.
Qed.

Lemma re_match_plus r w : re_match uni (RPlus r) w = re_match uni (RCat r (RStar r)) w.
Proof.
  destruct w as [|x w]; simpl.
  - now rewrite andb_true_r.
  - destruct (nullable r); [|reflexivity].
    rewrite re_match_alt. now rewrite orb_diag.
Qed.

Lemma re_match_star_cons r x w :
  re_match uni (RStar r) (x :: w) = true
  <-> exists u v, w = u ++ v /\ re_match uni r (x :: u) = true /\ re_match uni (RStar r) v = true.
Proof. simpl. apply re_match_cat. Qed.

Lemma re_match_star_app r u v :
  re_match uni r u = true -> re_match uni (RStar r) v = true ->
  re_match uni (RStar r) (u ++ v) = true.
Proof.
  intros A B. destruct u as [|x u]; [exact B|].
  simpl app. apply re_match_star_cons. exists u, v. auto.
Qed.

(** A string is in the star of [r] when it is a concatenation of strings
    of [r]. *)
Lemma re_match_star r w :
  re_match uni (RStar r) w = true
  <-> exists us, w = concat us /\ Forall (fun u => re_match uni r u = true) us.
Proof.
  split.
  - remember (length w) as n eqn:L. revert w L.
    induction n as [n IH] using lt_wf_ind. intros w L H.
    destruct w as [|x w]; [exists []; auto|].
    apply re_match_star_cons in H as (u & v & -> & A & B).
    destruct (IH (length v)) with (w := v) as (us & -> & F); auto.
    { subst n. simpl. rewrite length_app. lia. }
    exists ((x :: u) :: us). split; [reflexivity|]. constructor; auto.
  - intros (us & -> & F). induction F as [|u us A _ IH]; [reflexivity|].
    simpl. now apply re_match_star_app.
Qed.

Lemma re_match_all w : re_match uni (RStar (RNSet [])) w = true.
Proof.
  apply re_match_star. exists (map (fun x => [x]) w). split.
  - induction w as [|x w IH]; simpl; [reflexivity|]. now rewrite <- IH.
  - apply Forall_forall. intros u I. apply in_map_iff in I as (x & <- & _). reflexivity.
Qed.

End RegexSemantics.

Section MoreRegex.
Variable uni : uprop -> codepoint -> bool.

Lemma re_match_ends items w :
  re_match uni (RCat any (RSet items)) w
  = match rev w with x :: _ => class_has uni items x | [] => false end.
Proof.
  apply bool_eq_iff. rewrite re_match_cat. split.
  - intros (u & v & -> & _ & B). apply re_match_set in B as (x & -> & B).
    rewrite rev_app_distr. exact B.
  - destruct (rev w) as [|x r] eqn:R; [discriminate|]. intros H.
    exists (rev r), [x]. split.
    + rewrite <- (rev_involutive w), R. reflexivity.
    + split; [apply re_match_all|]. apply re_match_set. eauto.
Qed.

Lemma re_match_nset_star items w :
  re_match uni (RStar (RNSet items)) w = forallb (fun x => negb (class_has uni items x)) w.
Proof.
  apply bool_eq_iff. rewrite re_match_star, forallb_forall. split.
  - intros (us & -> & F) x I. apply in_concat in I as (u & Iu & Ix).
    rewrite Forall_forall in F. specialize (F _ Iu).
    apply re_match_nset in F as (y & -> & F). destruct Ix as [<-|[]]. now rewrite F.
  - intros H. exists (map (fun x => [x]) w). split.
    + clear H. induction w as [|x w IH]; simpl; [reflexivity|]. now rewrite <- IH.
    + apply Forall_forall. intros u I. apply in_map_iff in I as (x & <- & I).
      apply re_match_nset. exists x. split; [reflexivity|].
      specialize (H _ I). now apply negb_true_iff in H.
Qed.
End MoreRegex.

Lemma re_match_lit s w : re_match unicode (lit s) w = true <-> w = cps s.
Proof.
  unfold lit. simpl. revert w. induction s as [|a s IH]; intros w.
  - simpl. apply re_match_eps.
  - cbn [cps fold_right]. rewrite re_match_cat. split.
    + intros (u & v & -> & A & B). apply re_match_chr in A. apply IH in B. now subst.
    + intros ->. exists [c a], (cps s). split; [reflexivity|]. split.
      * now apply re_match_chr.
      * now apply IH.
Qed.

Lemma class1 (i : citem) x : class_has unicode [i] x = citem_has unicode i x.
Proof. unfold class_has. simpl. apply orb_false_r. Qed.

Lemma re_match_starts items w :
  re_match unicode (RCat (RNSet items) any) w
  = match w with x :: _ => negb (class_has unicode items x) | [] => false end.
Proof.
  apply bool_eq_iff. split.
  - intros H. apply re_match_cat in H as (u & v & -> & A & _).
    apply re_match_nset in A as (x & -> & A). cbn [app]. now rewrite A.
  - destruct w as [|x w]; [discriminate|]. intros H. apply negb_true_iff in H.
    apply (@re_match_cat_app unicode _ _ [x] w); [|apply re_match_all].
    apply re_match_nset. eauto.
Qed.

Lemma re_match_suffix w :
  re_match unicode (RAlt REps (RSet long_suffix)) w = true
  <-> w = [] \/ w = cps "l" \/ w = cps "L".
Proof.
  rewrite re_match_alt, orb_true_iff, re_match_eps, re_match_set. split.
  - intros [E'|(x & E' & H)]; subst w; [now left|right].
    unfold class_has, long_suffix in H. simpl in H. rewrite orb_false_r in H.
    apply orb_true_iff in H as [H|H]; apply N.eqb_eq in H; subst; auto.
  - intros [E'|[E'|E']]; subst w; [now left| |]; right; eexists; split; reflexivity.
Qed.

Lemma singles_concat (w : lexeme) : concat (map (fun x => [x]) w) = w.
Proof. induction w as [|x w IH]; simpl; [reflexivity|]. now rewrite IH. Qed.

(** ** Relating two languages *)

Lemma citem_eqb_eq a b : citem_eqb a b = true -> a = b.
Proof.
  destruct a as [x|l h|[]|], b as [y|l' h'|[]|]; simpl; try discriminate; try reflexivity.
  - intros E. apply N.eqb_eq in E. now subst.
  - intros E. apply andb_true_iff in E as [A B].
    apply N.eqb_eq in A, B. now subst.
Qed.

Lemma items_eqb_eq a b : items_eqb a b = true -> a = b.
Proof.
  revert b. induction a as [|x a IH]; intros [|y b]; simpl; try discriminate; [reflexivity|].
  intros E. apply andb_true_iff in E as [A B].
  apply citem_eqb_eq in A. apply IH in B. now subst.
Qed.

Lemma regex_eqb_eq a b : regex_eqb a b = true -> a = b.
Proof.
  revert b. induction a; intros b; destruct b; simpl; try discriminate; intros E;
    rewrite ?andb_true_iff in E.
  - reflexivity.
  - apply N.eqb_eq in E. now subst.
  - reflexivity.
  - apply items_eqb_eq in E. now subst.
  - apply items_eqb_eq in E. now subst.
  - destruct E as [A B]. apply IHa1 in A. apply IHa2 in B. now subst.
  - destruct E as [A B]. apply IHa1 in A. apply IHa2 in B. now subst.
  - apply IHa in E. now subst.
  - apply IHa in E. now subst.
  - destruct E as [[A B] C]. apply IHa in A. apply Nat.eqb_eq in B, C. now subst.
Qed.

Lemma pair_eqb_eq p q : pair_eqb p q = true -> p = q.
Proof.
  destruct p, q. unfold pair_eqb. simpl. intros E. apply andb_true_iff in E as [A B].
  apply regex_eqb_eq in A, B. now subst.
Qed.

Lemma rep_of_le cs x : (rep_of cs x <= x)%N.
Proof.
  induction cs as [|b cs IH]; simpl; [lia|].
  destruct ((b <=? x)%N) eqn:A; simpl; [|exact IH].
  destruct ((rep_of cs x <=? b)%N); [|exact IH]. now apply N.leb_le.
Qed.

Lemma rep_of_greatest cs x b : In b cs -> (b <= x)%N -> (b <= rep_of cs x)%N.
Proof.
  induction cs as [|b' cs IH]; simpl; [intros []|].
  intros [->|I] L.
  - apply N.leb_le in L. rewrite L. simpl.
    destruct ((rep_of cs x <=? b)%N) eqn:B; [lia|]. apply N.leb_gt in B. lia.
  - specialize (IH I L).
    destruct ((b' <=? x)%N); simpl; [|exact IH].
    destruct ((rep_of cs x <=? b')%N) eqn:B; [|exact IH]. apply N.leb_le in B. lia.
Qed.

Lemma rep_of_default cs x : rep_of cs x = 0%N \/ In (rep_of cs x) cs.
Proof.
  induction cs as [|b cs IH]; simpl; [now left|].
  destruct (((b <=? x) && (rep_of cs x <=? b))%N); [right; now left|].
  destruct IH as [IH|IH]; [now left|right; now right].
Qed.

Lemma rep_of_in cs x : In 0%N cs -> In (rep_of cs x) cs.
Proof. intros Z. destruct (rep_of_default cs x) as [->|I]; assumption. Qed.

Lemma cuts_zero A cs : cuts A = Some cs -> In 0%N cs.
Proof.
  revert cs. induction A as [|i A IH]; simpl; intros cs E.
  - injection E as <-. now left.
  - destruct (bounds i); [|discriminate]. destruct (cuts A); [|discriminate].
    injection E as <-. apply in_or_app. right. now apply IH.
Qed.

Lemma cuts_bounds A cs i :
  cuts A = Some cs -> In i A -> exists b, bounds i = Some b /\ incl b cs.
Proof.
  revert cs. induction A as [|j A IH]; simpl; intros cs E I; [destruct I|].
  destruct (bounds j) as [b|] eqn:B; [|discriminate].
  destruct (cuts A) as [cs'|]; [|discriminate]. injection E as <-.
  destruct I as [->|I].
  - exists b. split; [exact B|]. now apply incl_appl.
  - destruct (IH _ eq_refl I) as (b' & B' & Inc). exists b'. split; [exact B'|].
    now apply incl_appr.
Qed.

Section RelatedSound.
Variable uni : uprop -> codepoint -> bool.

Lemma rep_of_agrees A cs i x :
  cuts A = Some cs -> In i A -> citem_has uni i (rep_of cs x) = citem_has uni i x.
Proof.
  intros C I. destruct (@cuts_bounds A cs i C I) as (b & B & Inc).
  pose proof (rep_of_le cs x) as Le.
  pose proof (fun y Hy => @rep_of_greatest cs x y (Inc y Hy)) as G.
  destruct i as [y|lo hi|p|]; simpl in B; try discriminate; injection B as <-; simpl.
  - pose proof (G y (or_introl eq_refl)) as G1.
    pose proof (G (N.succ y) (or_intror (or_introl eq_refl))) as G2.
    destruct (N.eqb_spec x y) as [->|Nx].
    + apply N.eqb_eq. specialize (G1 ltac:(lia)). lia.
    + apply N.eqb_neq. intros R. rewrite R in *. lia.
  - pose proof (G lo (or_introl eq_refl)) as G1.
    pose proof (G (N.succ hi) (or_intror (or_introl eq_refl))) as G2.
    apply bool_eq_iff. rewrite !andb_true_iff, !N.leb_le. split; intros [P Q].
    + split; [lia|]. destruct (N.le_gt_cases x hi) as [|Gt]; [assumption|].
      specialize (G2 ltac:(lia)). lia.
    + split; [|lia]. apply G1. lia.
Qed.

Lemma existsb_pointwise {T} (f g : T -> bool) l :
  (forall i, In i l -> f i = g i) -> existsb f l = existsb g l.
Proof.
  induction l as [|a l IH]; simpl; intros H; [reflexivity|].
  rewrite H by now left. rewrite IH; [reflexivity|]. intros. apply H. now right.
Qed.

Lemma deriv_agree x y r :
  (forall i, In i (atoms r) -> citem_has uni i x = citem_has uni i y) ->
  deriv uni x r = deriv uni y r.
Proof.
  induction r; simpl; intros H.
  - reflexivity.
  - specialize (H _ (or_introl eq_refl)). simpl in H. now rewrite H.
  - specialize (H _ (or_introl eq_refl)). simpl in H. now rewrite H.
  - unfold class_has. now rewrite (@existsb_pointwise _ _ _ _ H).
  - unfold class_has. now rewrite (@existsb_pointwise _ _ _ _ H).
  - rewrite IHr1, IHr2; [reflexivity| |]; intros; apply H; apply in_or_app; auto.
  - rewrite IHr1, IHr2; [reflexivity| |]; intros; apply H; apply in_or_app; auto.
  - now rewrite IHr.
  - now rewrite IHr.
  - now rewrite IHr.
Qed.

Lemma atoms_in_spec A r i : atoms_in A r = true -> In i (atoms r) -> In i A.
Proof.
  unfold atoms_in. rewrite forallb_forall. intros H I.
  specialize (H _ I). apply existsb_exists in H as (j & J & E).
  apply citem_eqb_eq in E. now subst.
Qed.

Lemma re_match_mk_cat a b w : re_match uni (mk_cat a b) w = re_match uni (RCat a b) w.
Proof.
  unfold mk_cat.
  destruct (is_void a) eqn:Va.
  { destruct a; try discriminate. destruct items; try discriminate.
    simpl. now rewrite re_match_void, re_match_void_cat. }
  destruct (is_void b) eqn:Vb.
  { destruct b; try discriminate. destruct items; try discriminate.
    simpl. now rewrite re_match_void, re_match_cat_void. }
  simpl. destruct (is_eps a) eqn:Ea.
  { destruct a; try discriminate. now rewrite re_match_eps_cat. }
  destruct (is_eps b) eqn:Eb.
  { destruct b; try discriminate. now rewrite re_match_cat_eps. }
  reflexivity.
Qed.

Lemma re_match_flat r w : existsb (fun a => re_match uni a w) (flat r) = re_match uni r w.
Proof.
  induction r; simpl; rewrite ?orb_false_r; try reflexivity.
  - destruct items; simpl; [now rewrite re_match_void|now rewrite orb_false_r].
  - now rewrite existsb_app, IHr1, IHr2, re_match_alt.
Qed.

Lemma re_match_dedup l w :
  existsb (fun a => re_match uni a w) (dedup l) = existsb (fun a => re_match uni a w) l.
Proof.
  induction l as [|r l IH]; simpl; [reflexivity|].
  destruct (existsb (regex_eqb r) l) eqn:E; simpl; rewrite IH; [|reflexivity].
  destruct (re_match uni r w) eqn:Mr; [|reflexivity]. simpl.
  apply existsb_exists in E as (r' & I & E). apply regex_eqb_eq in E. subst r'.
  apply existsb_exists. eauto.
Qed.

Lemma re_match_alt_list l w : re_match uni (alt_list l) w = existsb (fun a => re_match uni a w) l.
Proof.
  induction l as [|r l IH]; [apply re_match_void|].
  destruct l as [|r' l]; [simpl; now rewrite orb_false_r|].
  change (alt_list (r :: r' :: l)) with (RAlt r (alt_list (r' :: l))).
  rewrite re_match_alt, IH. reflexivity.
Qed.

Lemma re_match_norm r w : re_match uni (norm r) w = re_match uni r w.
Proof.
  revert w. induction r; intros w; simpl; try reflexivity.
  - rewrite re_match_mk_cat. now apply re_match_cat_ext.
  - now rewrite re_match_alt_list, re_match_dedup, existsb_app, !re_match_flat,
      IHr1, IHr2, re_match_alt.
Qed.

Lemma closed_spec cs S p x :
  closed uni cs S = true -> In p S -> In x cs -> In (dstep uni x p) S.
Proof.
  unfold closed. rewrite forallb_forall. intros C I Ix.
  specialize (C _ I). rewrite forallb_forall in C. specialize (C _ Ix).
  apply existsb_exists in C as (q & Iq & E). apply pair_eqb_eq in E. now rewrite E.
Qed.

(** A set of pairs closed under the derivatives and good at the empty
    string is good at every string. *)
Lemma closed_sound (ok : bool -> bool -> bool) A cs S :
  cuts A = Some cs ->
  closed uni cs S = true ->
  forallb (fun p => atoms_in A (fst p) && atoms_in A (snd p)) S = true ->
  forallb (fun p => ok (nullable (fst p)) (nullable (snd p))) S = true ->
  forall w p, In p S -> ok (re_match uni (fst p) w) (re_match uni (snd p) w) = true.
Proof.
  intros C Cl At Ok. rewrite forallb_forall in At, Ok.
  induction w as [|x w IH]; intros p I.
  - simpl. now apply Ok.
  - simpl. specialize (At _ I). apply andb_true_iff in At as [A1 A2].
    assert (E : forall r, atoms_in A r = true ->
                          re_match uni (deriv uni x r) w
                          = re_match uni (norm (deriv uni (rep_of cs x) r)) w).
    { intros r Ar. rewrite re_match_norm. f_equal. apply deriv_agree.
      intros i Hi. symmetry. eapply rep_of_agrees; eauto. eapply atoms_in_spec; eauto. }
    rewrite (E _ A1), (E _ A2).
    apply (IH (dstep uni (rep_of cs x) p)).
    eapply closed_spec; eauto. apply rep_of_in. eapply cuts_zero; eauto.
Qed.

Theorem related_sound ok fuel r1 r2 :
  related uni ok fuel r1 r2 = true ->
  forall w, ok (re_match uni r1 w) (re_match uni r2 w) = true.
Proof.
  unfold related. destruct (cuts (atoms r1 ++ atoms r2)) as [cs|] eqn:C; [|discriminate].
  intros H w. rewrite !andb_true_iff in H. destruct H as [[[I Cl] At] Ok].
  apply existsb_exists in I as (q & I & E). apply pair_eqb_eq in E. subst q.
  pose proof (@closed_sound ok _ _ _ C Cl At Ok w _ I) as R. simpl in R.
  now rewrite !re_match_norm in R.
Qed.

End RelatedSound.

(** ** The helper functions [sep1], [commaSep1] and [commaSep] *)

Lemma repeat_expands k r xs :
  expands k (Repeat r) xs
  <-> exists parts, Forall (expands k r) parts /\ xs = concat parts.
Proof.
  split.
  - remember (Repeat r) as r0 eqn:E. induction 1; try discriminate.
    + exists []. auto.
    + injection E as ->. destruct (IHexpands2 eq_refl) as (parts & F & ->).
      exists (xs :: parts). auto.
  - intros (parts & F & ->). induction F as [|p parts Hp _ IH].
    + apply X_repeat_nil.
    + simpl. now apply X_repeat_cons.
Qed.

Lemma repeat1_expands k r xs :
  expands k (Repeat1 r) xs
  <-> exists u v, expands k r u /\ expands k (Repeat r) v /\ xs = u ++ v.
Proof.
  split.
  - intros X. inversion X; subst. eauto.
  - intros (u & v & Xu & Xv & ->). now apply X_repeat1.
Qed.

Lemma seq2_expands k a b xs :
  expands k (Seq [a; b]) xs
  <-> exists u v, expands k a u /\ expands k b v /\ xs = u ++ v.
Proof.
  split.
  - intros X. inversion X as [| | | | | | |? ? ? u r1 Xa Xr| | | | | | | | | |]; subst.
    inversion Xr as [| | | | | | |? ? ? v r2 Xb Xn| | | | | | | | | |]; subst.
    inversion Xn; subst. exists u, v. rewrite app_nil_r. auto.
  - intros (u & v & Xa & Xb & ->).
    rewrite <- (app_nil_r v). apply X_seq_cons; [exact Xa|].
    apply X_seq_cons; [exact Xb|apply X_seq_nil].
Qed.

Lemma seq_cons_expands k r rs xs :
  expands k (Seq (r :: rs)) xs
  <-> exists u v, expands k r u /\ expands k (Seq rs) v /\ xs = u ++ v.
Proof.
  split.
  - intros X. inversion X; subst. eauto.
  - intros (u & v & Xu & Xv & ->). now apply X_seq_cons.
Qed.

Lemma choice_expands k rs xs :
  expands k (Choice rs) xs <-> exists r, In r rs /\ expands k r xs.
Proof.
  split.
  - intros X. inversion X; subst. eauto.
  - intros (r & I & X). eapply X_choice; eauto.
Qed.

Lemma prec_left_expands k n r xs :
  expands k (PrecLeft n r) xs <-> expands (with_prec n (Some LeftAssoc) k) r xs.
Proof. split; [intros X; now inversion X|apply X_prec_left]. Qed.

Lemma field_sym_expands k f n xs :
  expands k (Field f (Sym n)) xs <-> xs = [(ASym n, with_field f k)].
Proof.
  split.
  - intros X. inversion X as [| | | | | | | | | | | | | | | |? ? ? ? X'|]; subst.
    now inversion X'.
  - intros ->. apply X_field, X_sym.
Qed.

Lemma field_str_expands k f s xs :
  expands k (Field f (Str s)) xs <-> xs = [(AStr s, with_field f k)].
Proof.
  split.
  - intros X. inversion X as [| | | | | | | | | | | | | | | |? ? ? ? X'|]; subst.
    now inversion X'.
  - intros ->. apply X_field, X_str.
Qed.

Lemma sep1_expands (k : ctx) (r s : rule) (xs : list step) :
  expands k (sep1 r s) xs <-> separated (expands k s) (expands k r) xs.
Proof.
  unfold sep1, separated. rewrite seq2_expands. split.
  - intros (u & v & Xr & Xv & ->). apply repeat_expands in Xv as (parts & F & ->).
    exists u. induction F as [|p parts Hp _ IH].
    + exists []. auto.
    + destruct IH as (more & A & B & E). apply app_inv_head in E.
      apply seq2_expands in Hp as (a & b & Xa & Xb & ->).
      exists ((a, b) :: more). split; [exact A|]. split; [constructor; auto|].
      simpl. now rewrite E.
  - intros (first & more & A & F & ->). exists first, (flat_map (fun p => fst p ++ snd p) more).
    split; [exact A|]. split; [|reflexivity].
    apply repeat_expands. exists (map (fun p => fst p ++ snd p) more). split.
    + apply Forall_forall. intros q I. apply in_map_iff in I as (p & <- & I).
      rewrite Forall_forall in F. destruct (F _ I) as [Xs Xr].
      apply seq2_expands. eauto.
    + now rewrite flat_map_concat_map.
Qed.


Lemma commaSep_expands (k : ctx) (r : rule) (xs : list step) :
  expands k (commaSep r) xs
  <-> xs = [] \/ separated (fun p => p = [(AStr ",", k)]) (expands k r) xs.
Proof.
  unfold commaSep, optional. split.
  - intros X. inversion X as [| | | | | | | |? ? ? ? I X'| | | | | | | | |]; subst.
    destruct I as [<-|[<-|[]]].
    + right. change (commaSep1 r) with (sep1 r (Str ",")) in X'.
      apply sep1_expands in X' as (first & more & A & F & ->).
      exists first, more. split; [exact A|]. split; [|reflexivity].
      eapply Forall_impl; [|exact F]. intros p [Xs Xr]. split; [|exact Xr].
      inversion Xs; subst. reflexivity.
    + left. now inversion X'.
  - intros [->|(first & more & A & F & ->)].
    + eapply X_choice; [right; now left|apply X_blank].
    + eapply X_choice; [now left|]. change (commaSep1 r) with (sep1 r (Str ",")).
      apply sep1_expands. exists first, more. split; [exact A|]. split; [|reflexivity].
      eapply Forall_impl; [|exact F]. intros p [-> Xr]. split; [apply X_str|exact Xr].
Qed.

(** X2: the productions of [commaSep(rule)] are the empty one and those of
    the rule separated by single commas. *)
Theorem commaSep_productions (k : ctx) (r : rule) (xs : list step) :
  expands k (commaSep r) xs
  <-> xs = [] \/ separated (fun p => p = [(AStr ",", k)]) (expands k r) xs.
Proof. apply commaSep_expands. Qed.

Lemma sample_spec n toks :
  sample n toks <> Leaf [] ->
  derives java_rules (sample n toks) /\ root (sample n toks) = Some n
  /\ yield (sample n toks) = map cps toks.
Proof.
  unfold sample. destruct (enum java_rules 40 n (map cps toks)) as [|t l] eqn:E.
  - intros N. now contradiction N.
  - intros _. apply (@enum_sound java_rules 40). rewrite E. now left.
Qed.

Lemma fits_all_nil kids : fits_all [] kids = true -> kids = [].
Proof. destruct kids; [reflexivity|discriminate]. Qed.

Lemma alternates_fits e s k more ms :
  Forall (fun p => fst p = [(AStr s, k)] /\ snd p = [(ASym e, k)]) more ->
  fits_all ((ASym e, k) :: flat_map (fun p => fst p ++ snd p) more) ms = true ->
  alternates e s ms = true.
Proof.
  intros F. revert ms. induction F as [|p more [E1 E2] _ IH]; intros ms Fi.
  - apply fits_one in Fi as (t & -> & Ft). apply fits_sym_root in Ft.
    simpl. rewrite Ft. apply String.eqb_refl.
  - cbn [flat_map] in Fi. rewrite E1, E2 in Fi.
    destruct ms as [|t [|l ms]]; simpl in Fi; try discriminate.
    { rewrite andb_false_r in Fi. discriminate. }
    apply andb_true_iff in Fi as [Ft Fi]. apply andb_true_iff in Fi as [Fl Fi].
    destruct l as [w|]; [|discriminate]. apply fits_sym_root in Ft.
    cbn [alternates]. rewrite Ft, String.eqb_refl. unfold fits in Fl. simpl in Fl.
    rewrite Fl. simpl.
    apply IH. exact Fi.
Qed.

(** X3: between its parentheses an argument list holds nothing, or
    expressions with one comma between each two. *)
Theorem argument_list_children (t : tree) :
  derives java_rules t -> root t = Some "argument_list" ->
  exists args, kids_of t = Leaf (cps "(") :: args ++ [Leaf (cps ")")]
               /\ (args = [] \/ alternates "expression" "," args = true).
Proof.
  intros D R. destruct t as [w|n xs kids]; [discriminate|]. injection R as ->.
  apply derives_node in D as (body & L & X & Fi & _).
  vm_compute in L. injection L as <-.
  apply seq_cons_expands in X as (u & v & Xu & Xv & ->). inversion Xu; subst.
  apply seq2_expands in Xv as (mid & e & Xm & Xe & ->). inversion Xe; subst.
  apply fits_all_split in Fi as (ks & ls & -> & Fk & Fl). apply fits_str in Fk. subst ks.
  apply fits_all_split in Fl as (ms & es & -> & Fm & Fe). apply fits_str in Fe. subst es.
  exists ms. split; [reflexivity|].
  apply commaSep_expands in Xm as [->|(first & more & A & F & ->)].
  - left. now apply fits_all_nil.
  - right. inversion A; subst. apply (@alternates_fits "expression" "," ctx0 more); [|exact Fm].
    eapply Forall_impl; [|exact F]. intros p [E Xp]. split; [exact E|]. now inversion Xp.
Qed.

(** The arguments [( a , b )]. *)
Lemma argument_list_children_witness :
  derives java_rules (sample "argument_list" ["("; "a"; ","; "b"; ")"])
  /\ root (sample "argument_list" ["("; "a"; ","; "b"; ")"]) = Some "argument_list"
  /\ exists args,
       kids_of (sample "argument_list" ["("; "a"; ","; "b"; ")"])
       = Leaf (cps "(") :: args ++ [Leaf (cps ")")]
       /\ (args = [] \/ alternates "expression" "," args = true).
Proof.
  destruct (@sample_spec "argument_list" ["("; "a"; ","; "b"; ")"]) as (D & R & _);
    [vm_compute; discriminate|].
  refine (conj D (conj R _)).
  exact (@argument_list_children _ D R).
Defined.

(** X27: between its braces an array initializer holds nothing or
    initializers with one comma between each two, and then at most one more
    comma. *)
Theorem array_initializer_children (t : tree) :
  derives java_rules t -> root t = Some "array_initializer" ->
  exists items trailing,
    kids_of t = Leaf (cps "{") :: items ++ trailing ++ [Leaf (cps "}")]
    /\ (items = [] \/ alternates "_variable_initializer" "," items = true)
    /\ (trailing = [] \/ trailing = [Leaf (cps ",")]).
Proof.
  intros D R. destruct t as [w|n xs kids]; [discriminate|]. injection R as ->.
  apply derives_node in D as (body & L & X & Fi & _).
  vm_compute in L. injection L as <-.
  apply seq_cons_expands in X as (u & v & Xu & Xv & ->). inversion Xu; subst.
  apply seq_cons_expands in Xv as (mid & v' & Xm & Xv' & ->).
  apply seq2_expands in Xv' as (tr & e & Xt & Xe & ->). inversion Xe; subst.
  apply fits_all_split in Fi as (ks & ls & -> & Fk & Fl). apply fits_str in Fk. subst ks.
  apply fits_all_split in Fl as (ms & rs & -> & Fm & Fr).
  apply fits_all_split in Fr as (ts & es & -> & Ft & Fe). apply fits_str in Fe. subst es.
  exists ms, ts. split; [reflexivity|]. split.
  - apply commaSep_expands in Xm as [->|(first & more & A & F & ->)].
    + left. now apply fits_all_nil.
    + right. inversion A; subst.
      apply (@alternates_fits "_variable_initializer" "," ctx0 more); [|exact Fm].
      eapply Forall_impl; [|exact F]. intros p [E Xp]. split; [exact E|]. now inversion Xp.
  - apply choice_expands in Xt as (r & I & Xr). destruct I as [<-|[<-|[]]]; inversion Xr; subst.
    + right. now apply fits_str in Ft.
    + left. now apply fits_all_nil.
Qed.

(** The initializer [{ a , }]. *)
Lemma array_initializer_children_witness :
  derives java_rules (sample "array_initializer" ["{"; "a"; ","; "}"])
  /\ root (sample "array_initializer" ["{"; "a"; ","; "}"]) = Some "array_initializer"
  /\ exists items trailing,
       kids_of (sample "array_initializer" ["{"; "a"; ","; "}"])
       = Leaf (cps "{") :: items ++ trailing ++ [Leaf (cps "}")]
       /\ (items = [] \/ alternates "_variable_initializer" "," items = true)
       /\ (trailing = [] \/ trailing = [Leaf (cps ",")]).
Proof.
  destruct (@sample_spec "array_initializer" ["{"; "a"; ","; "}"]) as (D & R & _);
    [vm_compute; discriminate|].
  refine (conj D (conj R _)).
  exact (@array_initializer_children _ D R).
Defined.

(** ** The grammar as a whole *)


Lemma mem_spec n l : mem n l = true <-> In n l.
Proof.
  unfold mem. rewrite existsb_exists. split.
  - intros (m & I & E). apply String.eqb_eq in E. now subst.
  - intros I. exists n. split; [exact I|apply String.eqb_refl].
Qed.


Lemma reach_sound rules top fuel :
  forall seen todo,
    (forall n, In n seen -> uses rules top n) ->
    (forall n, In n todo -> uses rules top n) ->
    forall n, In n (reach rules fuel seen todo) -> uses rules top n.
Proof.
  induction fuel as [|f IH]; intros seen todo Hs Ht n I; simpl in I; [now apply Hs|].
  destruct todo as [|m rest]; [now apply Hs|].
  destruct (mem m seen).
  - apply (IH seen rest); auto. intros k Hk. apply Ht. now right.
  - apply (IH (m :: seen)
              (match lookup rules m with
               | Some body => references body ++ rest
               | None => rest
               end)); auto.
    + intros k [<-|Hk]; [apply Ht; now left|now apply Hs].
    + intros k Hk. destruct (lookup rules m) as [body|] eqn:L.
      * apply in_app_iff in Hk as [Hk|Hk].
        -- apply (@U_step rules top m body k); auto. apply Ht. now left.
        -- apply Ht. now right.
      * apply Ht. now right.
Qed.

Lemma rules_reached :
  forallb (fun '(n, _) =>
             mem n (reach java_rules 2000 [] ["program"]) || is_extra java n)
          java_rules = true.
Proof. vm_compute. reflexivity. Qed.

(** X5: every rule is used from [program], or is an extra. *)
Theorem every_rule_is_used (n : string) (body : rule) :
  In (n, body) java_rules ->
  uses java_rules "program" n \/ In (Sym n) (g_extras java).
Proof.
  intros I. pose proof rules_reached as C. rewrite forallb_forall in C.
  specialize (C _ I). cbn beta iota in C. apply orb_true_iff in C as [C|C].
  - left. apply mem_spec in C. revert C.
    apply reach_sound; [intros k []|].
    intros k [<-|[]]. constructor.
  - right. unfold is_extra in C. apply existsb_exists in C as (r & Ir & E).
    destruct r; try discriminate. simpl in E. apply String.eqb_eq in E. now subst.
Qed.

(** [wildcard] is used from [program]. *)
Lemma every_rule_is_used_witness :
  In ("wildcard", Seq [Repeat ($"_annotation"); Str "?"; optional ($"_wildcard_bounds")])
     java_rules
  /\ (uses java_rules "program" "wildcard" \/ In (Sym "wildcard") (g_extras java)).
Proof.
  assert (I : In ("wildcard",
                  Seq [Repeat ($"_annotation"); Str "?"; optional ($"_wildcard_bounds")])
                 java_rules).
  { apply lookup_in. vm_compute. reflexivity. }
  split; [exact I|]. exact (every_rule_is_used I).
Defined.

Lemma rules_productive :
  map fst shortest = map fst java_rules /\ forallb productive shortest = true.
Proof. split; vm_compute; reflexivity. Qed.

(** X26: every rule derives some sequence of tokens. *)
Theorem every_rule_derives_something (n : string) (body : rule) :
  In (n, body) java_rules -> exists t, derives java_rules t /\ root t = Some n.
Proof.
  intros I. destruct rules_productive as [E C].
  assert (J : In n (map fst shortest)).
  { rewrite E. apply in_map_iff. exists (n, body). auto. }
  clear E I. apply in_map_iff in J as ([m o] & <- & J).
  rewrite forallb_forall in C. specialize (C _ J). clear J. unfold productive in C.
  cbn [fst snd] in *. destruct o as [toks|]; [|discriminate C].
  destruct (enum java_rules 40 m toks) as [|t l] eqn:En; [discriminate C|].
  exists t. assert (Q : In t (enum java_rules 40 m toks)) by (rewrite En; now left).
  apply enum_sound in Q as (D & R & _). auto.
Qed.

(** The rule [wildcard] derives something. *)
Lemma every_rule_derives_something_witness :
  In ("wildcard", Seq [Repeat ($"_annotation"); Str "?"; optional ($"_wildcard_bounds")])
     java_rules
  /\ exists t, derives java_rules t /\ root t = Some "wildcard".
Proof.
  assert (I : In ("wildcard",
                  Seq [Repeat ($"_annotation"); Str "?"; optional ($"_wildcard_bounds")])
                 java_rules).
  { apply lookup_in. vm_compute. reflexivity. }
  split; [exact I|]. exact (every_rule_derives_something I).
Defined.

(** X6: a derivation tree that spans no token is a [program]. *)
Theorem only_program_spans_nothing (t : tree) :
  derives java_rules t -> yield t = [] -> root t = Some "program".
Proof.
  intros D Y.
  destruct (@derives_nonnull java_rules "program" (length java_rules) java_wf t D) as [N _].
  destruct t as [w|n xs kids]; [discriminate|].
  destruct (string_dec n "program") as [->|Ne]; [reflexivity|].
  exfalso. apply N; [|exact Y]. simpl. congruence.
Qed.

(** The empty program. *)
Lemma only_program_spans_nothing_witness :
  derives java_rules (Node "program" [] []) /\ yield (Node "program" [] []) = []
  /\ root (Node "program" [] []) = Some "program".
Proof.
  assert (D : derives java_rules (Node "program" [] [])).
  { apply D_node with (body := Repeat (Sym "_toplevel_statement")).
    - reflexivity.
    - apply X_repeat_nil.
    - reflexivity.
    - constructor. }
  refine (conj D (conj eq_refl _)).
  exact (@only_program_spans_nothing (Node "program" [] []) D eq_refl).
Defined.

Lemma terminals_checked :
  forallb (fun '(_, body) => forallb (fun x => negb (fits x (Leaf []))) (steps_of ctx0 body))
          java_rules = true.
Proof. vm_compute. reflexivity. Qed.

(** X7: no token of a derivation tree is empty. *)
Theorem no_token_is_empty (t : tree) (n : string) (x : step) (w : lexeme) :
  derives java_rules t -> In (n, x, w) (tokens t) -> w <> [].
Proof.
  intros D I ->. destruct (@tokens_steps _ _ D _ _ _ I) as (body & L & Hx & Fx).
  apply lookup_in in L. pose proof terminals_checked as C.
  rewrite forallb_forall in C. specialize (C _ L). cbn beta iota in C.
  rewrite forallb_forall in C. specialize (C _ Hx). rewrite Fx in C. discriminate.
Qed.

(** The token [void] of [void f ( ) ;]. *)
Lemma no_token_is_empty_witness :
  derives java_rules method_program
  /\ In ("void_type", (AStr "void", ctx0), cps "void") (tokens method_program)
  /\ cps "void" <> [].
Proof.
  assert (P : lexed_parses java "program" (map cps ["void"; "f"; "("; ")"; ";"])
                           method_program).
  { apply java_lexed_parses. vm_compute. auto. }
  destruct P as ((D & _) & _).
  assert (I : In ("void_type", (AStr "void", ctx0), cps "void") (tokens method_program))
    by (vm_compute; auto).
  refine (conj D (conj I _)).
  exact (@no_token_is_empty method_program _ _ _ D I).
Defined.

Lemma single_expands k r xs :
  single r = true -> expands k r xs -> exists x, xs = [x] /\ In x (steps_of k r).
Proof.
  intros S X. induction X; simpl in S; try discriminate;
    try (eexists; split; [reflexivity|now left]); auto.
  rewrite forallb_forall in S. destruct (IHX (S _ H)) as (x & -> & I).
  exists x. split; [reflexivity|]. cbn [steps_of]. apply in_flat_map. eauto.
Qed.

Lemma supertypes_checked :
  forallb (fun n =>
    match lookup java_rules n with
    | Some body =>
        single body
        && forallb (fun x => match fst x with
                             | ASym _ => true
                             | AStr s => String.eqb n "statement" && String.eqb s ";"
                             | _ => false
                             end) (steps_of ctx0 body)
    | None => false
    end) (supertype_names java) = true.
Proof. vm_compute. reflexivity. Qed.

(** X8: a supertype node has exactly one child, a node; the one exception
    is the empty statement [;]. *)
Theorem supertype_node_has_one_child (t : tree) (n : string) :
  derives java_rules t -> root t = Some n -> In n (supertype_names java) ->
  exists k, kids_of t = [k]
            /\ (is_leaf k = false \/ (n = "statement" /\ k = Leaf (cps ";"))).
Proof.
  intros D R I. destruct t as [w|m xs kids]; [discriminate|]. injection R as ->.
  apply derives_node in D as (body & L & X & Fi & _).
  pose proof supertypes_checked as C. rewrite forallb_forall in C. specialize (C _ I).
  cbn beta in C. rewrite L in C. apply andb_true_iff in C as [S A].
  destruct (single_expands S X) as (x & -> & Hx).
  rewrite forallb_forall in A. specialize (A _ Hx).
  destruct kids as [|k [|k' kids]]; simpl in Fi; try discriminate;
    [|now rewrite andb_false_r in Fi].
  rewrite andb_true_r in Fi. exists k. split; [reflexivity|].
  destruct x as [a kx]. destruct a as [s|s|re|im r]; simpl in A; try discriminate.
  - left. simpl in Fi. destruct k; [discriminate|reflexivity].
  - right. apply andb_true_iff in A as [A1 A2].
    apply String.eqb_eq in A1, A2. subst. split; [reflexivity|].
    simpl in Fi. destruct k as [w|]; [|discriminate].
    apply lexeme_eqb_eq in Fi. now subst.
Qed.

(** The literal [true]. *)
Lemma supertype_node_has_one_child_witness :
  derives java_rules (sample "_literal" ["true"])
  /\ root (sample "_literal" ["true"]) = Some "_literal"
  /\ In "_literal" (supertype_names java)
  /\ exists k, kids_of (sample "_literal" ["true"]) = [k]
               /\ (is_leaf k = false \/ ("_literal" = "statement" /\ k = Leaf (cps ";"))).
Proof.
  destruct (@sample_spec "_literal" ["true"]) as (D & R & _); [vm_compute; discriminate|].
  assert (I : In "_literal" (supertype_names java)) by (vm_compute; auto 10).
  refine (conj D (conj R (conj I _))).
  exact (@supertype_node_has_one_child _ _ D R I).
Defined.

Lemma fields_checked :
  forallb (fun '(_, body) =>
    forallb (fun x => match c_field (snd x) with
                      | Some f => match fst x with
                                  | AStr _ => String.eqb f "operator"
                                  | ASym _ => negb (String.eqb f "operator")
                                  | _ => false
                                  end
                      | None => true
                      end) (steps_of ctx0 body)) java_rules = true.
Proof. vm_compute. reflexivity. Qed.

(** X9: the field [operator] holds a token, every other field a node. *)
Theorem operator_fields_hold_tokens (t k : tree) (f : string) :
  derives java_rules t -> In k (field_children f t) ->
  is_leaf k = String.eqb f "operator".
Proof.
  intros D I. destruct t as [w|n xs kids]; [destruct I|].
  apply derives_node in D as (body & L & X & Fi & _). cbn [field_children] in I.
  destruct (@in_field_in f xs kids k Fi I) as (x & Hx & Fx & Ft).
  apply (expands_steps_of X) in Hx. apply lookup_in in L.
  pose proof fields_checked as C. rewrite forallb_forall in C. specialize (C _ L).
  cbn beta iota in C. rewrite forallb_forall in C. specialize (C _ Hx). rewrite Fx in C.
  destruct x as [a kx]. destruct a as [s|s|re|im r]; simpl in C; try discriminate.
  - simpl in Ft. destruct k; [discriminate|]. simpl. apply negb_true_iff in C. now rewrite C.
  - simpl in Ft. destruct k; [|discriminate]. simpl. now rewrite C.
Qed.

(** The left side of [x = y]. *)
Lemma operator_fields_hold_tokens_witness :
  derives java_rules assignment_tree
  /\ In (hd (Leaf []) (kids_of assignment_tree)) (field_children "left" assignment_tree)
  /\ is_leaf (hd (Leaf []) (kids_of assignment_tree)) = String.eqb "left" "operator".
Proof.
  assert (P : parses java "assignment_expression" (map cps ["x"; "="; "y"]) assignment_tree).
  { apply java_parses. vm_compute. auto. }
  destruct P as (D & _).
  assert (I : In (hd (Leaf []) (kids_of assignment_tree))
                 (field_children "left" assignment_tree)) by (vm_compute; auto).
  refine (conj D (conj I _)).
  exact (@operator_fields_hold_tokens assignment_tree _ "left" D I).
Defined.

Lemma count_field_app f xs ys :
  count_field f (xs ++ ys) = count_field f xs + count_field f ys.
Proof. unfold count_field. now rewrite filter_app, length_app. Qed.

Lemma omax_fold_in f k r rs b :
  fold_right (fun r' acc => omax (most f k r') acc) (Some 0) rs = Some b ->
  In r rs -> exists b', most f k r = Some b' /\ b' <= b.
Proof.
  revert b. induction rs as [|r0 rs IH]; intros b E I; [destruct I|].
  simpl in E. destruct (most f k r0) as [b0|] eqn:M0; [|discriminate].
  destruct (fold_right _ _ rs) as [b1|] eqn:F; [|discriminate].
  injection E as <-. destruct I as [<-|I].
  - exists b0. split; [exact M0|lia].
  - destruct (IH _ eq_refl I) as (b' & M & L). exists b'. split; [exact M|lia].
Qed.

Lemma repeat_most f k r b :
  match most f k r with Some 0 => Some 0 | _ => None end = Some b ->
  most f k r = Some 0 /\ b = 0.
Proof.
  destruct (most f k r) as [[|m]|]; try discriminate. intros E. injection E as <-. auto.
Qed.

(** A production has no more positions in a field than [most] says. *)
Lemma most_sound f k r xs :
  expands k r xs -> forall b, most f k r = Some b -> count_field f xs <= b.
Proof.
  induction 1; intros b M; cbn [most] in M.
  - injection M as <-. apply Nat.le_refl.
  - injection M as <-. unfold count_field. simpl. destruct (in_field_b f k); simpl; lia.
  - injection M as <-. unfold count_field. simpl. destruct (in_field_b f k); simpl; lia.
  - injection M as <-. unfold count_field. simpl. destruct (in_field_b f k); simpl; lia.
  - injection M as <-. unfold count_field. simpl. destruct (in_field_b f k); simpl; lia.
  - injection M as <-. unfold count_field. simpl. destruct (in_field_b f k); simpl; lia.
  - injection M as <-. apply Nat.le_refl.
  - simpl in M. destruct (most f k r) as [b1|] eqn:M1; [|discriminate].
    destruct (fold_right _ _ rs) as [b2|] eqn:M2; [|discriminate]. injection M as <-.
    rewrite count_field_app. specialize (IHexpands1 _ eq_refl).
    assert (count_field f ys <= b2) by (apply IHexpands2; cbn [most]; exact M2). lia.
  - destruct (@omax_fold_in f k r rs b M H) as (b' & M' & L). specialize (IHexpands _ M'). lia.
  - apply Nat.le_0_l.
  - apply repeat_most in M as [M ->]. rewrite count_field_app.
    specialize (IHexpands1 _ M).
    assert (count_field f ys <= 0) by (apply IHexpands2; cbn [most]; now rewrite M). lia.
  - apply repeat_most in M as [M ->]. rewrite count_field_app.
    specialize (IHexpands1 _ M).
    assert (count_field f ys <= 0) by (apply IHexpands2; cbn [most]; now rewrite M). lia.
  - now apply IHexpands.
  - now apply IHexpands.
  - now apply IHexpands.
  - now apply IHexpands.
  - now apply IHexpands.
  - now apply IHexpands.
Qed.

Lemma in_field_count f xs kids :
  length (in_field f xs kids) <= count_field f xs.
Proof.
  unfold count_field. revert kids. induction xs as [|x xs IH]; intros [|k kids];
    cbn [in_field filter length]; try apply Nat.le_0_l.
  unfold in_field_b at 1. destruct (c_field (snd x)) as [g|].
  - destruct (String.eqb g f); cbn [length]; [apply le_n_S|]; apply IH.
  - apply IH.
Qed.

Lemma fields_counted :
  forallb (fun '(n, body) =>
             forallb (fun f => repeats n f
                               || match most f ctx0 body with
                                  | Some b => b <=? 1
                                  | None => false
                                  end) field_names)
          java_rules = true.
Proof. vm_compute. reflexivity. Qed.

Lemma field_is_named n body x f :
  In (n, body) java_rules -> In x (steps_of ctx0 body) -> c_field (snd x) = Some f ->
  In f field_names.
Proof.
  intros I Hx Fx. unfold field_names. apply nodup_In. apply in_flat_map.
  exists (n, body). split; [exact I|]. apply in_flat_map. exists x. split; [exact Hx|].
  rewrite Fx. now left.
Qed.

Lemma repeated_fields_sampled :
  map (fun '(n, f, _) => (n, f)) repeated_field_samples = repeated_fields
  /\ forallb (fun '(n, f, toks) => 2 <=? length (field_children f (sample n toks)))
             repeated_field_samples = true.
Proof. split; vm_compute; reflexivity. Qed.

(** X25: a node holds at most one child in each field, except in the nine
    fields of [repeated_fields], each of which some node fills twice. *)
Theorem fields_hold_one_child :
  (forall t n f, derives java_rules t -> root t = Some n -> repeats n f = false ->
                 length (field_children f t) <= 1)
  /\ (forall n f, In (n, f) repeated_fields ->
                  exists t, derives java_rules t /\ root t = Some n
                            /\ 2 <= length (field_children f t)).
Proof.
  split.
  - intros t n f D R N. destruct t as [w|m xs kids]; [discriminate|]. injection R as ->.
    apply derives_node in D as (body & L & X & Fi & _). cbn [field_children].
    destruct (in_field f xs kids) as [|k rest] eqn:E; [apply Nat.le_0_l|]. rewrite <- E.
    assert (I : In k (in_field f xs kids)) by (rewrite E; now left).
    destruct (@in_field_in f xs kids k Fi I) as (x & Hx & Fx & _).
    apply (expands_steps_of X) in Hx. apply lookup_in in L.
    pose proof (@field_is_named _ _ _ _ L Hx Fx) as Fn.
    pose proof fields_counted as C. rewrite forallb_forall in C. specialize (C _ L).
    cbn beta iota in C. rewrite forallb_forall in C. specialize (C _ Fn).
    rewrite N in C. cbn [orb] in C.
    destruct (most f ctx0 body) as [b|] eqn:M; [|discriminate C].
    apply Nat.leb_le in C. pose proof (@most_sound f _ _ _ X _ M) as S1.
    pose proof (in_field_count f xs kids) as S2. lia.
  - intros n f I. destruct repeated_fields_sampled as [E C]. rewrite <- E in I.
    apply in_map_iff in I as ([[n' f'] toks] & P & I). injection P as -> ->.
    rewrite forallb_forall in C. specialize (C _ I). cbn beta iota in C.
    apply Nat.leb_le in C. exists (sample n toks).
    destruct (@sample_spec n toks) as (D & R & _).
    { intros Z. rewrite Z in C. simpl in C. lia. }
    auto.
Qed.

Lemma levels_checked :
  forallb (fun '(n, body) =>
             forallb (fun z => (z =? -3) || ((0 <=? z) && (z <=? 15)))%Z (static_levels body)
             && forallb (fun z => (String.eqb n "class_literal" && (z =? PREC.CLASS_LITERAL)%Z)
                                  || (String.eqb n "generic_type" && (z =? PREC.GENERIC)%Z))
                        (dynamic_levels body))
          java_rules = true
  /\ forallb (fun z => existsb (fun '(_, body) => existsb (Z.eqb z) (static_levels body))
                               java_rules)
             [-3; 0; 1; 2; 3; 4; 5; 6; 7; 8; 9; 10; 11; 12; 13; 14; 15]%Z = true.
Proof. split; vm_compute; reflexivity. Qed.

(** X10: the static precedence levels written in the rules are -3 and 0 to
    15, each of them in use; the only dynamic ones are [PREC.CLASS_LITERAL]
    on [class_literal] and [PREC.GENERIC] on [generic_type]. The levels 16
    and 17 are no static precedence of any rule. *)
Theorem precedence_levels_in_use :
  (forall n body z, In (n, body) java_rules -> In z (static_levels body) -> static_level z)
  /\ (forall z, static_level z ->
                exists n body, In (n, body) java_rules /\ In z (static_levels body))
  /\ (forall n body z, In (n, body) java_rules -> In z (dynamic_levels body) ->
                       (n = "class_literal" /\ z = PREC.CLASS_LITERAL)
                       \/ (n = "generic_type" /\ z = PREC.GENERIC)).
Proof.
  destruct levels_checked as [A B]. rewrite forallb_forall in A, B. split; [|split].
  - intros n body z I J. specialize (A _ I). cbn beta iota in A.
    apply andb_true_iff in A as [A _]. rewrite forallb_forall in A. specialize (A _ J).
    unfold static_level. lia.
  - intros z S.
    assert (I : In z [-3; 0; 1; 2; 3; 4; 5; 6; 7; 8; 9; 10; 11; 12; 13; 14; 15]%Z).
    { unfold static_level in S. simpl.
      assert (z = -3 \/ z = 0 \/ z = 1 \/ z = 2 \/ z = 3 \/ z = 4 \/ z = 5 \/ z = 6 \/ z = 7
              \/ z = 8 \/ z = 9 \/ z = 10 \/ z = 11 \/ z = 12 \/ z = 13 \/ z = 14
              \/ z = 15)%Z as H by lia.
      repeat (destruct H as [->|H]; [auto 30|]). subst. auto 30. }
    specialize (B _ I). apply existsb_exists in B as ([n body] & In' & E).
    apply existsb_exists in E as (z' & Iz & E). apply Z.eqb_eq in E. subst z'.
    eauto.
  - intros n body z I J. specialize (A _ I). cbn beta iota in A.
    apply andb_true_iff in A as [_ A]. rewrite forallb_forall in A. specialize (A _ J).
    apply orb_true_iff in A as [A|A]; apply andb_true_iff in A as [A1 A2];
      apply String.eqb_eq in A1; apply Z.eqb_eq in A2; auto.
Qed.

(** ** Binary expressions, modifiers and try statements *)

(** X11: a binary expression has exactly three children: an expression in
    the field [left], an operator of the table in the field [operator], an
    expression in the field [right]. *)
Theorem binary_expression_children (t : tree) :
  derives java_rules t -> root t = Some "binary_expression" ->
  exists l op p r,
    In (op, p) binary_operators
    /\ kids_of t = [l; Leaf (cps op); r]
    /\ root l = Some "expression" /\ root r = Some "expression"
    /\ field_children "left" t = [l]
    /\ field_children "operator" t = [Leaf (cps op)]
    /\ field_children "right" t = [r].
Proof.
  intros D R. destruct t as [w|n xs kids]; [discriminate|]. injection R as ->.
  apply derives_node in D as (body & L & X & Fi & _).
  assert (E : body = Choice (map (fun '(operator, precedence) =>
                     PrecLeft precedence (Seq [
                       Field "left" ($"expression");
                       Field "operator" (Str operator);
                       Field "right" ($"expression")]))
                  binary_operators)).
  { assert (L' : lookup java_rules "binary_expression"
                 = Some (Choice (map (fun '(operator, precedence) =>
                     PrecLeft precedence (Seq [
                       Field "left" ($"expression");
                       Field "operator" (Str operator);
                       Field "right" ($"expression")]))
                  binary_operators))) by reflexivity.
    congruence. }
  subst body. clear L.
  apply choice_expands in X as (r & I & X').
  apply in_map_iff in I as ([op p] & <- & I).
  apply prec_left_expands in X'.
  apply seq_cons_expands in X' as (u & v & Xu & Xv & ->).
  apply seq2_expands in Xv as (o & r & Xo & Xr & ->).
  apply field_sym_expands in Xu, Xr. apply field_str_expands in Xo. subst u o r.
  destruct kids as [|kl [|ko [|kr [|]]]]; simpl in Fi; try discriminate;
    try (rewrite ?andb_false_r in Fi; discriminate).
  rewrite andb_true_r in Fi.
  apply andb_true_iff in Fi as [Fl Fi]. apply andb_true_iff in Fi as [Fo Fr].
  destruct ko as [w|]; [|discriminate]. apply lexeme_eqb_eq in Fo. subst w.
  apply fits_sym_root in Fl, Fr.
  exists kl, op, p, kr. repeat split; auto.
Qed.

(** The shift [a << b]. *)
Lemma binary_expression_children_witness :
  derives java_rules (sample "binary_expression" ["a"; "<<"; "b"])
  /\ root (sample "binary_expression" ["a"; "<<"; "b"]) = Some "binary_expression"
  /\ exists l op p r,
       In (op, p) binary_operators
       /\ kids_of (sample "binary_expression" ["a"; "<<"; "b"]) = [l; Leaf (cps op); r]
       /\ root l = Some "expression" /\ root r = Some "expression"
       /\ field_children "left" (sample "binary_expression" ["a"; "<<"; "b"]) = [l]
       /\ field_children "operator" (sample "binary_expression" ["a"; "<<"; "b"])
          = [Leaf (cps op)]
       /\ field_children "right" (sample "binary_expression" ["a"; "<<"; "b"]) = [r].
Proof.
  destruct (@sample_spec "binary_expression" ["a"; "<<"; "b"]) as (D & R & _);
    [vm_compute; discriminate|].
  refine (conj D (conj R _)).
  exact (@binary_expression_children _ D R).
Defined.

Lemma modifier_expands m :
  In m modifier_keywords ->
  forall body, lookup java_rules "modifiers" = Some (Repeat1 body) ->
               expands ctx0 body [(AStr m, ctx0)].
Proof.
  intros I body L. vm_compute in L. injection L as <-.
  eapply X_choice; [|apply X_str]. simpl in I. simpl.
  repeat (destruct I as [<-|I]; [auto 20|]). destruct I.
Qed.

Lemma fits_all_literals ms :
  fits_all (map (fun m => (AStr m, ctx0)) ms) (map (fun m => Leaf (cps m)) ms) = true.
Proof.
  induction ms as [|m ms IH]; [reflexivity|]. cbn [map fits_all]. unfold fits at 1.
  cbn [fst]. now rewrite lexeme_eqb_refl.
Qed.

(** X12: any non-empty sequence of modifier keywords, in any order and with
    repetitions, is derived by [modifiers]. *)
Theorem modifiers_any_order (ms : list string) :
  ms <> [] -> Forall (fun m => In m modifier_keywords) ms ->
  exists t, derives java_rules t /\ root t = Some "modifiers" /\ yield t = map cps ms.
Proof.
  intros N F.
  exists (Node "modifiers" (map (fun m => (AStr m, ctx0)) ms) (map (fun m => Leaf (cps m)) ms)).
  split; [|split].
  - destruct (lookup java_rules "modifiers") as [body|] eqn:L; [|discriminate].
    assert (E : exists b, body = Repeat1 b) by (vm_compute in L; injection L as <-; eauto).
    destruct E as [b ->].
    apply D_node with (body := Repeat1 b); [exact L| |apply fits_all_literals|].
    + destruct ms as [|m ms]; [contradiction|]. inversion F as [|? ? Hm Fm]; subst.
      change (map (fun m0 => (AStr m0, ctx0)) (m :: ms))
        with ([(AStr m, ctx0)] ++ map (fun m0 => (AStr m0, ctx0)) ms).
      apply X_repeat1; [now apply (modifier_expands Hm)|].
      apply repeat_expands. exists (map (fun m0 => [(AStr m0, ctx0)]) ms). split.
      * apply Forall_forall. intros p I. apply in_map_iff in I as (m0 & <- & I).
        rewrite Forall_forall in Fm. now apply (modifier_expands (Fm _ I)).
      * clear. induction ms as [|m0 ms IH]; simpl; [reflexivity|]. now rewrite <- IH.
    + apply Forall_forall. intros k I. apply in_map_iff in I as (m & <- & _). constructor.
  - reflexivity.
  - simpl. clear. induction ms as [|m ms IH]; simpl; [reflexivity|]. now rewrite IH.
Qed.

(** [static public static]. *)
Lemma modifiers_any_order_witness :
  ["static"; "public"; "static"] <> []
  /\ Forall (fun m => In m modifier_keywords) ["static"; "public"; "static"]
  /\ exists t, derives java_rules t /\ root t = Some "modifiers"
               /\ yield t = map cps ["static"; "public"; "static"].
Proof.
  assert (N : ["static"; "public"; "static"] <> []) by discriminate.
  assert (F : Forall (fun m => In m modifier_keywords) ["static"; "public"; "static"]).
  { repeat (apply Forall_cons; [simpl; auto 20|]). apply Forall_nil. }
  refine (conj N (conj F _)).
  exact (@modifiers_any_order _ N F).
Defined.

Lemma fits_all_syms n k xs kids :
  Forall (fun x => x = (ASym n, k)) xs -> fits_all xs kids = true ->
  Forall (fun t => root t = Some n) kids.
Proof.
  intros F. revert kids. induction F as [|x xs -> _ IH]; intros [|t kids] Fi;
    simpl in Fi; try discriminate; [constructor|].
  apply andb_true_iff in Fi as [Ft Fi]. constructor; [|now apply IH].
  now apply fits_sym_root in Ft.
Qed.

(** X13: a try statement is [try], a block, any number of catch clauses and
    at most one finally clause, last; it has a catch clause or a finally
    clause. *)
Theorem try_statement_has_handler (t : tree) :
  derives java_rules t -> root t = Some "try_statement" ->
  exists block catches tail,
    kids_of t = Leaf (cps "try") :: block :: catches ++ tail
    /\ root block = Some "block"
    /\ Forall (fun k => root k = Some "catch_clause") catches
    /\ ((tail = [] /\ catches <> [])
        \/ exists f, tail = [f] /\ root f = Some "finally_clause").
Proof.
  intros D R. destruct t as [w|n xs kids]; [discriminate|]. injection R as ->.
  apply derives_node in D as (body & L & X & Fi & _).
  vm_compute in L. injection L as <-.
  apply seq_cons_expands in X as (u & v & Xu & Xv & ->). inversion Xu; subst.
  apply seq2_expands in Xv as (b & h & Xb & Xh & ->).
  apply field_sym_expands in Xb. subst b.
  apply fits_all_split in Fi as (ks & ls & -> & Fk & Fl). apply fits_str in Fk. subst ks.
  apply fits_all_split in Fl as (bs & hs & -> & Fb & Fh).
  apply fits_one in Fb as (block & -> & Fb). apply fits_sym_root in Fb.
  exists block.
  apply choice_expands in Xh as (r & I & Xr). destruct I as [<-|[<-|[]]].
  - apply repeat1_expands in Xr as (c1 & cs & X1 & Xs & ->). inversion X1; subst.
    apply repeat_sym_steps in Xs.
    exists hs, []. rewrite app_nil_r. split; [reflexivity|]. split; [exact Fb|].
    split.
    + apply (@fits_all_syms "catch_clause" ctx0 ([(ASym "catch_clause", ctx0)] ++ cs));
        [|exact Fh].
      constructor; [reflexivity|exact Xs].
    + left. split; [reflexivity|]. destruct hs; [discriminate|discriminate].
  - apply seq2_expands in Xr as (cs & f & Xs & Xf & ->). inversion Xf; subst.
    apply repeat_sym_steps in Xs.
    apply fits_all_split in Fh as (catches & tail & -> & Fc & Ft).
    apply fits_one in Ft as (fin & -> & Ft). apply fits_sym_root in Ft.
    exists catches, [fin]. split; [reflexivity|]. split; [exact Fb|]. split.
    + now apply (@fits_all_syms "catch_clause" ctx0 cs).
    + right. eauto.
Qed.

(** [try { } finally { }]. *)
Lemma try_statement_has_handler_witness :
  derives java_rules (sample "try_statement" ["try"; "{"; "}"; "finally"; "{"; "}"])
  /\ root (sample "try_statement" ["try"; "{"; "}"; "finally"; "{"; "}"])
     = Some "try_statement"
  /\ exists block catches tail,
       kids_of (sample "try_statement" ["try"; "{"; "}"; "finally"; "{"; "}"])
       = Leaf (cps "try") :: block :: catches ++ tail
       /\ root block = Some "block"
       /\ Forall (fun k => root k = Some "catch_clause") catches
       /\ ((tail = [] /\ catches <> [])
           \/ exists f, tail = [f] /\ root f = Some "finally_clause").
Proof.
  destruct (@sample_spec "try_statement" ["try"; "{"; "}"; "finally"; "{"; "}"])
    as (D & R & _); [vm_compute; discriminate|].
  refine (conj D (conj R _)).
  exact (@try_statement_has_handler _ D R).
Defined.

(** ** Token rules *)




(** ** Numeric literals *)

Lemma hex_pair_spec a b :
  hex_pair a b = true ->
  (a = "hex_integer_literal" /\ b = "hex_floating_point_literal")
  \/ (a = "hex_floating_point_literal" /\ b = "hex_integer_literal").
Proof.
  unfold hex_pair. intros H. apply orb_true_iff in H as [H|H];
    apply andb_true_iff in H as [H1 H2]; apply String.eqb_eq in H1, H2; auto.
Qed.

Lemma numeric_pairs_checked :
  forallb (fun a =>
    forallb (fun b =>
      String.eqb a b || hex_pair a b
      || related unicode disjoint search
           (token_language java_rules a) (token_language java_rules b))
      numeric_literals) numeric_literals = true.
Proof. vm_compute. reflexivity. Qed.

(** X15: no string is matched by two different numeric literal tokens,
    except by [hex_integer_literal] and [hex_floating_point_literal]. *)
Theorem numeric_literals_overlap_only_in_hex (a b : string) (w : lexeme) :
  In a numeric_literals -> In b numeric_literals -> a <> b ->
  lexes a w = true -> lexes b w = true ->
  (a = "hex_integer_literal" /\ b = "hex_floating_point_literal")
  \/ (a = "hex_floating_point_literal" /\ b = "hex_integer_literal").
Proof.
  intros Ia Ib N La Lb. apply hex_pair_spec. pose proof numeric_pairs_checked as C.
  rewrite forallb_forall in C. specialize (C _ Ia). cbn beta in C.
  rewrite forallb_forall in C. specialize (C _ Ib). cbn beta in C.
  apply orb_true_iff in C as [C|C].
  - apply orb_true_iff in C as [C|C]; [|exact C].
    apply String.eqb_eq in C. contradiction.
  - pose proof (related_sound _ _ _ _ _ C w) as R. unfold lexes in La, Lb.
    rewrite La, Lb in R. discriminate.
Qed.

(** [0x1F] is a hex integer and a hex floating-point literal. *)
Lemma numeric_literals_overlap_only_in_hex_witness :
  In "hex_integer_literal" numeric_literals
  /\ In "hex_floating_point_literal" numeric_literals
  /\ "hex_integer_literal" <> "hex_floating_point_literal"
  /\ lexes "hex_integer_literal" (cps "0x1F") = true
  /\ lexes "hex_floating_point_literal" (cps "0x1F") = true
  /\ (("hex_integer_literal" = "hex_integer_literal"
       /\ "hex_floating_point_literal" = "hex_floating_point_literal")
      \/ ("hex_integer_literal" = "hex_floating_point_literal"
          /\ "hex_floating_point_literal" = "hex_integer_literal")).
Proof.
  assert (A : In "hex_integer_literal" numeric_literals) by (simpl; auto).
  assert (B : In "hex_floating_point_literal" numeric_literals) by (simpl; auto 10).
  assert (N : "hex_integer_literal" <> "hex_floating_point_literal") by discriminate.
  assert (La : lexes "hex_integer_literal" (cps "0x1F") = true) by (vm_compute; reflexivity).
  assert (Lb : lexes "hex_floating_point_literal" (cps "0x1F") = true)
    by (vm_compute; reflexivity).
  refine (conj A (conj B (conj N (conj La (conj Lb _))))).
  exact (@numeric_literals_overlap_only_in_hex _ _ _ A B N La Lb).
Defined.

Lemma hex_integer_checked :
  related unicode implb search
    (token_language java_rules "hex_integer_literal")
    (RAlt (token_language java_rules "hex_floating_point_literal")
          (RCat any (RSet [CChar (c "l"); CChar (c "L")]))) = true
  /\ related unicode disjoint search
       (token_language java_rules "hex_floating_point_literal")
       (RCat any (RSet [CChar (c "l"); CChar (c "L")])) = true.
Proof. split; vm_compute; reflexivity. Qed.

Lemma ends_long_spec w :
  re_match unicode (RCat any (RSet [CChar (c "l"); CChar (c "L")])) w = ends_long w.
Proof.
  rewrite re_match_ends. unfold ends_long. destruct (rev w) as [|x r]; [reflexivity|].
  unfold class_has, is_long_suffix. simpl. now rewrite orb_false_r.
Qed.

(** X16: a hex integer literal is also matched by
    [hex_floating_point_literal], unless it ends in [l] or [L]. *)
Theorem hex_integer_is_hex_float (w : lexeme) :
  lexes "hex_integer_literal" w = true ->
  lexes "hex_floating_point_literal" w = negb (ends_long w).
Proof.
  intros H. destruct hex_integer_checked as [A B].
  pose proof (related_sound _ _ _ _ _ A w) as RA.
  pose proof (related_sound _ _ _ _ _ B w) as RB.
  unfold lexes in *. rewrite H, re_match_alt, ends_long_spec in RA.
  rewrite ends_long_spec in RB. unfold disjoint in RB. cbn [implb] in RA.
  destruct (re_match unicode (token_language java_rules "hex_floating_point_literal") w),
    (ends_long w); simpl in *; congruence.
Qed.

(** [0xFFL] is a hex integer and no hex floating-point literal. *)
Lemma hex_integer_is_hex_float_witness :
  lexes "hex_integer_literal" (cps "0xFFL") = true
  /\ lexes "hex_floating_point_literal" (cps "0xFFL") = negb (ends_long (cps "0xFFL")).
Proof.
  assert (H : lexes "hex_integer_literal" (cps "0xFFL") = true) by (vm_compute; reflexivity).
  split; [exact H|]. exact (@hex_integer_is_hex_float _ H).
Defined.

Lemma decimal_integer_checked :
  related unicode disjoint search
    (token_language java_rules "decimal_integer_literal") no_leading_digit = true
  /\ related unicode implb search
       (token_language java_rules "decimal_integer_literal") no_leading_zero = true
  /\ related unicode disjoint search
       (token_language java_rules "decimal_integer_literal") stray_underscore = true
  /\ related unicode disjoint search
       (token_language java_rules "decimal_integer_literal") early_underscores = true
  /\ related unicode implb search
       (token_language java_rules "decimal_integer_literal") digits_then_suffix = true.
Proof. repeat split; vm_compute; reflexivity. Qed.

Lemma digit_or_underscore_spec x :
  class_has unicode digit_or_underscore x = is_digit_or_underscore x.
Proof.
  unfold class_has, digit_or_underscore, is_digit_or_underscore, is_digit. simpl.
  now rewrite orb_false_r.
Qed.

(** X17: a decimal integer literal is digits and underscores, then at most
    one [l] or [L]. It starts with a digit; if that digit is [0] the literal
    is [0], [0l] or [0L]; each underscore is followed by a digit or an
    underscore; the first digit is not followed by two underscores. *)
Theorem decimal_integer_literal_shape (w : lexeme) :
  lexes "decimal_integer_literal" w = true ->
  (exists body suffix,
      w = body ++ suffix
      /\ forallb is_digit_or_underscore body = true
      /\ (suffix = [] \/ suffix = cps "l" \/ suffix = cps "L"))
  /\ (exists x rest, w = x :: rest /\ is_digit x = true)
  /\ (forall rest, w = c "0" :: rest -> rest = [] \/ rest = cps "l" \/ rest = cps "L")
  /\ (forall u v, w = u ++ c "_" :: v ->
                  exists y v', v = y :: v' /\ is_digit_or_underscore y = true)
  /\ (forall x rest, w <> x :: c "_" :: c "_" :: rest).
Proof.
  intros H. destruct decimal_integer_checked as (A & B & C & D & E).
  unfold lexes in H.
  pose proof (related_sound _ _ _ _ _ A w) as RA.
  pose proof (related_sound _ _ _ _ _ B w) as RB.
  pose proof (related_sound _ _ _ _ _ C w) as RC.
  pose proof (related_sound _ _ _ _ _ D w) as RD.
  pose proof (related_sound _ _ _ _ _ E w) as RE.
  rewrite H in RA, RB, RC, RD, RE. unfold disjoint in RA, RC, RD.
  cbn [andb implb] in RA, RB, RC, RD, RE. apply negb_true_iff in RA, RC, RD.
  split; [|split; [|split; [|split]]].
  - unfold digits_then_suffix in RE. apply re_match_cat in RE as (body & suffix & -> & P & Q).
    exists body, suffix. split; [reflexivity|]. split.
    + rewrite (forallb_pointwise _ _ body (fun x => eq_sym (digit_or_underscore_spec x))).
      rewrite <- re_match_class_star. now rewrite re_match_eps_cat.
    + now apply re_match_suffix.
  - unfold no_leading_digit in RA. rewrite re_match_alt in RA.
    apply orb_false_iff in RA as [RA1 RA2]. rewrite re_match_starts in RA2.
    destruct w as [|x rest]; [discriminate|]. exists x, rest. split; [reflexivity|].
    apply negb_false_iff in RA2. unfold digit_class in RA2. now rewrite class1 in RA2.
  - intros rest ->. unfold no_leading_zero in RB. rewrite re_match_alt in RB.
    apply orb_true_iff in RB as [RB|RB].
    + apply re_match_cat in RB as (u & v & E' & P & Q). apply re_match_chr in P. subst u.
      injection E' as ->. now apply re_match_suffix.
    + rewrite re_match_alt in RB. apply orb_true_iff in RB as [RB|RB];
        [apply re_match_eps in RB; discriminate RB|].
      rewrite re_match_starts in RB. rewrite class1 in RB. discriminate.
  - intros u v ->.
    destruct v as [|y v'].
    + exfalso. enough (re_match unicode stray_underscore (u ++ [c "_"]) = true) by congruence.
      unfold stray_underscore. apply re_match_cat_app; [apply re_match_all|].
      apply (@re_match_cat_app unicode _ _ [c "_"] []); [now apply re_match_chr|reflexivity].
    + exists y, v'. split; [reflexivity|]. rewrite <- digit_or_underscore_spec.
      destruct (class_has unicode digit_or_underscore y) eqn:Y; [reflexivity|exfalso].
      enough (re_match unicode stray_underscore (u ++ c "_" :: y :: v') = true) by congruence.
      unfold stray_underscore. apply re_match_cat_app; [apply re_match_all|].
      apply (@re_match_cat_app unicode _ _ [c "_"] (y :: v')); [now apply re_match_chr|].
      rewrite re_match_alt, re_match_starts, Y. apply orb_true_r.
  - intros x rest ->.
    enough (re_match unicode early_underscores (x :: c "_" :: c "_" :: rest) = true)
      by congruence.
    unfold early_underscores.
    apply (@re_match_cat_app unicode _ _ [x] (c "_" :: c "_" :: rest)).
    + apply re_match_nset. exists x. split; reflexivity.
    + apply (@re_match_cat_app unicode _ _ (cps "__") rest);
        [now apply re_match_lit|apply re_match_all].
Qed.

(** The literal [1_000L]. *)
Lemma decimal_integer_literal_shape_witness :
  lexes "decimal_integer_literal" (cps "1_000L") = true
  /\ ((exists body suffix,
          cps "1_000L" = body ++ suffix
          /\ forallb is_digit_or_underscore body = true
          /\ (suffix = [] \/ suffix = cps "l" \/ suffix = cps "L"))
      /\ (exists x rest, cps "1_000L" = x :: rest /\ is_digit x = true)
      /\ (forall rest, cps "1_000L" = c "0" :: rest ->
                       rest = [] \/ rest = cps "l" \/ rest = cps "L")
      /\ (forall u v, cps "1_000L" = u ++ c "_" :: v ->
                      exists y v', v = y :: v' /\ is_digit_or_underscore y = true)
      /\ (forall x rest, cps "1_000L" <> x :: c "_" :: c "_" :: rest)).
Proof.
  assert (H : lexes "decimal_integer_literal" (cps "1_000L") = true)
    by (vm_compute; reflexivity).
  split; [exact H|]. exact (@decimal_integer_literal_shape _ H).
Defined.

(** ** Character and string literals *)

(** X18: between single quotes any non-empty run of plain characters is a
    character literal, whatever its length; the empty one is not. *)
Theorem character_literal_any_length (body : lexeme) :
  forallb is_plain_char body = true ->
  lexes "character_literal" (c "'" :: body ++ [c "'"]) = negb (is_nil body).
Proof.
  intros P. destruct body as [|x body]; [vm_compute; reflexivity|].
  cbn [is_nil negb]. unfold lexes.
  change (token_language java_rules "character_literal")
    with (RCat (lit "'")
            (RCat (RPlus (RAlt Re.char_plain
                            (RAlt Re.char_escaped (RAlt Re.char_continued RVoid))))
                  (RCat (lit "'") REps))).
  apply (@re_match_cat_app unicode _ _ (cps "'") ((x :: body) ++ [c "'"]));
    [now apply re_match_lit|].
  apply re_match_cat_app; [|rewrite re_match_cat_eps; now apply re_match_lit].
  rewrite re_match_plus.
  assert (S : forall y, is_plain_char y = true ->
                        re_match unicode
                          (RAlt Re.char_plain
                             (RAlt Re.char_escaped (RAlt Re.char_continued RVoid))) [y]
                        = true).
  { intros y Hy. rewrite re_match_alt. apply orb_true_iff. left.
    apply re_match_nset. exists y. split; [reflexivity|].
    unfold is_plain_char in Hy. apply negb_true_iff in Hy.
    unfold class_has. simpl. now rewrite orb_false_r, orb_assoc. }
  cbn [forallb] in P. apply andb_true_iff in P as [Px Pb].
  apply (@re_match_cat_app unicode _ _ [x] body); [now apply S|].
  apply re_match_star. exists (map (fun y => [y]) body). split.
  - symmetry. apply singles_concat.
  - apply Forall_forall. intros u I. apply in_map_iff in I as (y & <- & I).
    apply S. rewrite forallb_forall in Pb. now apply Pb.
Qed.

(** Three characters between the quotes. *)
Lemma character_literal_any_length_witness :
  forallb is_plain_char (cps "abc") = true
  /\ lexes "character_literal" (c "'" :: cps "abc" ++ [c "'"]) = negb (is_nil (cps "abc")).
Proof.
  assert (P : forallb is_plain_char (cps "abc") = true) by reflexivity.
  split; [exact P|]. exact (@character_literal_any_length _ P).
Defined.

(** X19: a string fragment is a non-empty string with no double quote and no
    backslash. *)
Theorem string_fragment_shape (w : lexeme) :
  lexes "string_fragment" w = negb (is_nil w) && forallb is_fragment_char w.
Proof.
  unfold lexes.
  change (token_language java_rules "string_fragment") with Re.fragment.
  unfold Re.fragment. rewrite re_match_plus.
  destruct w as [|x w]; [reflexivity|]. cbn [is_nil negb andb forallb].
  cbn [re_match deriv nullable]. unfold of_bool.
  assert (E : negb (class_has unicode [CChar DQUOTE; CChar BSLASH] x) = is_fragment_char x).
  { unfold class_has, is_fragment_char. simpl. now rewrite orb_false_r. }
  rewrite E. destruct (is_fragment_char x); cbn [andb].
  - rewrite re_match_eps_cat, re_match_nset_star. apply forallb_pointwise.
    intros y. unfold class_has, is_fragment_char. simpl. now rewrite orb_false_r.
  - apply re_match_void_cat.
Qed.

Lemma multiline_fragment_checked :
  related unicode disjoint search Re.fragment two_quotes = true
  /\ related unicode disjoint search Re.quote_fragment two_quotes = true.
Proof. split; vm_compute; reflexivity. Qed.

Lemma two_quotes_spec u v :
  re_match unicode two_quotes (u ++ DQUOTE :: DQUOTE :: v) = true.
Proof.
  unfold two_quotes. apply re_match_cat_app; [apply re_match_all|].
  apply (@re_match_cat_app unicode _ _ [DQUOTE] (DQUOTE :: v)); [now apply re_match_chr|].
  apply (@re_match_cat_app unicode _ _ [DQUOTE] v); [now apply re_match_chr|].
  apply re_match_all.
Qed.

(** X20: a fragment of a text block is one token and never holds two double
    quotes in a row. *)
Theorem multiline_fragment_has_no_quote_pair (t : tree) :
  derives java_rules t -> root t = Some "_multiline_string_fragment" ->
  exists w, kids_of t = [Leaf w] /\ forall u v, w <> u ++ DQUOTE :: DQUOTE :: v.
Proof.
  intros D R. destruct t as [w|n xs kids]; [discriminate|]. injection R as ->.
  apply derives_node in D as (body & L & X & Fi & _).
  vm_compute in L. injection L as <-.
  destruct multiline_fragment_checked as [A B].
  apply choice_expands in X as (r & I & X).
  assert (H : exists re, xs = [(APat re, ctx0)]
                         /\ related unicode disjoint search re two_quotes = true).
  { destruct I as [<-|[<-|[]]]; inversion X; subst.
    - exists Re.fragment. split; [reflexivity|exact A].
    - exists Re.quote_fragment. split; [reflexivity|exact B]. }
  destruct H as (re & -> & C).
  apply fits_one in Fi as (k & -> & Fk). destruct k as [w|]; [|discriminate Fk].
  exists w. split; [reflexivity|]. intros u v ->.
  pose proof (related_sound _ _ _ _ _ C (u ++ DQUOTE :: DQUOTE :: v)) as RC.
  unfold fits in Fk. cbn [fst] in Fk. rewrite Fk, two_quotes_spec in RC. discriminate RC.
Qed.

(** The fragment [text]. *)
Lemma multiline_fragment_has_no_quote_pair_witness :
  derives java_rules (Node "_multiline_string_fragment" [(APat Re.fragment, ctx0)]
                           [Leaf (cps "text")])
  /\ root (Node "_multiline_string_fragment" [(APat Re.fragment, ctx0)] [Leaf (cps "text")])
     = Some "_multiline_string_fragment"
  /\ exists w, kids_of (Node "_multiline_string_fragment" [(APat Re.fragment, ctx0)]
                             [Leaf (cps "text")]) = [Leaf w]
               /\ forall u v, w <> u ++ DQUOTE :: DQUOTE :: v.
Proof.
  assert (D : derives java_rules
                (Node "_multiline_string_fragment" [(APat Re.fragment, ctx0)]
                      [Leaf (cps "text")])).
  { apply D_node with (body := Choice [Pat Re.fragment; Pat Re.quote_fragment]).
    - reflexivity.
    - eapply X_choice; [now left|apply X_pat].
    - vm_compute. reflexivity.
    - repeat constructor. }
  refine (conj D (conj eq_refl _)).
  exact (@multiline_fragment_has_no_quote_pair _ D eq_refl).
Defined.

Lemma escape_sequence_checked :
  related unicode implb search short_escape (token_language java_rules "escape_sequence")
  = true
  /\ related unicode disjoint search (token_language java_rules "escape_sequence")
       long_after_short = true.
Proof. split; vm_compute; reflexivity. Qed.

Lemma short_escape_spec y :
  starts_long_escape y = false -> re_match unicode short_escape [BSLASH; y] = true.
Proof.
  intros S. unfold short_escape.
  apply (@re_match_cat_app unicode _ _ [BSLASH] [y]); [now apply re_match_chr|].
  apply re_match_nset. exists y. split; [reflexivity|].
  unfold starts_long_escape in S. unfold class_has. simpl. now rewrite orb_false_r, orb_assoc.
Qed.

(** X21: a backslash and one character that is not [x], [u] or an octal digit
    is an escape sequence, whatever the character, and nothing may follow
    it in the token. *)
Theorem escape_sequence_single_character (y : codepoint) (rest : lexeme) :
  starts_long_escape y = false ->
  lexes "escape_sequence" (BSLASH :: y :: rest) = is_nil rest.
Proof.
  intros S. destruct escape_sequence_checked as [A B]. unfold lexes.
  pose proof (short_escape_spec y S) as M.
  destruct rest as [|z rest]; cbn [is_nil].
  - pose proof (related_sound _ _ _ _ _ A [BSLASH; y]) as RA.
    rewrite M in RA. exact RA.
  - pose proof (related_sound _ _ _ _ _ B (BSLASH :: y :: z :: rest)) as RB.
    assert (L : re_match unicode long_after_short (BSLASH :: y :: z :: rest) = true).
    { unfold long_after_short.
      apply (@re_match_cat_app unicode _ _ [BSLASH; y] (z :: rest)); [exact M|].
      apply (@re_match_cat_app unicode _ _ [z] rest); [|apply re_match_all].
      apply re_match_nset. exists z. split; reflexivity. }
    rewrite L in RB. unfold disjoint in RB. rewrite andb_true_r in RB.
    now apply negb_true_iff in RB.
Qed.

(** A backslash and an opening brace. *)
Lemma escape_sequence_single_character_witness :
  starts_long_escape (c "{") = false
  /\ lexes "escape_sequence" (BSLASH :: c "{" :: []) = is_nil (@nil codepoint).
Proof.
  assert (S : starts_long_escape (c "{") = false) by reflexivity.
  split; [exact S|]. exact (@escape_sequence_single_character _ [] S).
Defined.

(** ** Comments *)

(** X22: a line comment is [//] and any characters other than a newline. *)
Theorem line_comment_shape (w : lexeme) :
  lexes "line_comment" w = true
  <-> exists rest, w = cps "//" ++ rest
                   /\ forallb (fun x => negb (x =? NEWLINE)%N) rest = true.
Proof.
  unfold lexes.
  change (token_language java_rules "line_comment")
    with (RCat (lit "//") (RCat Re.to_eol REps)).
  rewrite re_match_cat. split.
  - intros (u & v & -> & A & B). apply re_match_lit in A. subst u.
    rewrite re_match_cat_eps in B. unfold Re.to_eol in B. rewrite re_match_nset_star in B.
    exists v. split; [reflexivity|].
    erewrite forallb_pointwise; [exact B|]. intros x. unfold class_has. simpl.
    now rewrite orb_false_r.
  - intros (rest & -> & F). exists (cps "//"), rest. split; [reflexivity|].
    split; [now apply re_match_lit|].
    rewrite re_match_cat_eps. unfold Re.to_eol. rewrite re_match_nset_star.
    erewrite forallb_pointwise; [exact F|]. intros x. unfold class_has. simpl.
    now rewrite orb_false_r.
Qed.

Lemma block_comment_checked :
  related unicode implb search (token_language java_rules "block_comment") opened = true
  /\ related unicode disjoint search (token_language java_rules "block_comment") overrun = true
  /\ related unicode implb search opened
       (RAlt (token_language java_rules "block_comment") overrun) = true.
Proof. repeat split; vm_compute; reflexivity. Qed.

Lemma opened_spec w :
  re_match unicode opened w = true <-> exists body, w = cps "/*" ++ body ++ cps "*/".
Proof.
  unfold opened. rewrite re_match_cat. split.
  - intros (u & v & -> & A & B). apply re_match_lit in A. subst u.
    apply re_match_cat in B as (b & e & -> & _ & E). apply re_match_lit in E. subst e.
    eauto.
  - intros (body & ->). exists (cps "/*"), (body ++ cps "*/"). split; [reflexivity|].
    split; [now apply re_match_lit|]. apply re_match_cat_app; [apply re_match_all|].
    now apply re_match_lit.
Qed.

Lemma overrun_spec w :
  re_match unicode overrun w = true
  <-> exists u v, w = cps "/*" ++ u ++ cps "*/" ++ v /\ v <> [].
Proof.
  unfold overrun. rewrite re_match_cat. split.
  - intros (p & q & -> & A & B). apply re_match_lit in A. subst p.
    apply re_match_cat in B as (u & q' & -> & _ & B).
    apply re_match_cat in B as (e & v & -> & E & B). apply re_match_lit in E. subst e.
    apply re_match_cat in B as (x & v' & -> & X & _).
    apply re_match_nset in X as (y & -> & _).
    exists u, ([y] ++ v'). split; [reflexivity|discriminate].
  - intros (u & v & -> & N). exists (cps "/*"), (u ++ cps "*/" ++ v). split; [reflexivity|].
    split; [now apply re_match_lit|]. apply re_match_cat_app; [apply re_match_all|].
    apply re_match_cat_app; [now apply re_match_lit|].
    destruct v as [|y v]; [contradiction|].
    apply (@re_match_cat_app unicode (RNSet []) any [y] v); [|apply re_match_all].
    apply re_match_nset. exists y. split; reflexivity.
Qed.

(** X23: a block comment is [/*] and a text whose first [*/] is its end. *)
Theorem block_comment_ends_at_first_close (w : lexeme) :
  lexes "block_comment" w = true
  <-> exists rest, w = cps "/*" ++ rest /\ closes_once rest.
Proof.
  destruct block_comment_checked as (A & B & C). unfold lexes. split.
  - intros H.
    pose proof (related_sound _ _ _ _ _ A w) as RA. rewrite H in RA. cbn [implb] in RA.
    apply opened_spec in RA as (body & ->).
    exists (body ++ cps "*/"). split; [reflexivity|]. split; [eauto|].
    intros u v E. destruct v as [|y v]; [reflexivity|]. exfalso.
    pose proof (related_sound _ _ _ _ _ B (cps "/*" ++ body ++ cps "*/")) as RB.
    rewrite H in RB. unfold disjoint in RB. cbn [andb] in RB. apply negb_true_iff in RB.
    assert (O : re_match unicode overrun (cps "/*" ++ body ++ cps "*/") = true).
    { apply overrun_spec. exists u, (y :: v). split; [now rewrite E|discriminate]. }
    congruence.
  - intros (rest & -> & (body & ->) & F).
    pose proof (related_sound _ _ _ _ _ C (cps "/*" ++ body ++ cps "*/")) as RC.
    assert (O : re_match unicode opened (cps "/*" ++ body ++ cps "*/") = true).
    { apply opened_spec. eauto. }
    rewrite O, re_match_alt in RC. cbn [implb] in RC. apply orb_true_iff in RC as [RC|RC].
    + exact RC.
    + apply overrun_spec in RC as (u & v & E & N). exfalso. apply N.
      apply (F u v). apply (app_inv_head (cps "/*")). exact E.
Qed.

(** ** Keywords and the word token *)

Lemma keywords_checked :
  forallb (fun s => negb (starts_lowercase s)
                    || Bool.eqb (lexes "identifier" (cps s))
                                (negb (String.eqb s "non-sealed")))
          grammar_literals = true.
Proof. vm_compute. reflexivity. Qed.

(** X24: every literal of the grammar that starts with a lowercase letter is
    matched by the word token [identifier], except [non-sealed]. *)
Theorem keywords_match_word (s : string) :
  In s grammar_literals -> starts_lowercase s = true ->
  lexes "identifier" (cps s) = negb (String.eqb s "non-sealed").
Proof.
  intros I S. pose proof keywords_checked as C. rewrite forallb_forall in C.
  specialize (C _ I). rewrite S in C. simpl in C. now apply Bool.eqb_prop in C.
Qed.

(** The literal [non-sealed]. *)
Lemma keywords_match_word_witness :
  In "non-sealed" grammar_literals /\ starts_lowercase "non-sealed" = true
  /\ lexes "identifier" (cps "non-sealed") = negb (String.eqb "non-sealed" "non-sealed").
Proof.
  assert (I : In "non-sealed" grammar_literals).
  { apply (proj1 (@mem_spec "non-sealed" grammar_literals)). vm_compute. reflexivity. }
  assert (S : starts_lowercase "non-sealed" = true) by reflexivity.
  refine (conj I (conj S _)).
  exact (@keywords_match_word _ I S).
Defined.
